(** * ZipJS: a shallow embedding of [zip.js] and its verified properties

    The development follows the layout of the module: the fragment of
    JavaScript number semantics the codec relies on, the CRC-32 class, the
    byte cursor, the timestamp and record codecs, the [Extractor] and the
    [Builder]. *)

From Stdlib Require Import ZArith Lia List String Ascii Strings.Byte DecimalString.
From stdpp Require Import base list.
Import ListNotations.

Local Open Scope Z_scope.

(** ** JavaScript numbers

    Every number the codec manipulates is an integer far below 2^53 (a sum
    of a few 32-bit quantities or an array length), where IEEE doubles are
    exact, or it is [NaN].  [NaN] also stands for [undefined] wherever a
    value is only consumed by arithmetic and bitwise operators: both convert
    to the same results there. *)
Module JS.

Inductive number : Type :=
| Num (z : Z)
| NaN.

Definition ToUint32 (x : number) : Z :=
  match x with
  | Num z => z mod 2 ^ 32
  | NaN => 0
  end.

Definition ToInt32 (x : number) : Z :=
  let u := ToUint32 x in
  if u <? 2 ^ 31 then u else u - 2 ^ 32.

(** [x + y] and [x - y] on numbers. *)
Definition add (x y : number) : number :=
  match x, y with
  | Num a, Num b => Num (a + b)
  | _, _ => NaN
  end.

Definition sub (x y : number) : number :=
  match x, y with
  | Num a, Num b => Num (a - b)
  | _, _ => NaN
  end.

Definition mul (x y : number) : number :=
  match x, y with
  | Num a, Num b => Num (a * b)
  | _, _ => NaN
  end.

(** The shift count of [<<], [>>] and [>>>] is taken modulo 32. *)
Definition shift_count (n : number) : Z := ToUint32 n mod 32.

(** [x << n]: the result is a signed 32-bit integer. *)
Definition shl (x n : number) : number :=
  Num (ToInt32 (Num (Z.shiftl (ToInt32 x) (shift_count n)))).

(** [x >> n]: sign-propagating. *)
Definition shr (x n : number) : number :=
  Num (Z.shiftr (ToInt32 x) (shift_count n)).

(** [x >>> n]: zero-filling, the result is an unsigned 32-bit integer. *)
Definition ushr (x n : number) : number :=
  Num (Z.shiftr (ToUint32 x) (shift_count n)).

(** [x & y], [x | y], [x ^ y], [~x]: on signed 32-bit integers. *)
Definition band (x y : number) : number :=
  Num (Z.land (ToInt32 x) (ToInt32 y)).

Definition bor (x y : number) : number :=
  Num (Z.lor (ToInt32 x) (ToInt32 y)).

Definition bxor (x y : number) : number :=
  Num (Z.lxor (ToInt32 x) (ToInt32 y)).

Definition bnot (x : number) : number :=
  Num (Z.lnot (ToInt32 x)).

(** [Math.floor(x / d)] for a positive integer literal [d]. *)
Definition floor_div (x : number) (d : Z) : number :=
  match x with
  | Num z => Num (z / d)
  | NaN => NaN
  end.

(** Truthiness of a number: [0] and [NaN] are falsy. *)
Definition truthy (x : number) : bool :=
  match x with
  | Num z => negb (z =? 0)
  | NaN => false
  end.

(** Strict equality [x === y] of numbers: [NaN] equals nothing. *)
Definition strict_eq (x y : number) : bool :=
  match x, y with
  | Num a, Num b => a =? b
  | _, _ => false
  end.

(** [x <= y]: false as soon as one side is [NaN]. *)
Definition le (x y : number) : bool :=
  match x, y with
  | Num a, Num b => a <=? b
  | _, _ => false
  end.

Definition lt (x y : number) : bool :=
  match x, y with
  | Num a, Num b => a <? b
  | _, _ => false
  end.

(** [ToIntegerOrInfinity] on the integer fragment. *)
Definition ToInteger (x : number) : Z :=
  match x with
  | Num z => z
  | NaN => 0
  end.

(** ['' + x] for an integer or [NaN]. *)
Definition to_string (x : number) : string :=
  match x with
  | Num z => NilZero.string_of_int (Z.to_int z)
  | NaN => "NaN"%string
  end.

End JS.

Import JS.
Coercion Num : Z >-> number.

(** ** Typed arrays

    A [Uint8Array] is a list of bytes; reading outside it yields
    [undefined], writing outside it is ignored, and a stored number is
    reduced modulo 256. *)
Abbreviation Uint8Array := (list byte).

Definition byte_to_Z (b : byte) : Z := Z.of_N (Byte.to_N b).

Definition ToUint8 (x : number) : byte :=
  match Byte.of_N (Z.to_N (ToUint32 x mod 256)) with
  | Some b => b
  | None => x00
  end.

(** [a.length] *)
Definition len {A} (a : list A) : Z := Z.of_nat (length a).

(** Clamping of a relative index against a length, as [subarray],
    [slice], [splice] and [at] do. *)
Definition relative_index (i n : Z) : Z :=
  if i <? 0 then Z.max (n + i) 0 else Z.min i n.

Module TypedArray.

(** [a[i]] for an integer index [i]. *)
Definition get (a : Uint8Array) (i : Z) : number :=
  if i <? 0 then NaN
  else match a !! Z.to_nat i with
       | Some b => Num (byte_to_Z b)
       | None => NaN
       end.

(** [a[i] = v] *)
Definition put (a : Uint8Array) (i : Z) (v : number) : Uint8Array :=
  if i <? 0 then a else <[Z.to_nat i := ToUint8 v]> a.

(** [new Uint8Array(n)] *)
Definition new (n : Z) : Uint8Array := replicate (Z.to_nat n) x00.

(** [a.subarray(b, e)]; the view is modelled by its contents, which is
    sound as long as the viewed buffer is not written to afterwards. *)
Definition subarray {A} (a : list A) (b e : number) : list A :=
  let n := len a in
  let bi := relative_index (ToInteger b) n in
  let ei := relative_index (ToInteger e) n in
  take (Z.to_nat (Z.max (ei - bi) 0)) (drop (Z.to_nat bi) a).

(** [a.set(src, o)] for [0 <= o] and [o + src.length <= a.length];
    anything else is a [RangeError]. *)
Definition set (a src : Uint8Array) (o : Z) : option Uint8Array :=
  if (o <? 0) || (len a <? o + len src) then None
  else Some (take (Z.to_nat o) a ++ src ++ drop (Z.to_nat (o + len src)) a).

End TypedArray.

(** ** Errors

    Every failure of the module is a JavaScript [Error] carrying a reason
    string; the constructors keep the offending value apart from the
    wording. *)
Inductive error : Type :=
| IndexInvalid (v : number)
| NoContent (index : Z)
| UnsupportedMethod (m : number)
| InvalidFormat
| TypeError
| RangeError.

Definition reason (e : error) : string :=
  match e with
  | IndexInvalid v => "Index is invalid: " ++ to_string v
  | NoContent i => "No content at the index: " ++ to_string (Num i)
  | UnsupportedMethod m => "Unsupported compression method: " ++ to_string m
  | InvalidFormat => "Invalid format: End of central directory record is not found."
  | TypeError => "TypeError"
  | RangeError => "RangeError"
  end%string.

Inductive result (A : Type) : Type :=
| Ok (a : A)
| Err (e : error).
Arguments Ok {A} a.
Arguments Err {A} e.

(** ** CRC-32 *)
Module Crc32.

(** The inner loop of the constructor: [j] rounds on the slot value [c]. *)
Fixpoint slot (j : nat) (c : number) : number :=
  match j with
  | O => c
  | S j' =>
      let mc := ushr c 1 in
      slot j' (if truthy (band c 1) then bxor 0xedb88320 mc else mc)
  end.

(** [#table]: a [Uint32Array], which stores each value modulo 2^32. *)
Definition table_gen : list Z :=
  map (fun i => ToUint32 (slot 8 (Num (Z.of_nat i)))) (seq 0 256).

Definition table : list Z := Eval vm_compute in table_gen.

Definition table_get (i : number) : number :=
  match i with
  | Num z =>
      if z <? 0 then NaN
      else match table !! Z.to_nat z with
           | Some v => Num v
           | None => NaN
           end
  | NaN => NaN
  end.

(** One iteration of the loop of [calc]. *)
Definition update (c : number) (b : byte) : number :=
  bxor (table_get (band (bxor c (byte_to_Z b)) 0xff)) (ushr c 8).

Definition calc (bytes : Uint8Array) : number :=
  bxor (fold_left update bytes (Num 0xffffffff)) 0xffffffff.

(** [fmt]: the four octets, most significant first, in upper-case
    hexadecimal. *)
Definition hex_digit (d : Z) : ascii :=
  ascii_of_nat (Z.to_nat (if d <? 10 then 48 + d else 55 + d)).

Definition fmt (int32 : number) : string :=
  let octets := map (fun shift : Z => band (ushr int32 shift) 0xff) [24; 16; 8; 0] in
  fold_right (fun b s =>
      let z := ToInteger b in
      String (hex_digit (z / 16)) (String (hex_digit (z mod 16)) s))
    EmptyString octets.

End Crc32.

(** The standard the implementation is compared with: the reflected
    CRC-32 of polynomial 0xEDB88320, processed bit by bit on unsigned
    values, with initial value and final exclusive-or 0xFFFFFFFF. *)
Module Crc32Standard.

Definition bit_step (c : Z) : Z :=
  if Z.odd c then Z.lxor (Z.shiftr c 1) 0xEDB88320 else Z.shiftr c 1.

Definition byte_step (c : Z) (b : byte) : Z :=
  Nat.iter 8 bit_step (Z.lxor c (byte_to_Z b)).

Definition crc32 (bytes : list byte) : Z :=
  Z.lxor (fold_left byte_step bytes 0xFFFFFFFF) 0xFFFFFFFF.

End Crc32Standard.

(** ** The byte cursor

    A cursor is a byte array with a movable offset.  Its methods run in a
    state-and-exception monad: an exception thrown by the offset setter or
    by [set] aborts the computation. *)
Module ByteArrayCursor.

Record t : Type := mk { bytes : Uint8Array; offset : Z }.

Definition M (A : Type) : Type := t -> result (A * t).

Definition ret {A} (a : A) : M A := fun s => Ok (a, s).

Definition bind {A B} (m : M A) (k : A -> M B) : M B :=
  fun s =>
    match m s with
    | Ok (a, s') => k a s'
    | Err e => Err e
    end.

Definition throw {A} (e : error) : M A := fun _ => Err e.

(** [new ByteArrayCursor(bytes)] *)
Definition new (b : Uint8Array) : t := {| bytes := b; offset := 0 |}.

Module Notations.
Notation "'let*' x ':=' m 'in' k" :=
  (bind m (fun x => k))
  (at level 10, x pattern, m at level 100, k at level 200).
Notation "m ';;;' k" :=
  (bind m (fun _ => k))
  (at level 100, k at level 200, right associativity).
End Notations.
Import Notations.

(** The getter and the setter of [offset]. *)
Definition get_offset : M Z := fun s => Ok (offset s, s).

Definition set_offset (v : number) : M unit :=
  fun s =>
    if le v (len (bytes s))
    then Ok (tt, {| bytes := bytes s; offset := ToInteger v |})
    else Err (IndexInvalid v).

Definition get_bytes : M Uint8Array := fun s => Ok (bytes s, s).

Definition set_bytes (b : Uint8Array) : M unit :=
  fun s => Ok (tt, {| bytes := b; offset := offset s |}).

(** [this.offset++]: yields the old offset. *)
Definition post_increment : M Z :=
  let* o := get_offset in
  set_offset (add o 1) ;;;
  ret o.

(** [read()]: [this.bytes[this.offset++]] *)
Definition read : M number :=
  let* o := post_increment in
  let* b := get_bytes in
  ret (TypedArray.get b o).

(** [write(b)]: [this.bytes[this.offset++] = b] *)
Definition write (v : number) : M unit :=
  let* o := post_increment in
  let* b := get_bytes in
  set_bytes (TypedArray.put b o v).

Definition readAsUshort : M number :=
  let* b0 := read in
  let* b1 := read in
  ret (add b0 (shl b1 8)).

Definition writeUshort (s : number) : M unit :=
  write (band s 0xff) ;;;
  write (band (ushr s 8) 0xff).

Definition readAsInt : M number :=
  let* b0 := read in
  let* b1 := read in
  let* b2 := read in
  let* b3 := read in
  ret (add (add (add b0 (shl b1 8)) (shl b2 16)) (shl b3 24)).

Definition writeInt (i : number) : M unit :=
  write (band i 0xff) ;;;
  write (band (ushr i 8) 0xff) ;;;
  write (band (ushr i 16) 0xff) ;;;
  write (band (ushr i 24) 0xff).

Definition readAsUint : M number :=
  let* i := readAsInt in
  ret (ushr i 0).

(** [subarray(length)] *)
Definition subarray (length : number) : M Uint8Array :=
  let* o := get_offset in
  let* b := get_bytes in
  let sub := TypedArray.subarray b o (add o length) in
  set_offset (add o length) ;;;
  ret sub.

(** [set(bytes)] *)
Definition set (src : Uint8Array) : M unit :=
  let* o := get_offset in
  let* b := get_bytes in
  let nextOffset := add (len src) o in
  if lt (len b) nextOffset then throw (IndexInvalid nextOffset)
  else
    match TypedArray.set b src o with
    | Some b' => set_bytes b' ;;; set_offset nextOffset
    | None => throw RangeError
    end.

(** [moveTo(index)] *)
Definition moveTo (index : number) : M unit := set_offset index.

(** [Array.from({ length: n }, () => m)]: [m] is run [ToLength(n)] times. *)
Fixpoint repeatM {A} (n : nat) (m : M A) : M (list A) :=
  match n with
  | O => ret []
  | S n' =>
      let* x := m in
      let* xs := repeatM n' m in
      ret (x :: xs)
  end.

Definition Array_from {A} (length : number) (m : M A) : M (list A) :=
  repeatM (Z.to_nat (ToInteger length)) m.

(** [array.map(x => m x)] with an effectful callback. *)
Fixpoint mapM {A B} (f : A -> M B) (l : list A) : M (list B) :=
  match l with
  | [] => ret []
  | x :: l' =>
      let* y := f x in
      let* ys := mapM f l' in
      ret (y :: ys)
  end.

End ByteArrayCursor.

Import ByteArrayCursor.Notations.

(** Runs a cursor computation on a fresh array of [n] bytes and returns
    the array: the common shape of every [toBytes]. *)
Definition serialize (n : Z) (m : ByteArrayCursor.M unit) : result Uint8Array :=
  match m (ByteArrayCursor.new (TypedArray.new n)) with
  | Ok (_, c) => Ok (ByteArrayCursor.bytes c)
  | Err e => Err e
  end.

(** ** Timestamps *)

(** The calendar fields a [Date] answers with, in local time. *)
Record Date : Type := {
  getFullYear : number;
  getMonth : number;
  getDate : number;
  getHours : number;
  getMinutes : number;
  getSeconds : number
}.

Module ZipDateTime.

Record t : Type := mk {
  year : number;
  month : number;
  day : number;
  hour : number;
  minute : number;
  second : number
}.

Definition toInt (dt : t) : number :=
  add (add (add (add (add
    (shl (sub (year dt) 1980) 25)
    (shl (month dt) 21))
    (shl (day dt) 16))
    (shl (hour dt) 11))
    (shl (minute dt) 5))
    (floor_div (second dt) 2).

Definition fromInt (i : number) : t :=
  {| year := add 1980 (ushr i 25);
     month := band (ushr i 21) 15;
     day := band (ushr i 16) 31;
     hour := band (ushr i 11) 31;
     minute := band (ushr i 5) 63;
     second := mul (band i 31) 2 |}.

Definition fromDate (d : Date) : t :=
  {| year := getFullYear d;
     month := add (getMonth d) 1;
     day := getDate d;
     hour := getHours d;
     minute := getMinutes d;
     second := getSeconds d |}.

End ZipDateTime.

(** ** Local file header *)
Module LocalFileHeader.
Import ByteArrayCursor.

Record t : Type := mk {
  signature : number;
  versionNeeded : number;
  flags : number;
  method : number;
  lastModified : ZipDateTime.t;
  crc32 : number;
  compressedSize : number;
  uncompressedSize : number;
  fileNameBytes : Uint8Array;
  extraFieldBytes : Uint8Array
}.

(** [new LocalFileHeader()] at the moment the clock reads [now].  The two
    byte ranges, which the class leaves undefined until they are
    assigned, start empty here; no code path reads them before it has
    assigned them. *)
Definition new (now : Date) : t :=
  {| signature := 0x04034b50;
     versionNeeded := 20;
     flags := 1024;
     method := 8;
     lastModified := ZipDateTime.fromDate now;
     crc32 := 0;
     compressedSize := 0;
     uncompressedSize := 0;
     fileNameBytes := [];
     extraFieldBytes := [] |}.

Definition from : M t :=
  let* signature := readAsUint in
  let* versionNeeded := readAsUshort in
  let* flags := readAsUshort in
  let* method := readAsUshort in
  let* lastModified := readAsUint in
  let* crc32 := readAsUint in
  let* compressedSize := readAsUint in
  let* uncompressedSize := readAsUint in
  let* fileNameLength := readAsUshort in
  let* extraFieldLength := readAsUshort in
  let* fileNameBytes := subarray fileNameLength in
  let* extraFieldBytes := subarray extraFieldLength in
  ret {| signature := signature;
         versionNeeded := versionNeeded;
         flags := flags;
         method := method;
         lastModified := ZipDateTime.fromInt lastModified;
         crc32 := crc32;
         compressedSize := compressedSize;
         uncompressedSize := uncompressedSize;
         fileNameBytes := fileNameBytes;
         extraFieldBytes := extraFieldBytes |}.

Definition toBytes (r : t) : result Uint8Array :=
  let fileNameLength := len (fileNameBytes r) in
  let extraFieldLength := len (extraFieldBytes r) in
  serialize (30 + fileNameLength + extraFieldLength)
    (writeInt (signature r) ;;;
     writeUshort (versionNeeded r) ;;;
     writeUshort (flags r) ;;;
     writeUshort (method r) ;;;
     writeInt (ZipDateTime.toInt (lastModified r)) ;;;
     writeInt (crc32 r) ;;;
     writeInt (compressedSize r) ;;;
     writeInt (uncompressedSize r) ;;;
     writeUshort fileNameLength ;;;
     writeUshort extraFieldLength ;;;
     set (fileNameBytes r) ;;;
     set (extraFieldBytes r)).

(** [getFlag(i)]: [(this.flags >> i & 1) === 1] *)
Definition getFlag (r : t) (i : number) : bool :=
  strict_eq (band (shr (flags r) i) 1) 1.

Definition with_flags (r : t) (f : number) : t :=
  {| signature := signature r;
     versionNeeded := versionNeeded r;
     flags := f;
     method := method r;
     lastModified := lastModified r;
     crc32 := crc32 r;
     compressedSize := compressedSize r;
     uncompressedSize := uncompressedSize r;
     fileNameBytes := fileNameBytes r;
     extraFieldBytes := extraFieldBytes r |}.

(** [setFlag(i, b)] *)
Definition setFlag (r : t) (i : number) (b : bool) : t :=
  let v := shl 1 i in
  if b then with_flags r (bor (flags r) v)
  else with_flags r (band (flags r) (bnot v)).

Definition isEncrypted (r : t) : bool := getFlag r 0.
Definition hasDataDescriptor (r : t) : bool := getFlag r 3.
Definition isEnhancedDeflating (r : t) : bool := getFlag r 4.
Definition isCompressedPatchedData (r : t) : bool := getFlag r 5.
Definition isEncryptedStrongly (r : t) : bool := getFlag r 6.
Definition isUtf8 (r : t) : bool := getFlag r 11.
Definition isCentralDirectoryEncrypted (r : t) : bool := getFlag r 13.
Definition set_isUtf8 (r : t) (b : bool) : t := setFlag r 11 b.
Definition set_isEncrypted (r : t) (b : bool) : t := setFlag r 0 b.
Definition set_hasDataDescriptor (r : t) (b : bool) : t := setFlag r 3 b.
Definition set_isEnhancedDeflating (r : t) (b : bool) : t := setFlag r 4 b.
Definition set_isCompressedPatchedData (r : t) (b : bool) : t := setFlag r 5 b.
Definition set_isEncryptedStrongly (r : t) (b : bool) : t := setFlag r 6 b.
Definition set_isCentralDirectoryEncrypted (r : t) (b : bool) : t := setFlag r 13 b.

(** The three assignments of the data-descriptor branch of the
    extractor. *)
Definition with_descriptor (r : t) (crc csize usize : number) : t :=
  {| signature := signature r;
     versionNeeded := versionNeeded r;
     flags := flags r;
     method := method r;
     lastModified := lastModified r;
     crc32 := crc;
     compressedSize := csize;
     uncompressedSize := usize;
     fileNameBytes := fileNameBytes r;
     extraFieldBytes := extraFieldBytes r |}.

End LocalFileHeader.

(** ** Central directory entry

    The class extends [LocalFileHeader]; the inherited fields and
    accessors live in [base]. *)
Module CentralDirectoryEntry.
Import ByteArrayCursor.

Record t : Type := mk {
  base : LocalFileHeader.t;
  versionMadeBy : number;
  diskIdStart : number;
  internalAttributes : number;
  externalAttributes : number;
  headerOffset : number;
  commentBytes : Uint8Array
}.

(** [new CentralDirectoryEntry()]; the undefined [headerOffset] is [NaN]. *)
Definition new (now : Date) : t :=
  {| base :=
       {| LocalFileHeader.signature := 0x02014b50;
          LocalFileHeader.versionNeeded := 20;
          LocalFileHeader.flags := 1024;
          LocalFileHeader.method := 8;
          LocalFileHeader.lastModified := ZipDateTime.fromDate now;
          LocalFileHeader.crc32 := 0;
          LocalFileHeader.compressedSize := 0;
          LocalFileHeader.uncompressedSize := 0;
          LocalFileHeader.fileNameBytes := [];
          LocalFileHeader.extraFieldBytes := [] |};
     versionMadeBy := 20;
     diskIdStart := 0;
     internalAttributes := 0;
     externalAttributes := 0;
     headerOffset := NaN;
     commentBytes := [] |}.

Definition from : M t :=
  let* signature := readAsUint in
  let* versionMadeBy := readAsUshort in
  let* versionNeeded := readAsUshort in
  let* flags := readAsUshort in
  let* method := readAsUshort in
  let* lastModified := readAsUint in
  let* crc32 := readAsUint in
  let* compressedSize := readAsUint in
  let* uncompressedSize := readAsUint in
  let* fileNameLength := readAsUshort in
  let* extraFieldLength := readAsUshort in
  let* commentLength := readAsUshort in
  let* diskIdStart := readAsUshort in
  let* internalAttributes := readAsUshort in
  let* externalAttributes := readAsUint in
  let* headerOffset := readAsUint in
  let* fileNameBytes := subarray fileNameLength in
  let* extraFieldBytes := subarray extraFieldLength in
  let* commentBytes := subarray commentLength in
  ret {| base :=
           {| LocalFileHeader.signature := signature;
              LocalFileHeader.versionNeeded := versionNeeded;
              LocalFileHeader.flags := flags;
              LocalFileHeader.method := method;
              LocalFileHeader.lastModified := ZipDateTime.fromInt lastModified;
              LocalFileHeader.crc32 := crc32;
              LocalFileHeader.compressedSize := compressedSize;
              LocalFileHeader.uncompressedSize := uncompressedSize;
              LocalFileHeader.fileNameBytes := fileNameBytes;
              LocalFileHeader.extraFieldBytes := extraFieldBytes |};
         versionMadeBy := versionMadeBy;
         diskIdStart := diskIdStart;
         internalAttributes := internalAttributes;
         externalAttributes := externalAttributes;
         headerOffset := headerOffset;
         commentBytes := commentBytes |}.

Definition toBytes (r : t) : result Uint8Array :=
  let h := base r in
  let fileNameLength := len (LocalFileHeader.fileNameBytes h) in
  let extraFieldLength := len (LocalFileHeader.extraFieldBytes h) in
  let commentLength := len (commentBytes r) in
  serialize (46 + fileNameLength + extraFieldLength + commentLength)
    (writeInt (LocalFileHeader.signature h) ;;;
     writeUshort (versionMadeBy r) ;;;
     writeUshort (LocalFileHeader.versionNeeded h) ;;;
     writeUshort (LocalFileHeader.flags h) ;;;
     writeUshort (LocalFileHeader.method h) ;;;
     writeInt (ZipDateTime.toInt (LocalFileHeader.lastModified h)) ;;;
     writeInt (LocalFileHeader.crc32 h) ;;;
     writeInt (LocalFileHeader.compressedSize h) ;;;
     writeInt (LocalFileHeader.uncompressedSize h) ;;;
     writeUshort fileNameLength ;;;
     writeUshort extraFieldLength ;;;
     writeUshort commentLength ;;;
     writeUshort (diskIdStart r) ;;;
     writeUshort (internalAttributes r) ;;;
     writeInt (externalAttributes r) ;;;
     writeInt (headerOffset r) ;;;
     set (LocalFileHeader.fileNameBytes h) ;;;
     set (LocalFileHeader.extraFieldBytes h) ;;;
     set (commentBytes r)).

Definition with_headerOffset (r : t) (o : number) : t :=
  {| base := base r;
     versionMadeBy := versionMadeBy r;
     diskIdStart := diskIdStart r;
     internalAttributes := internalAttributes r;
     externalAttributes := externalAttributes r;
     headerOffset := o;
     commentBytes := commentBytes r |}.

End CentralDirectoryEntry.

(** ** End of central directory record *)
Module EndOfCentralDirectoryRecord.
Import ByteArrayCursor.

Record t : Type := mk {
  signature : number;
  diskId : number;
  firstDiskId : number;
  numOfFiles : number;
  totalNumOfFiles : number;
  cdSize : number;
  cdOffset : number;
  commentBytes : Uint8Array
}.

(** [new EndOfCentralDirectoryRecord()]; undefined numbers are [NaN]. *)
Definition new : t :=
  {| signature := 0x06054b50;
     diskId := 0;
     firstDiskId := 0;
     numOfFiles := 1;
     totalNumOfFiles := 0;
     cdSize := NaN;
     cdOffset := NaN;
     commentBytes := [] |}.

Definition from : M t :=
  let* signature := readAsUint in
  let* diskId := readAsUshort in
  let* firstDiskId := readAsUshort in
  let* numOfFiles := readAsUshort in
  let* totalNumOfFiles := readAsUshort in
  let* cdSize := readAsUint in
  let* cdOffset := readAsUint in
  let* commentLength := readAsUshort in
  let* commentBytes := subarray commentLength in
  ret {| signature := signature;
         diskId := diskId;
         firstDiskId := firstDiskId;
         numOfFiles := numOfFiles;
         totalNumOfFiles := totalNumOfFiles;
         cdSize := cdSize;
         cdOffset := cdOffset;
         commentBytes := commentBytes |}.

Definition toBytes (r : t) : result Uint8Array :=
  let commentLength := len (commentBytes r) in
  serialize (22 + commentLength)
    (writeInt (signature r) ;;;
     writeUshort (diskId r) ;;;
     writeUshort (firstDiskId r) ;;;
     writeUshort (numOfFiles r) ;;;
     writeUshort (totalNumOfFiles r) ;;;
     writeInt (cdSize r) ;;;
     writeInt (cdOffset r) ;;;
     writeUshort commentLength ;;;
     set (commentBytes r)).

End EndOfCentralDirectoryRecord.

(** ** Array helpers *)

(** [array.at(index)] *)
Definition at_ {A} (l : list A) (index : Z) : option A :=
  let n := len l in
  let k := if 0 <=? index then index else n + index in
  if (k <? 0) || (n <=? k) then None else l !! Z.to_nat k.

(** [array.splice(start, deleteCount)]: the removed elements and what is
    left of the array. *)
Definition splice {A} (l : list A) (start deleteCount : Z) : list A * list A :=
  let n := len l in
  let s := relative_index start n in
  let d := Z.min (Z.max deleteCount 0) (n - s) in
  (take (Z.to_nat d) (drop (Z.to_nat s) l),
   take (Z.to_nat s) l ++ drop (Z.to_nat (s + d)) l).

(** The four signature bytes of the end of central directory record,
    paired with their positions. *)
Definition eocd_signature : list (Z * Z) := [(0, 0x50); (1, 0x4b); (2, 5); (3, 6)].

(** The predicate given to [findLastIndex]:
    [[0x50, 0x4b, 5, 6].every((v, j) => v === a[i + j])] *)
Definition signature_at (a : Uint8Array) (i : Z) : bool :=
  forallb (fun '(j, v) => strict_eq (Num v) (TypedArray.get a (i + j))) eocd_signature.

(** [a.findLastIndex(p)]: the indices [n - 1] down to [0] are tried in
    turn. *)
Fixpoint findLastIndex_below (p : Z -> bool) (n : nat) : Z :=
  match n with
  | O => -1
  | S k => if p (Z.of_nat k) then Z.of_nat k else findLastIndex_below p k
  end.

Definition findLastIndex (a : Uint8Array) (p : Uint8Array -> Z -> bool) : Z :=
  findLastIndex_below (p a) (length a).

(** An entry of [contents]. *)
Record content : Type := { header : LocalFileHeader.t; body : Uint8Array }.

(** What the body of a [Response] resolves to; [None] is a stream that
    fails when it is read. *)
Definition Response : Type := option Uint8Array.

(** ** Extractor *)
Module Extractor.
Import ByteArrayCursor.

Record t : Type := mk {
  eocd : EndOfCentralDirectoryRecord.t;
  centralDirectory : list CentralDirectoryEntry.t;
  contents : list content
}.

(** The callback mapped over the central directory. *)
Definition read_content (record : CentralDirectoryEntry.t) : M content :=
  moveTo (CentralDirectoryEntry.headerOffset record) ;;;
  let* header := LocalFileHeader.from in
  let* body := subarray (LocalFileHeader.compressedSize (CentralDirectoryEntry.base record)) in
  if LocalFileHeader.hasDataDescriptor header then
    let* maySignature := readAsInt in
    let* crc := (if strict_eq maySignature 0x08074b50 then readAsInt else ret maySignature) in
    let* csize := readAsInt in
    let* usize := readAsInt in
    ret {| header := LocalFileHeader.with_descriptor header crc csize usize; body := body |}
  else
    ret {| header := header; body := body |}.

Definition parse : M t :=
  let* bytes := get_bytes in
  let offsetEocd := findLastIndex bytes signature_at in
  moveTo offsetEocd ;;;
  let* eocd := EndOfCentralDirectoryRecord.from in
  moveTo (EndOfCentralDirectoryRecord.cdOffset eocd) ;;;
  let* centralDirectory :=
    Array_from (EndOfCentralDirectoryRecord.numOfFiles eocd) CentralDirectoryEntry.from in
  let* contents := mapM read_content centralDirectory in
  ret {| eocd := eocd; centralDirectory := centralDirectory; contents := contents |}.

(** [new Extractor(buffer)] *)
Definition constructor (buffer : Uint8Array) : result t :=
  match parse (ByteArrayCursor.new buffer) with
  | Ok (ex, _) => Ok ex
  | Err e => Err e
  end.

Section WithHost.

(** The decompression service, [DecompressionStream('deflate-raw')], and
    [TextDecoder]. *)
Variable inflate_raw : Uint8Array -> option Uint8Array.
Variable decode : option string -> Uint8Array -> string.

(** [pick(index)] *)
Definition pick (ex : t) (index : Z) : result Response :=
  match at_ (contents ex) index with
  | None => Err (NoContent index)
  | Some content =>
      let m := LocalFileHeader.method (header content) in
      if strict_eq m 0 then Ok (Some (body content))
      else if strict_eq m 8 then Ok (inflate_raw (body content))
      else Err (UnsupportedMethod m)
  end.

(** [getPaths(encoding)] *)
Definition getPaths (ex : t) (encoding : option string) : list string :=
  map (fun c => decode encoding (LocalFileHeader.fileNameBytes (header c))) (contents ex).

End WithHost.

End Extractor.

(** The variant of the module that reads through [DataView]s guards its
    constructor: this is how it obtains the offset of the end record. *)
Module ExtractorView.

Definition eocdOffset (buffer : Uint8Array) : result Z :=
  let eocdOffset := findLastIndex buffer signature_at in
  if eocdOffset <? 0 then Err InvalidFormat else Ok eocdOffset.

End ExtractorView.

(** ** Builder *)
Module Builder.

Record t : Type := mk {
  centralDirectory : list CentralDirectoryEntry.t;
  contents : list content
}.

(** [new Builder()] *)
Definition new : t := {| centralDirectory := []; contents := [] |}.

(** [ZipBuilderAppendOptions]; a bare string is the record with only
    [filepath]. *)
Record options : Type := {
  filepath : string;
  method : option number;
  lastModified : option number;
  extraField : option Uint8Array;
  comment : option string
}.

Definition of_filepath (p : string) : options :=
  {| filepath := p; method := None; lastModified := None;
     extraField := None; comment := None |}.

Record Blob : Type := { blob_bytes : Uint8Array; blob_type : string }.

Section WithHost.

(** The host services: [TextEncoder], [TextDecoder], the conversion of a
    Unix time stamp to a local [Date], and
    [CompressionStream('deflate-raw')]. *)
Variable encode : string -> Uint8Array.
Variable decode : Uint8Array -> string.
Variable Date_of : number -> Date.
Variable deflate_raw : Uint8Array -> Uint8Array.

(** [textEncoder.encode(s)] for a possibly undefined [s]. *)
Definition encode_opt (s : option string) : Uint8Array :=
  match s with
  | Some s => encode s
  | None => []
  end.

(** The header and the directory entry as [append] has filled them in
    when it reaches its [switch]; [csize] is assigned in the branches. *)
Definition make_header (now : Date) (buf : Uint8Array) (opt : options)
    (m : number) (csize : number) : LocalFileHeader.t :=
  let header := LocalFileHeader.new now in
  let header := LocalFileHeader.set_isUtf8 header true in
  {| LocalFileHeader.signature := LocalFileHeader.signature header;
     LocalFileHeader.versionNeeded := if strict_eq m 8 then 20 else 10;
     LocalFileHeader.flags := LocalFileHeader.flags header;
     LocalFileHeader.method := m;
     LocalFileHeader.lastModified :=
       ZipDateTime.fromDate
         (match lastModified opt with
          | Some ms => if truthy ms then Date_of ms else now
          | None => now
          end);
     LocalFileHeader.crc32 := Crc32.calc buf;
     LocalFileHeader.compressedSize := csize;
     LocalFileHeader.uncompressedSize := len buf;
     LocalFileHeader.fileNameBytes := encode (filepath opt);
     LocalFileHeader.extraFieldBytes :=
       match extraField opt with Some e => e | None => [] end |}.

Definition make_entry (now : Date) (buf : Uint8Array) (opt : options)
    (m : number) (csize : number) : CentralDirectoryEntry.t :=
  let cd := CentralDirectoryEntry.new now in
  let h := make_header now buf opt m csize in
  {| CentralDirectoryEntry.base :=
       {| LocalFileHeader.signature := LocalFileHeader.signature (CentralDirectoryEntry.base cd);
          LocalFileHeader.versionNeeded := LocalFileHeader.versionNeeded h;
          LocalFileHeader.flags :=
            LocalFileHeader.flags (LocalFileHeader.set_isUtf8 (CentralDirectoryEntry.base cd) true);
          LocalFileHeader.method := LocalFileHeader.method h;
          LocalFileHeader.lastModified := LocalFileHeader.lastModified h;
          LocalFileHeader.crc32 := LocalFileHeader.crc32 h;
          LocalFileHeader.compressedSize := LocalFileHeader.compressedSize h;
          LocalFileHeader.uncompressedSize := LocalFileHeader.uncompressedSize h;
          LocalFileHeader.fileNameBytes := LocalFileHeader.fileNameBytes h;
          LocalFileHeader.extraFieldBytes := LocalFileHeader.extraFieldBytes h |};
     CentralDirectoryEntry.versionMadeBy := 20;
     CentralDirectoryEntry.diskIdStart := CentralDirectoryEntry.diskIdStart cd;
     CentralDirectoryEntry.internalAttributes := CentralDirectoryEntry.internalAttributes cd;
     CentralDirectoryEntry.externalAttributes := CentralDirectoryEntry.externalAttributes cd;
     CentralDirectoryEntry.headerOffset := CentralDirectoryEntry.headerOffset cd;
     CentralDirectoryEntry.commentBytes := encode_opt (comment opt) |}.

(** The two [push] calls that end the branches of the [switch]; the
    value returned is the new length of [contents]. *)
Definition push (b : t) (cd : CentralDirectoryEntry.t) (c : content) : t * number :=
  ({| centralDirectory := centralDirectory b ++ [cd];
      contents := contents b ++ [c] |},
   Num (len (contents b) + 1)).

(** [append(buf, opt)] when the clock reads [now]; the promise resolves
    to [Ok] or rejects with [Err]. *)
Definition append (now : Date) (b : t) (buf : Uint8Array) (opt : options)
    : result (t * number) :=
  let uncompressed := buf in
  let m := match method opt with Some m => m | None => Num 8 end in
  if strict_eq m 0 then
    let csize := Num (len uncompressed) in
    Ok (push b (make_entry now buf opt m csize)
               {| header := make_header now buf opt m csize; body := uncompressed |})
  else if strict_eq m 8 then
    let compressed := deflate_raw uncompressed in
    let csize := Num (len compressed) in
    Ok (push b (make_entry now buf opt m csize)
               {| header := make_header now buf opt m csize; body := compressed |})
  else Err (UnsupportedMethod m).

(** [remove(index, count = 1)] *)
Definition remove (b : t) (index : Z) (count : option Z) : t * list string :=
  let count := match count with Some c => c | None => 1 end in
  let '(cd, rest) := splice (centralDirectory b) index count in
  let '(_, rest_contents) := splice (contents b) index 1 in
  ({| centralDirectory := rest; contents := rest_contents |},
   map (fun entry => decode (LocalFileHeader.fileNameBytes (CentralDirectoryEntry.base entry))) cd).

(** The [for] loop of [build]: iteration [i] stores the running offset in
    [centralDirectory[i]], which must exist, and emits the header bytes
    and the body of [contents[i]].  It yields the directory with the
    stored offsets, the emitted parts and the final offset. *)
Fixpoint build_loop (offset : Z) (cds : list CentralDirectoryEntry.t)
    (cs : list content)
    : result (list CentralDirectoryEntry.t * list Uint8Array * Z) :=
  match cs with
  | [] => Ok (cds, [], offset)
  | c :: cs' =>
      match cds with
      | [] => Err TypeError
      | cd :: cds' =>
          match LocalFileHeader.toBytes (header c) with
          | Err e => Err e
          | Ok headerBytes =>
              match build_loop (offset + (len headerBytes + len (body c))) cds' cs' with
              | Err e => Err e
              | Ok (cds'', parts, offset') =>
                  Ok (CentralDirectoryEntry.with_headerOffset cd offset :: cds'',
                      headerBytes :: body c :: parts, offset')
              end
          end
      end
  end.

(** [this.centralDirectory.map(cd => cd.toBytes())] *)
Fixpoint map_toBytes (cds : list CentralDirectoryEntry.t) : result (list Uint8Array) :=
  match cds with
  | [] => Ok []
  | cd :: cds' =>
      match CentralDirectoryEntry.toBytes cd with
      | Err e => Err e
      | Ok x =>
          match map_toBytes cds' with
          | Err e => Err e
          | Ok xs => Ok (x :: xs)
          end
      end
  end.

(** The records and parts [build] assembles: the builder with the stored
    header offsets, the end record, and [blobPart]. *)
Definition build_parts (b : t) (comment : option string)
    : result (t * EndOfCentralDirectoryRecord.t * list Uint8Array) :=
  let n := len (contents b) in
  match build_loop 0 (centralDirectory b) (contents b) with
  | Err e => Err e
  | Ok (cds, parts, offset) =>
      match map_toBytes cds with
      | Err e => Err e
      | Ok cdBytes =>
          let eocd :=
            {| EndOfCentralDirectoryRecord.signature :=
                 EndOfCentralDirectoryRecord.signature EndOfCentralDirectoryRecord.new;
               EndOfCentralDirectoryRecord.diskId :=
                 EndOfCentralDirectoryRecord.diskId EndOfCentralDirectoryRecord.new;
               EndOfCentralDirectoryRecord.firstDiskId :=
                 EndOfCentralDirectoryRecord.firstDiskId EndOfCentralDirectoryRecord.new;
               EndOfCentralDirectoryRecord.numOfFiles := n;
               EndOfCentralDirectoryRecord.totalNumOfFiles := n;
               EndOfCentralDirectoryRecord.cdSize :=
                 fold_left (fun a c => add a (len c)) cdBytes (Num 0);
               EndOfCentralDirectoryRecord.cdOffset := offset;
               EndOfCentralDirectoryRecord.commentBytes := encode_opt comment |} in
          match EndOfCentralDirectoryRecord.toBytes eocd with
          | Err e => Err e
          | Ok eocdBytes =>
              Ok ({| centralDirectory := cds; contents := contents b |},
                  eocd, parts ++ cdBytes ++ [eocdBytes])
          end
      end
  end.

(** [build(options)]: the builder as the call leaves it and the blob. *)
Definition build (b : t) (comment : option string) : result (t * Blob) :=
  match build_parts b comment with
  | Err e => Err e
  | Ok (b', _, blobPart) =>
      Ok (b', {| blob_bytes := concat blobPart; blob_type := "application/zip" |})
  end.

End WithHost.

End Builder.

(** ** The records of the [DataView] variant

    The variant of the module that reads and writes through [DataView]s
    has the same record classes; its serializers fill a fixed-size view
    with [setUint32] and [setUint16] and return it together with the
    variable byte ranges. *)
Module DataView.

(** The little-endian bytes the two setters store: the value is first
    converted with [ToUint32], respectively [ToUint16]. *)
Definition le32 (value : number) : Uint8Array :=
  let u := ToUint32 value in
  [ToUint8 (Num u); ToUint8 (Num (u / 2 ^ 8)); ToUint8 (Num (u / 2 ^ 16));
   ToUint8 (Num (u / 2 ^ 24))].

Definition le16 (value : number) : Uint8Array :=
  let u := ToUint32 value mod 2 ^ 16 in
  [ToUint8 (Num u); ToUint8 (Num (u / 2 ^ 8))].

(** [view.setUint32(byteOffset, value, true)] on the bytes of the view;
    an access outside the view is a [RangeError]. *)
Definition setUint32 (view : Uint8Array) (byteOffset : Z) (value : number)
    : result Uint8Array :=
  if (byteOffset <? 0) || (len view <? byteOffset + 4) then Err RangeError
  else Ok (take (Z.to_nat byteOffset) view ++ le32 value
           ++ drop (Z.to_nat (byteOffset + 4)) view).

(** [view.setUint16(byteOffset, value, true)] *)
Definition setUint16 (view : Uint8Array) (byteOffset : Z) (value : number)
    : result Uint8Array :=
  if (byteOffset <? 0) || (len view <? byteOffset + 2) then Err RangeError
  else Ok (take (Z.to_nat byteOffset) view ++ le16 value
           ++ drop (Z.to_nat (byteOffset + 2)) view).

(** A sequence of stores into [new DataView(new ArrayBuffer(n))]; the
    first store that throws ends it. *)
Definition store : Type := Uint8Array -> Z -> number -> result Uint8Array.

Definition stores (n : Z) (ws : list (store * Z * number)) : result Uint8Array :=
  fold_left
    (fun acc '(f, o, v) => match acc with Ok view => f view o v | Err e => Err e end)
    ws (Ok (TypedArray.new n)).

End DataView.

Module LocalFileHeaderView.
Import DataView.

Definition toBlobParts (r : LocalFileHeader.t) : result (list Uint8Array) :=
  match
    stores 30
      [ (setUint32, 0, LocalFileHeader.signature r);
        (setUint16, 4, LocalFileHeader.versionNeeded r);
        (setUint16, 6, LocalFileHeader.flags r);
        (setUint16, 8, LocalFileHeader.method r);
        (setUint32, 10, ZipDateTime.toInt (LocalFileHeader.lastModified r));
        (setUint32, 14, LocalFileHeader.crc32 r);
        (setUint32, 18, LocalFileHeader.compressedSize r);
        (setUint32, 22, LocalFileHeader.uncompressedSize r);
        (setUint16, 26, Num (len (LocalFileHeader.fileNameBytes r)));
        (setUint16, 28, Num (len (LocalFileHeader.extraFieldBytes r))) ]
  with
  | Ok view => Ok [view; LocalFileHeader.fileNameBytes r; LocalFileHeader.extraFieldBytes r]
  | Err e => Err e
  end.

End LocalFileHeaderView.

Module CentralDirectoryEntryView.
Import DataView.

Definition toBlobParts (r : CentralDirectoryEntry.t) : result (list Uint8Array) :=
  let h := CentralDirectoryEntry.base r in
  match
    stores 46
      [ (setUint32, 0, LocalFileHeader.signature h);
        (setUint16, 4, CentralDirectoryEntry.versionMadeBy r);
        (setUint16, 6, LocalFileHeader.versionNeeded h);
        (setUint16, 8, LocalFileHeader.flags h);
        (setUint16, 10, LocalFileHeader.method h);
        (setUint32, 12, ZipDateTime.toInt (LocalFileHeader.lastModified h));
        (setUint32, 16, LocalFileHeader.crc32 h);
        (setUint32, 20, LocalFileHeader.compressedSize h);
        (setUint32, 24, LocalFileHeader.uncompressedSize h);
        (setUint16, 28, Num (len (LocalFileHeader.fileNameBytes h)));
        (setUint16, 30, Num (len (LocalFileHeader.extraFieldBytes h)));
        (setUint16, 32, Num (len (CentralDirectoryEntry.commentBytes r)));
        (setUint16, 34, CentralDirectoryEntry.diskIdStart r);
        (setUint16, 36, CentralDirectoryEntry.internalAttributes r);
        (setUint32, 38, CentralDirectoryEntry.externalAttributes r);
        (setUint32, 42, CentralDirectoryEntry.headerOffset r) ]
  with
  | Ok view =>
      Ok [view; LocalFileHeader.fileNameBytes h; LocalFileHeader.extraFieldBytes h;
          CentralDirectoryEntry.commentBytes r]
  | Err e => Err e
  end.

End CentralDirectoryEntryView.

Module EndOfCentralDirectoryRecordView.
Import DataView.

Definition toBlobParts (r : EndOfCentralDirectoryRecord.t) : result (list Uint8Array) :=
  match
    stores 22
      [ (setUint32, 0, EndOfCentralDirectoryRecord.signature r);
        (setUint16, 4, EndOfCentralDirectoryRecord.diskId r);
        (setUint16, 6, EndOfCentralDirectoryRecord.firstDiskId r);
        (setUint16, 8, EndOfCentralDirectoryRecord.numOfFiles r);
        (setUint16, 10, EndOfCentralDirectoryRecord.totalNumOfFiles r);
        (setUint32, 12, EndOfCentralDirectoryRecord.cdSize r);
        (setUint32, 16, EndOfCentralDirectoryRecord.cdOffset r);
        (setUint16, 20, Num (len (EndOfCentralDirectoryRecord.commentBytes r))) ]
  with
  | Ok view => Ok [view; EndOfCentralDirectoryRecord.commentBytes r]
  | Err e => Err e
  end.

End EndOfCentralDirectoryRecordView.

(** ** Auxiliary definitions used to state the properties *)

(** The ranges of signed and unsigned 32-bit integers. *)
Definition in_s32 (z : Z) : Prop := - 2 ^ 31 <= z < 2 ^ 31.
Definition in_u32 (z : Z) : Prop := 0 <= z < 2 ^ 32.

(** Entry [i] of the table is the [i]-th value of the bitwise standard and
    an unsigned 32-bit integer. *)
Definition table_entry_ok (i : nat) : bool :=
  match Crc32.table !! i with
  | Some v =>
      (v =? Nat.iter 8 Crc32Standard.bit_step (Z.of_nat i)) && (0 <=? v) && (v <? 2 ^ 32)
  | None => false
  end.

(** The packed 32-bit value of calendar fields and the ranges of the
    fields that fit the bit layout: seven bits of year offset, four of
    month, five of day, five of hour, six of minute, five of half-seconds. *)
Definition packed (y mo d h mi s : Z) : Z :=
  (y - 1980) * 2 ^ 25 + mo * 2 ^ 21 + d * 2 ^ 16 + h * 2 ^ 11 + mi * 2 ^ 5 + s / 2.

Definition in_dos_range (y mo d h mi s : Z) : Prop :=
  1980 <= y <= 2107 /\ 0 <= mo <= 15 /\ 0 <= d <= 31 /\ 0 <= h <= 31
  /\ 0 <= mi <= 63 /\ 0 <= s <= 63.


(** The cursor over [pre ++ rest] that stands right after [pre]. *)
Definition at_split (pre rest : Uint8Array) : ByteArrayCursor.t :=
  {| ByteArrayCursor.bytes := pre ++ rest; ByteArrayCursor.offset := len pre |}.


(** Little-endian encodings, as [writeUshort] and [writeInt] emit them. *)
Definition u16le (x : number) : Uint8Array :=
  [ToUint8 (band x 0xff); ToUint8 (band (ushr x 8) 0xff)].

Definition u32le (x : number) : Uint8Array :=
  [ToUint8 (band x 0xff); ToUint8 (band (ushr x 8) 0xff);
   ToUint8 (band (ushr x 16) 0xff); ToUint8 (band (ushr x 24) 0xff)].

(** Little-endian values, as [readAsUshort], [readAsInt] and [readAsUint]
    compute them. *)
Definition u16_of (b0 b1 : byte) : Z := byte_to_Z b0 + byte_to_Z b1 * 2 ^ 8.

Definition u32_of (b0 b1 b2 b3 : byte) : Z :=
  byte_to_Z b0 + byte_to_Z b1 * 2 ^ 8 + byte_to_Z b2 * 2 ^ 16 + byte_to_Z b3 * 2 ^ 24.

Definition s32_of (b0 b1 b2 b3 : byte) : Z := ToInt32 (Num (u32_of b0 b1 b2 b3)).


(** The byte layout of each record: what [toBytes] is shown to produce. *)
Module Layout.

Definition localFileHeader (r : LocalFileHeader.t) : Uint8Array :=
  u32le (LocalFileHeader.signature r)
  ++ u16le (LocalFileHeader.versionNeeded r)
  ++ u16le (LocalFileHeader.flags r)
  ++ u16le (LocalFileHeader.method r)
  ++ u32le (ZipDateTime.toInt (LocalFileHeader.lastModified r))
  ++ u32le (LocalFileHeader.crc32 r)
  ++ u32le (LocalFileHeader.compressedSize r)
  ++ u32le (LocalFileHeader.uncompressedSize r)
  ++ u16le (len (LocalFileHeader.fileNameBytes r))
  ++ u16le (len (LocalFileHeader.extraFieldBytes r))
  ++ LocalFileHeader.fileNameBytes r
  ++ LocalFileHeader.extraFieldBytes r.

Definition centralDirectoryEntry (r : CentralDirectoryEntry.t) : Uint8Array :=
  let h := CentralDirectoryEntry.base r in
  u32le (LocalFileHeader.signature h)
  ++ u16le (CentralDirectoryEntry.versionMadeBy r)
  ++ u16le (LocalFileHeader.versionNeeded h)
  ++ u16le (LocalFileHeader.flags h)
  ++ u16le (LocalFileHeader.method h)
  ++ u32le (ZipDateTime.toInt (LocalFileHeader.lastModified h))
  ++ u32le (LocalFileHeader.crc32 h)
  ++ u32le (LocalFileHeader.compressedSize h)
  ++ u32le (LocalFileHeader.uncompressedSize h)
  ++ u16le (len (LocalFileHeader.fileNameBytes h))
  ++ u16le (len (LocalFileHeader.extraFieldBytes h))
  ++ u16le (len (CentralDirectoryEntry.commentBytes r))
  ++ u16le (CentralDirectoryEntry.diskIdStart r)
  ++ u16le (CentralDirectoryEntry.internalAttributes r)
  ++ u32le (CentralDirectoryEntry.externalAttributes r)
  ++ u32le (CentralDirectoryEntry.headerOffset r)
  ++ LocalFileHeader.fileNameBytes h
  ++ LocalFileHeader.extraFieldBytes h
  ++ CentralDirectoryEntry.commentBytes r.

Definition endOfCentralDirectoryRecord (r : EndOfCentralDirectoryRecord.t) : Uint8Array :=
  u32le (EndOfCentralDirectoryRecord.signature r)
  ++ u16le (EndOfCentralDirectoryRecord.diskId r)
  ++ u16le (EndOfCentralDirectoryRecord.firstDiskId r)
  ++ u16le (EndOfCentralDirectoryRecord.numOfFiles r)
  ++ u16le (EndOfCentralDirectoryRecord.totalNumOfFiles r)
  ++ u32le (EndOfCentralDirectoryRecord.cdSize r)
  ++ u32le (EndOfCentralDirectoryRecord.cdOffset r)
  ++ u16le (len (EndOfCentralDirectoryRecord.commentBytes r))
  ++ EndOfCentralDirectoryRecord.commentBytes r.

End Layout.

(** A number as a 16-bit and as a 32-bit field holds it. *)
Definition u16 (x : number) : number := Num (ToUint32 x mod 2 ^ 16).
Definition u32 (x : number) : number := Num (ToUint32 x).

(** The record [from] is shown to read back from a layout. *)
Module Parsed.

(** What [from] reads back from the serialized record. *)
Definition localFileHeader (r : LocalFileHeader.t) : LocalFileHeader.t :=
  {| LocalFileHeader.signature := u32 (LocalFileHeader.signature r);
     LocalFileHeader.versionNeeded := u16 (LocalFileHeader.versionNeeded r);
     LocalFileHeader.flags := u16 (LocalFileHeader.flags r);
     LocalFileHeader.method := u16 (LocalFileHeader.method r);
     LocalFileHeader.lastModified :=
       ZipDateTime.fromInt (u32 (ZipDateTime.toInt (LocalFileHeader.lastModified r)));
     LocalFileHeader.crc32 := u32 (LocalFileHeader.crc32 r);
     LocalFileHeader.compressedSize := u32 (LocalFileHeader.compressedSize r);
     LocalFileHeader.uncompressedSize := u32 (LocalFileHeader.uncompressedSize r);
     LocalFileHeader.fileNameBytes := LocalFileHeader.fileNameBytes r;
     LocalFileHeader.extraFieldBytes := LocalFileHeader.extraFieldBytes r |}.

Definition centralDirectoryEntry (r : CentralDirectoryEntry.t) : CentralDirectoryEntry.t :=
  {| CentralDirectoryEntry.base := localFileHeader (CentralDirectoryEntry.base r);
     CentralDirectoryEntry.versionMadeBy := u16 (CentralDirectoryEntry.versionMadeBy r);
     CentralDirectoryEntry.diskIdStart := u16 (CentralDirectoryEntry.diskIdStart r);
     CentralDirectoryEntry.internalAttributes := u16 (CentralDirectoryEntry.internalAttributes r);
     CentralDirectoryEntry.externalAttributes := u32 (CentralDirectoryEntry.externalAttributes r);
     CentralDirectoryEntry.headerOffset := u32 (CentralDirectoryEntry.headerOffset r);
     CentralDirectoryEntry.commentBytes := CentralDirectoryEntry.commentBytes r |}.

Definition endOfCentralDirectoryRecord (r : EndOfCentralDirectoryRecord.t)
    : EndOfCentralDirectoryRecord.t :=
  {| EndOfCentralDirectoryRecord.signature := u32 (EndOfCentralDirectoryRecord.signature r);
     EndOfCentralDirectoryRecord.diskId := u16 (EndOfCentralDirectoryRecord.diskId r);
     EndOfCentralDirectoryRecord.firstDiskId := u16 (EndOfCentralDirectoryRecord.firstDiskId r);
     EndOfCentralDirectoryRecord.numOfFiles := u16 (EndOfCentralDirectoryRecord.numOfFiles r);
     EndOfCentralDirectoryRecord.totalNumOfFiles :=
       u16 (EndOfCentralDirectoryRecord.totalNumOfFiles r);
     EndOfCentralDirectoryRecord.cdSize := u32 (EndOfCentralDirectoryRecord.cdSize r);
     EndOfCentralDirectoryRecord.cdOffset := u32 (EndOfCentralDirectoryRecord.cdOffset r);
     EndOfCentralDirectoryRecord.commentBytes := EndOfCentralDirectoryRecord.commentBytes r |}.

End Parsed.


(** A number that a 16-bit, respectively 32-bit, unsigned field holds
    without loss. *)
Definition is_u16 (x : number) : Prop :=
  match x with
  | Num z => 0 <= z < 2 ^ 16
  | NaN => False
  end.

Definition is_u32 (x : number) : Prop :=
  match x with
  | Num z => 0 <= z < 2 ^ 32
  | NaN => False
  end.

(** Records whose fixed fields fit their serialized widths and whose
    variable byte ranges are shorter than 65536 bytes. *)
Module Fits.

Definition localFileHeader (r : LocalFileHeader.t) : Prop :=
  is_u32 (LocalFileHeader.signature r)
  /\ is_u16 (LocalFileHeader.versionNeeded r)
  /\ is_u16 (LocalFileHeader.flags r)
  /\ is_u16 (LocalFileHeader.method r)
  /\ is_u32 (LocalFileHeader.crc32 r)
  /\ is_u32 (LocalFileHeader.compressedSize r)
  /\ is_u32 (LocalFileHeader.uncompressedSize r)
  /\ len (LocalFileHeader.fileNameBytes r) < 2 ^ 16
  /\ len (LocalFileHeader.extraFieldBytes r) < 2 ^ 16.

Definition centralDirectoryEntry (r : CentralDirectoryEntry.t) : Prop :=
  localFileHeader (CentralDirectoryEntry.base r)
  /\ is_u16 (CentralDirectoryEntry.versionMadeBy r)
  /\ is_u16 (CentralDirectoryEntry.diskIdStart r)
  /\ is_u16 (CentralDirectoryEntry.internalAttributes r)
  /\ is_u32 (CentralDirectoryEntry.externalAttributes r)
  /\ is_u32 (CentralDirectoryEntry.headerOffset r)
  /\ len (CentralDirectoryEntry.commentBytes r) < 2 ^ 16.

Definition endOfCentralDirectoryRecord (r : EndOfCentralDirectoryRecord.t) : Prop :=
  is_u32 (EndOfCentralDirectoryRecord.signature r)
  /\ is_u16 (EndOfCentralDirectoryRecord.diskId r)
  /\ is_u16 (EndOfCentralDirectoryRecord.firstDiskId r)
  /\ is_u16 (EndOfCentralDirectoryRecord.numOfFiles r)
  /\ is_u16 (EndOfCentralDirectoryRecord.totalNumOfFiles r)
  /\ is_u32 (EndOfCentralDirectoryRecord.cdSize r)
  /\ is_u32 (EndOfCentralDirectoryRecord.cdOffset r)
  /\ len (EndOfCentralDirectoryRecord.commentBytes r) < 2 ^ 16.

End Fits.

(** A record with its timestamp taken through the packed 32-bit form. *)
Module Repacked.

Definition localFileHeader (r : LocalFileHeader.t) : LocalFileHeader.t :=
  {| LocalFileHeader.signature := LocalFileHeader.signature r;
     LocalFileHeader.versionNeeded := LocalFileHeader.versionNeeded r;
     LocalFileHeader.flags := LocalFileHeader.flags r;
     LocalFileHeader.method := LocalFileHeader.method r;
     LocalFileHeader.lastModified :=
       ZipDateTime.fromInt (ZipDateTime.toInt (LocalFileHeader.lastModified r));
     LocalFileHeader.crc32 := LocalFileHeader.crc32 r;
     LocalFileHeader.compressedSize := LocalFileHeader.compressedSize r;
     LocalFileHeader.uncompressedSize := LocalFileHeader.uncompressedSize r;
     LocalFileHeader.fileNameBytes := LocalFileHeader.fileNameBytes r;
     LocalFileHeader.extraFieldBytes := LocalFileHeader.extraFieldBytes r |}.

Definition centralDirectoryEntry (r : CentralDirectoryEntry.t) : CentralDirectoryEntry.t :=
  {| CentralDirectoryEntry.base := localFileHeader (CentralDirectoryEntry.base r);
     CentralDirectoryEntry.versionMadeBy := CentralDirectoryEntry.versionMadeBy r;
     CentralDirectoryEntry.diskIdStart := CentralDirectoryEntry.diskIdStart r;
     CentralDirectoryEntry.internalAttributes := CentralDirectoryEntry.internalAttributes r;
     CentralDirectoryEntry.externalAttributes := CentralDirectoryEntry.externalAttributes r;
     CentralDirectoryEntry.headerOffset := CentralDirectoryEntry.headerOffset r;
     CentralDirectoryEntry.commentBytes := CentralDirectoryEntry.commentBytes r |}.

End Repacked.

(** The cursor a record parser leaves behind after it has read all of
    [bs]. *)
Definition at_end (bs : Uint8Array) : ByteArrayCursor.t :=
  {| ByteArrayCursor.bytes := bs; ByteArrayCursor.offset := len bs |}.

(** Sample records: a stored local header dated 2024-05-17 13:45:30, the
    same header one second later, a directory entry for it and an end
    record. *)
Module Sample.

Definition header : LocalFileHeader.t :=
  {| LocalFileHeader.signature := 0x04034b50;
     LocalFileHeader.versionNeeded := 10;
     LocalFileHeader.flags := 3072;
     LocalFileHeader.method := 0;
     LocalFileHeader.lastModified := ZipDateTime.mk 2024 5 17 13 45 30;
     LocalFileHeader.crc32 := 0x58988d13;
     LocalFileHeader.compressedSize := 13;
     LocalFileHeader.uncompressedSize := 13;
     LocalFileHeader.fileNameBytes := ["a"; "."; "t"; "x"; "t"]%byte;
     LocalFileHeader.extraFieldBytes := [] |}.


Definition entry : CentralDirectoryEntry.t :=
  {| CentralDirectoryEntry.base :=
       {| LocalFileHeader.signature := 0x02014b50;
          LocalFileHeader.versionNeeded := 10;
          LocalFileHeader.flags := 3072;
          LocalFileHeader.method := 0;
          LocalFileHeader.lastModified := ZipDateTime.mk 2024 5 17 13 45 30;
          LocalFileHeader.crc32 := 0x58988d13;
          LocalFileHeader.compressedSize := 13;
          LocalFileHeader.uncompressedSize := 13;
          LocalFileHeader.fileNameBytes := ["a"; "."; "t"; "x"; "t"]%byte;
          LocalFileHeader.extraFieldBytes := [] |};
     CentralDirectoryEntry.versionMadeBy := 20;
     CentralDirectoryEntry.diskIdStart := 0;
     CentralDirectoryEntry.internalAttributes := 0;
     CentralDirectoryEntry.externalAttributes := 0;
     CentralDirectoryEntry.headerOffset := 0;
     CentralDirectoryEntry.commentBytes := ["o"; "k"]%byte |}.

Definition eocd : EndOfCentralDirectoryRecord.t :=
  {| EndOfCentralDirectoryRecord.signature := 0x06054b50;
     EndOfCentralDirectoryRecord.diskId := 0;
     EndOfCentralDirectoryRecord.firstDiskId := 0;
     EndOfCentralDirectoryRecord.numOfFiles := 1;
     EndOfCentralDirectoryRecord.totalNumOfFiles := 1;
     EndOfCentralDirectoryRecord.cdSize := 53;
     EndOfCentralDirectoryRecord.cdOffset := 48;
     EndOfCentralDirectoryRecord.commentBytes := [] |}.

End Sample.

(** A sequence of [append] calls; each entry carries the reading of the
    clock at its call, the buffer and the options. *)
Section AppendAll.
Variable encode : string -> Uint8Array.
Variable Date_of : number -> Date.
Variable deflate_raw : Uint8Array -> Uint8Array.

Fixpoint append_all (b : Builder.t) (entries : list (Date * Uint8Array * Builder.options))
    : result Builder.t :=
  match entries with
  | [] => Ok b
  | (now, buf, opt) :: entries' =>
      match Builder.append encode Date_of deflate_raw now b buf opt with
      | Ok (b', _) => append_all b' entries'
      | Err e => Err e
      end
  end.

End AppendAll.

(** A sample host: ASCII names, a fixed clock, and a toy compressor that
    frames its input with one marker byte. *)
Module Host.

Definition encode (s : string) : Uint8Array := list_byte_of_string s.
Definition decode (b : Uint8Array) : string := string_of_list_byte b.
Definition now : Date :=
  {| getFullYear := 2024; getMonth := 4; getDate := 17;
     getHours := 13; getMinutes := 45; getSeconds := 30 |}.
Definition Date_of (ms : number) : Date := now.
Definition deflate_raw (b : Uint8Array) : Uint8Array := x01 :: b.
Definition inflate_raw (b : Uint8Array) : option Uint8Array :=
  match b with
  | x01 :: b' => Some b'
  | _ => None
  end.

Definition hello : Uint8Array := list_byte_of_string "hello, world!".

Definition stored (path : string) : Date * Uint8Array * Builder.options :=
  (now, hello,
   {| Builder.filepath := path; Builder.method := Some (Num 0);
      Builder.lastModified := None; Builder.extraField := None;
      Builder.comment := None |}).

Definition deflated (path : string) : Date * Uint8Array * Builder.options :=
  (now, hello, Builder.of_filepath path).

(** A builder after three appends, and the archive built from the first
    of them. *)
Definition builder3 : Builder.t :=
  match append_all encode Date_of deflate_raw Builder.new
          [stored "a.txt"; deflated "b.txt"; stored "c.txt"] with
  | Ok b => b
  | Err _ => Builder.new
  end.

Definition archive1 : Uint8Array :=
  match append_all encode Date_of deflate_raw Builder.new [stored "a.txt"] with
  | Ok b =>
      match Builder.build encode b None with
      | Ok (_, blob) => Builder.blob_bytes blob
      | Err _ => []
      end
  | Err _ => []
  end.

End Host.

(** The bytes an entry of [contents] occupies in the archive: the local
    header followed by the body. *)
Definition local_part (c : content) : Uint8Array :=
  Layout.localFileHeader (header c) ++ body c.

(** The directory of [build]: entry [i] receives the length of the local
    parts before it, counted from [offset]. *)
Fixpoint with_offsets (offset : Z) (cds : list CentralDirectoryEntry.t) (cs : list content)
    : list CentralDirectoryEntry.t :=
  match cs, cds with
  | c :: cs', cd :: cds' =>
      CentralDirectoryEntry.with_headerOffset cd offset
      :: with_offsets (offset + len (local_part c)) cds' cs'
  | _, _ => cds
  end.

(** The three regions of a built archive. *)
Definition locals_region (cs : list content) : Uint8Array :=
  concat (map local_part cs).

Definition directory_region (cds : list CentralDirectoryEntry.t) : Uint8Array :=
  concat (map Layout.centralDirectoryEntry cds).

(** The end record [build] constructs for a directory region of [size]
    bytes starting at [offset], for [n] entries. *)
Definition built_eocd (n size offset : Z) (comment : Uint8Array)
    : EndOfCentralDirectoryRecord.t :=
  {| EndOfCentralDirectoryRecord.signature := 0x06054b50;
     EndOfCentralDirectoryRecord.diskId := 0;
     EndOfCentralDirectoryRecord.firstDiskId := 0;
     EndOfCentralDirectoryRecord.numOfFiles := n;
     EndOfCentralDirectoryRecord.totalNumOfFiles := n;
     EndOfCentralDirectoryRecord.cdSize := size;
     EndOfCentralDirectoryRecord.cdOffset := offset;
     EndOfCentralDirectoryRecord.commentBytes := comment |}.

(** The signature of the end record as bytes, and buffers that contain
    it somewhere. *)
Definition eocd_signature_bytes : Uint8Array := [x50; x4b; x05; x06].

Definition contains_signature (a : Uint8Array) : Prop :=
  exists pre post, a = pre ++ eocd_signature_bytes ++ post.

(** A cursor computation that never fails with the format error. *)
Definition never_InvalidFormat {A} (m : ByteArrayCursor.M A) : Prop :=
  forall s e, m s = Err e -> e <> InvalidFormat.

(** Absolute reads of a buffer: the byte at a position, and the signed
    little-endian 32-bit integer that starts there. *)
Definition byte_at (a : Uint8Array) (p : Z) : byte := default x00 (a !! Z.to_nat p).

Definition s32_at (a : Uint8Array) (p : Z) : Z :=
  s32_of (byte_at a p) (byte_at a (p + 1)) (byte_at a (p + 2)) (byte_at a (p + 3)).

(** A non-negative integer. *)
Definition nonneg (v : number) : Prop := exists u, v = Num u /\ 0 <= u.

(** A cursor computation that, started at a non-negative offset, only
    reads: when it returns, the bytes are the same, the offset is still
    non-negative and the result satisfies [P]. *)
Definition reads {A} (m : ByteArrayCursor.M A) (P : A -> Prop) : Prop :=
  forall s a s',
    m s = Ok (a, s') -> 0 <= ByteArrayCursor.offset s ->
    ByteArrayCursor.bytes s' = ByteArrayCursor.bytes s
    /\ 0 <= ByteArrayCursor.offset s' /\ P a.

(** The data descriptor as the extractor reads it at position [p] of the
    buffer: the optional signature, then CRC-32 and the two sizes. *)
Definition descriptor_start (a : Uint8Array) (p : Z) : Z :=
  if s32_at a p =? 0x08074b50 then p + 4 else p.

(** What the extractor records for the directory entry [cd] of the
    buffer [a]: [h] is the local header parsed at the entry's
    [headerOffset], ending at position [p0], and the body is the
    [compressedSize] bytes of the directory entry that follow.  The
    recorded header has the fields of [h], except that, when bit 3 of its
    flags is set, CRC-32 and the two sizes are the three signed 32-bit
    little-endian words of the trailer that follows the body. *)
Definition content_of (a : Uint8Array) (cd : CentralDirectoryEntry.t) (c : content) : Prop :=
  exists off csize h p0,
    CentralDirectoryEntry.headerOffset cd = Num off /\ 0 <= off
    /\ LocalFileHeader.compressedSize (CentralDirectoryEntry.base cd) = Num csize
    /\ 0 <= csize
    /\ LocalFileHeader.from {| ByteArrayCursor.bytes := a; ByteArrayCursor.offset := off |}
       = Ok (h, {| ByteArrayCursor.bytes := a; ByteArrayCursor.offset := p0 |})
    /\ 0 <= p0 /\ p0 + csize <= len a
    /\ body c = take (Z.to_nat csize) (drop (Z.to_nat p0) a)
    /\ LocalFileHeader.signature (header c) = LocalFileHeader.signature h
    /\ LocalFileHeader.versionNeeded (header c) = LocalFileHeader.versionNeeded h
    /\ LocalFileHeader.flags (header c) = LocalFileHeader.flags h
    /\ LocalFileHeader.method (header c) = LocalFileHeader.method h
    /\ LocalFileHeader.lastModified (header c) = LocalFileHeader.lastModified h
    /\ LocalFileHeader.fileNameBytes (header c) = LocalFileHeader.fileNameBytes h
    /\ LocalFileHeader.extraFieldBytes (header c) = LocalFileHeader.extraFieldBytes h
    /\ if LocalFileHeader.hasDataDescriptor h
       then
         let q := descriptor_start a (p0 + csize) in
         LocalFileHeader.crc32 (header c) = Num (s32_at a q)
         /\ LocalFileHeader.compressedSize (header c) = Num (s32_at a (q + 4))
         /\ LocalFileHeader.uncompressedSize (header c) = Num (s32_at a (q + 8))
         /\ q + 12 <= len a
       else
         LocalFileHeader.crc32 (header c) = LocalFileHeader.crc32 h
         /\ LocalFileHeader.compressedSize (header c) = LocalFileHeader.compressedSize h
         /\ LocalFileHeader.uncompressedSize (header c)
            = LocalFileHeader.uncompressedSize h.


(** An archive as a streaming writer leaves it: one stored entry "a" with
    body "hi", whose local header has bit 3 set and zero CRC-32 and
    sizes, followed by a 16-byte data descriptor with the true values. *)
Module Streamed.

Definition local : LocalFileHeader.t :=
  {| LocalFileHeader.signature := 0x04034b50;
     LocalFileHeader.versionNeeded := 20;
     LocalFileHeader.flags := 8;
     LocalFileHeader.method := 0;
     LocalFileHeader.lastModified := ZipDateTime.mk 2024 5 17 13 45 30;
     LocalFileHeader.crc32 := 0;
     LocalFileHeader.compressedSize := 0;
     LocalFileHeader.uncompressedSize := 0;
     LocalFileHeader.fileNameBytes := ["a"]%byte;
     LocalFileHeader.extraFieldBytes := [] |}.

Definition body : Uint8Array := ["h"; "i"]%byte.

Definition descriptor : Uint8Array :=
  u32le 0x08074b50 ++ u32le (Crc32.calc body) ++ u32le 2 ++ u32le 2.

Definition entry : CentralDirectoryEntry.t :=
  {| CentralDirectoryEntry.base :=
       {| LocalFileHeader.signature := 0x02014b50;
          LocalFileHeader.versionNeeded := 20;
          LocalFileHeader.flags := 8;
          LocalFileHeader.method := 0;
          LocalFileHeader.lastModified := ZipDateTime.mk 2024 5 17 13 45 30;
          LocalFileHeader.crc32 := u32 (Crc32.calc body);
          LocalFileHeader.compressedSize := 2;
          LocalFileHeader.uncompressedSize := 2;
          LocalFileHeader.fileNameBytes := ["a"]%byte;
          LocalFileHeader.extraFieldBytes := [] |};
     CentralDirectoryEntry.versionMadeBy := 20;
     CentralDirectoryEntry.diskIdStart := 0;
     CentralDirectoryEntry.internalAttributes := 0;
     CentralDirectoryEntry.externalAttributes := 0;
     CentralDirectoryEntry.headerOffset := 0;
     CentralDirectoryEntry.commentBytes := [] |}.

Definition archive : Uint8Array :=
  Eval vm_compute in
    Layout.localFileHeader local ++ body ++ descriptor
    ++ Layout.centralDirectoryEntry entry
    ++ Layout.endOfCentralDirectoryRecord (built_eocd 1 47 49 []).

End Streamed.

(** ** From a list of appended entries to the extractor of the built
    archive *)
Section RoundTrip.
Variable encode : string -> Uint8Array.
Variable Date_of : number -> Date.
Variable deflate_raw : Uint8Array -> Uint8Array.

(** The method an entry is appended with, its stored body, and the
    records [append] pushes for it. *)
Definition entry_method (e : Date * Uint8Array * Builder.options) : number :=
  match Builder.method (snd e) with Some m => m | None => Num 8 end.

Definition entry_body (e : Date * Uint8Array * Builder.options) : Uint8Array :=
  if strict_eq (entry_method e) 0 then snd (fst e) else deflate_raw (snd (fst e)).

Definition entry_content (e : Date * Uint8Array * Builder.options) : content :=
  {| header := Builder.make_header encode Date_of (fst (fst e)) (snd (fst e)) (snd e)
                 (entry_method e) (len (entry_body e));
     body := entry_body e |}.

Definition entry_record (e : Date * Uint8Array * Builder.options) : CentralDirectoryEntry.t :=
  Builder.make_entry encode Date_of (fst (fst e)) (snd (fst e)) (snd e)
    (entry_method e) (len (entry_body e)).

(** The archive [build(comment)] produces after the entries have been
    appended to a new builder, and the extractor constructed from it. *)
Definition archive_of (entries : list (Date * Uint8Array * Builder.options))
    (comment : option string) : result Uint8Array :=
  match append_all encode Date_of deflate_raw Builder.new entries with
  | Ok b =>
      match Builder.build encode b comment with
      | Ok (_, blob) => Ok (Builder.blob_bytes blob)
      | Err e => Err e
      end
  | Err e => Err e
  end.

Definition extract_built (entries : list (Date * Uint8Array * Builder.options))
    (comment : option string) : result Extractor.t :=
  match archive_of entries comment with
  | Ok a => Extractor.constructor a
  | Err e => Err e
  end.

(** The end record of that archive. *)
Definition archive_eocd (entries : list (Date * Uint8Array * Builder.options))
    (comment : option string) : EndOfCentralDirectoryRecord.t :=
  let cs := map entry_content entries in
  let cds := with_offsets 0 (map entry_record entries) cs in
  built_eocd (len cs) (len (directory_region cds)) (len (locals_region cs))
    (Builder.encode_opt encode comment).

(** An entry within the limits of the format: method 0 or 8, a name, an
    extra field and a comment shorter than 65536 bytes, and less than 2^32
    bytes of content and of stored body. *)
Definition entry_valid (e : Date * Uint8Array * Builder.options) : Prop :=
  (entry_method e = Num 0 \/ entry_method e = Num 8)
  /\ len (encode (Builder.filepath (snd e))) < 2 ^ 16
  /\ len (match Builder.extraField (snd e) with Some x => x | None => [] end) < 2 ^ 16
  /\ len (Builder.encode_opt encode (Builder.comment (snd e))) < 2 ^ 16
  /\ len (snd (fst e)) < 2 ^ 32
  /\ len (entry_body e) < 2 ^ 32.

End RoundTrip.

(** A directory entry whose three byte ranges fit their 16-bit lengths. *)
Definition ranges_fit (cd : CentralDirectoryEntry.t) : Prop :=
  len (LocalFileHeader.fileNameBytes (CentralDirectoryEntry.base cd)) < 2 ^ 16
  /\ len (LocalFileHeader.extraFieldBytes (CentralDirectoryEntry.base cd)) < 2 ^ 16
  /\ len (CentralDirectoryEntry.commentBytes cd) < 2 ^ 16.

(** A directory entry and a content entry that describe the same stored
    body, in an archive without data descriptors. *)
Definition describes (cd : CentralDirectoryEntry.t) (c : content) : Prop :=
  LocalFileHeader.compressedSize (CentralDirectoryEntry.base cd) = Num (len (body c))
  /\ len (body c) < 2 ^ 32
  /\ len (LocalFileHeader.fileNameBytes (header c)) < 2 ^ 16
  /\ len (LocalFileHeader.extraFieldBytes (header c)) < 2 ^ 16
  /\ LocalFileHeader.hasDataDescriptor (Parsed.localFileHeader (header c)) = false.

(** The content entry the extractor records for a content entry of the
    builder. *)
Definition parsed_content (c : content) : content :=
  {| header := Parsed.localFileHeader (header c); body := body c |}.


(** 19280 empty stored files, 12885 of them named "aa" and 6395 named
    "a". *)
Module Crowd.

Definition file (path : string) : Date * Uint8Array * Builder.options :=
  (Host.now, [],
   {| Builder.filepath := path; Builder.method := Some (Num 0);
      Builder.lastModified := None; Builder.extraField := None;
      Builder.comment := None |}).

Definition entries : list (Date * Uint8Array * Builder.options) :=
  replicate (Z.to_nat 12885) (file "aa") ++ replicate (Z.to_nat 6395) (file "a").

End Crowd.

(** ** Further definitions: the cursor, the flags, and hexadecimal text *)

(** Absolute unsigned little-endian reads of a buffer. *)
Definition u16_at (a : Uint8Array) (p : Z) : Z := u16_of (byte_at a p) (byte_at a (p + 1)).

Definition u32_at (a : Uint8Array) (p : Z) : Z :=
  u32_of (byte_at a p) (byte_at a (p + 1)) (byte_at a (p + 2)) (byte_at a (p + 3)).

(** What a reader of [k] bytes answers on the cursor [s]: the value [v]
    and the offset moved by [k] when [k] bytes are left, and otherwise the
    error of the offset setter at one past the end of the array. *)
Definition read_result {A} (s : ByteArrayCursor.t) (k : Z) (v : A)
    : result (A * ByteArrayCursor.t) :=
  if ByteArrayCursor.offset s + k <=? len (ByteArrayCursor.bytes s)
  then Ok (v, {| ByteArrayCursor.bytes := ByteArrayCursor.bytes s;
                 ByteArrayCursor.offset := ByteArrayCursor.offset s + k |})
  else Err (IndexInvalid (Num (len (ByteArrayCursor.bytes s) + 1))).

(** A cursor computation that consumes [k] bytes when they are there and
    otherwise stops one past the end of the array. *)
Definition advances {A} (m : ByteArrayCursor.M A) (k : Z) : Prop :=
  forall s, ByteArrayCursor.offset s <= len (ByteArrayCursor.bytes s) ->
    (ByteArrayCursor.offset s + k <= len (ByteArrayCursor.bytes s)
     /\ exists v, m s = Ok (v, {| ByteArrayCursor.bytes := ByteArrayCursor.bytes s;
                                  ByteArrayCursor.offset := ByteArrayCursor.offset s + k |}))
    \/ (len (ByteArrayCursor.bytes s) < ByteArrayCursor.offset s + k
        /\ m s = Err (IndexInvalid (Num (len (ByteArrayCursor.bytes s) + 1)))).

(** The array [b] after the bytes [w] have been stored at position [o]. *)
Definition stored_at (b : Uint8Array) (o : Z) (w : Uint8Array) : Uint8Array :=
  take (Z.to_nat o) b ++ w ++ drop (Z.to_nat (o + len w)) b.

(** The bytes a parser has consumed between two states of the cursor. *)
Definition consumed (s s' : ByteArrayCursor.t) : Uint8Array :=
  take (Z.to_nat (ByteArrayCursor.offset s' - ByteArrayCursor.offset s))
       (drop (Z.to_nat (ByteArrayCursor.offset s)) (ByteArrayCursor.bytes s)).

(** A cursor computation that leaves the array alone and fails only by
    moving the offset to a value that is not at most the length. *)
Definition reader {A} (m : ByteArrayCursor.M A) : Prop :=
  (forall s a s', m s = Ok (a, s') -> ByteArrayCursor.bytes s' = ByteArrayCursor.bytes s)
  /\ (forall s e, m s = Err e ->
        exists v, e = IndexInvalid v /\ le v (Num (len (ByteArrayCursor.bytes s))) = false).

(** A cursor computation that never resizes the array and, started with
    the offset at most the length, ends with the offset at most the
    length. *)
Definition keeps_bounds {A} (m : ByteArrayCursor.M A) : Prop :=
  forall s a s',
    ByteArrayCursor.offset s <= len (ByteArrayCursor.bytes s) -> m s = Ok (a, s') ->
    len (ByteArrayCursor.bytes s') = len (ByteArrayCursor.bytes s)
    /\ ByteArrayCursor.offset s' <= len (ByteArrayCursor.bytes s').

(** The seven named flags: each getter with its setter. *)
Definition named_flags
    : list ((LocalFileHeader.t -> bool) * (LocalFileHeader.t -> bool -> LocalFileHeader.t)) :=
  [ (LocalFileHeader.isEncrypted, LocalFileHeader.set_isEncrypted);
    (LocalFileHeader.hasDataDescriptor, LocalFileHeader.set_hasDataDescriptor);
    (LocalFileHeader.isEnhancedDeflating, LocalFileHeader.set_isEnhancedDeflating);
    (LocalFileHeader.isCompressedPatchedData, LocalFileHeader.set_isCompressedPatchedData);
    (LocalFileHeader.isEncryptedStrongly, LocalFileHeader.set_isEncryptedStrongly);
    (LocalFileHeader.isUtf8, LocalFileHeader.set_isUtf8);
    (LocalFileHeader.isCentralDirectoryEncrypted,
     LocalFileHeader.set_isCentralDirectoryEncrypted) ].

(** The value of an upper-case hexadecimal digit and of a string of
    them; anything else has no value. *)
Definition hex_value (c : ascii) : option Z :=
  let n := Z.of_nat (nat_of_ascii c) in
  if (48 <=? n) && (n <=? 57) then Some (n - 48)
  else if (65 <=? n) && (n <=? 70) then Some (n - 55)
  else None.

Fixpoint hex_number_from (acc : Z) (s : string) : option Z :=
  match s with
  | EmptyString => Some acc
  | String c s' =>
      match hex_value c with
      | Some d => hex_number_from (16 * acc + d) s'
      | None => None
      end
  end.

Definition hex_number (s : string) : option Z := hex_number_from 0 s.

(** 65536 empty stored files named "a", and the builder they leave when
    they are appended to a new one. *)
Module Flock.

Definition entries : list (Date * Uint8Array * Builder.options) :=
  replicate (Z.to_nat 65536) (Crowd.file "a").

Definition builder : Builder.t :=
  {| Builder.centralDirectory :=
       map (entry_record Host.encode Host.Date_of Host.deflate_raw) entries;
     Builder.contents :=
       map (entry_content Host.encode Host.Date_of Host.deflate_raw) entries |}.

End Flock.

(** * Properties

    ** 32-bit conversions and bitwise operators *)


Lemma ToUint32_range x : in_u32 (ToUint32 x).
Proof. unfold in_u32; destruct x; simpl; [apply Z.mod_pos_bound|]; lia. Qed.

Lemma ToInt32_range x : in_s32 (ToInt32 x).
Proof.
  unfold in_s32, ToInt32. pose proof (ToUint32_range x) as H. unfold in_u32 in H.
  destruct (Z.ltb_spec (ToUint32 x) (2 ^ 31)); lia.
Qed.

Lemma ToUint32_ToInt32 x : ToUint32 (Num (ToInt32 x)) = ToUint32 x.
Proof.
  unfold ToInt32. pose proof (ToUint32_range x) as H. unfold in_u32 in H.
  destruct (Z.ltb_spec (ToUint32 x) (2 ^ 31)); simpl.
  - apply Z.mod_small; lia.
  - replace (ToUint32 x - 2 ^ 32) with (ToUint32 x + (-1) * 2 ^ 32) by lia.
    rewrite Z.mod_add by lia. apply Z.mod_small; lia.
Qed.

Lemma ToUint32_small z : in_u32 z -> ToUint32 (Num z) = z.
Proof. unfold in_u32; intros; simpl; apply Z.mod_small; lia. Qed.

Lemma ToInt32_small z : in_s32 z -> ToInt32 (Num z) = z.
Proof.
  unfold in_s32, ToInt32; intros H; simpl.
  destruct (Z.ltb_spec (z mod 2 ^ 32) (2 ^ 31)) as [Hlt|Hge].
  - destruct (Z.neg_nonneg_cases z) as [Hn|Hn].
    + replace z with ((z + 2 ^ 32) + (-1) * 2 ^ 32) in Hlt by lia.
      rewrite Z.mod_add, Z.mod_small in Hlt; lia.
    + apply Z.mod_small; lia.
  - destruct (Z.neg_nonneg_cases z) as [Hn|Hn].
    + replace z with ((z + 2 ^ 32) + (-1) * 2 ^ 32) at 1 by lia.
      rewrite Z.mod_add, Z.mod_small; lia.
    + rewrite Z.mod_small in Hge; lia.
Qed.

Lemma testbit_ToUint32 z i : Z.testbit (ToUint32 (Num z)) i = (i <? 32) && Z.testbit z i.
Proof.
  simpl. destruct (Z.ltb_spec i 32).
  - destruct (Z.neg_nonneg_cases i). { now rewrite !Z.testbit_neg_r. }
    now rewrite Z.mod_pow2_bits_low.
  - now rewrite Z.mod_pow2_bits_high by lia.
Qed.

Lemma lxor_nonneg_bound a b n : 0 <= n -> 0 <= a < 2 ^ n -> 0 <= b < 2 ^ n -> 0 <= Z.lxor a b < 2 ^ n.
Proof.
  intros Hn Ha Hb.
  assert (Hnn : 0 <= Z.lxor a b) by (apply Z.lxor_nonneg; lia).
  split; [exact Hnn|].
  destruct (Z.eq_dec n 0) as [->|Hn0].
  { assert (a = 0) as -> by lia. assert (b = 0) as -> by lia. reflexivity. }
  destruct (Z.eq_dec (Z.lxor a b) 0) as [->|Hne]. { apply Z.pow_pos_nonneg; lia. }
  apply Z.log2_lt_pow2; [lia|].
  eapply Z.le_lt_trans; [apply Z.log2_lxor; lia|].
  apply Z.max_lub_lt.
  - destruct (Z.eq_dec a 0) as [->|]; [simpl; lia|]. apply Z.log2_lt_pow2; lia.
  - destruct (Z.eq_dec b 0) as [->|]; [simpl; lia|]. apply Z.log2_lt_pow2; lia.
Qed.

Lemma lxor_s32 a b : in_s32 a -> in_s32 b -> in_s32 (Z.lxor a b).
Proof.
  unfold in_s32. intros Ha Hb.
  destruct (Z.neg_nonneg_cases a) as [Han|Han], (Z.neg_nonneg_cases b) as [Hbn|Hbn].
  - rewrite <- (Z.lxor_lnot_lnot a b).
    pose proof (lxor_nonneg_bound (Z.lnot a) (Z.lnot b) 31) as H. unfold Z.lnot in *. lia.
  - rewrite <- (Z.lnot_involutive a), <- Z.lnot_lxor_l.
    pose proof (lxor_nonneg_bound (Z.lnot a) b 31) as H. unfold Z.lnot in *. lia.
  - rewrite <- (Z.lnot_involutive b), <- Z.lnot_lxor_r.
    pose proof (lxor_nonneg_bound a (Z.lnot b) 31) as H. unfold Z.lnot in *. lia.
  - pose proof (lxor_nonneg_bound a b 31) as H. lia.
Qed.

Lemma testbit_ToInt32 x i : i < 32 -> Z.testbit (ToInt32 x) i = Z.testbit (ToUint32 x) i.
Proof.
  intros Hi. rewrite <- (ToUint32_ToInt32 x), testbit_ToUint32.
  destruct (Z.ltb_spec i 32); [reflexivity|lia].
Qed.

Lemma ToUint32_idem x : ToUint32 (Num (ToUint32 x)) = ToUint32 x.
Proof. apply ToUint32_small, ToUint32_range. Qed.

Lemma ToUint32_bxor a b : ToUint32 (bxor a b) = Z.lxor (ToUint32 a) (ToUint32 b).
Proof.
  unfold bxor. apply Z.bits_inj'. intros i Hi.
  rewrite testbit_ToUint32, !Z.lxor_spec.
  rewrite <- (ToUint32_idem a), <- (ToUint32_idem b), !testbit_ToUint32.
  destruct (Z.ltb_spec i 32); simpl; [|reflexivity].
  now rewrite !testbit_ToInt32.
Qed.

Lemma ToInt32_ext x y : ToUint32 x = ToUint32 y -> ToInt32 x = ToInt32 y.
Proof. unfold ToInt32. now intros ->. Qed.

Lemma bxor_signed a b :
  bxor a b = Num (ToInt32 (Num (Z.lxor (ToUint32 a) (ToUint32 b)))).
Proof.
  rewrite <- (ToUint32_bxor a b).
  rewrite (ToInt32_ext (Num (ToUint32 (bxor a b))) (bxor a b)) by apply ToUint32_idem.
  unfold bxor. now rewrite ToInt32_small by (apply lxor_s32; apply ToInt32_range).
Qed.

Lemma land_255 z : Z.land z 255 = z mod 256.
Proof. change 255 with (Z.ones 8). now rewrite Z.land_ones. Qed.

Lemma band_255 x : band x 255 = Num (ToUint32 x mod 256).
Proof.
  unfold band. change (ToInt32 (Num 255)) with 255. rewrite land_255.
  f_equal. rewrite <- (ToUint32_ToInt32 x). simpl.
  change (2 ^ 32) with (256 * 16777216).
  rewrite Z.rem_mul_r by lia. rewrite Z.mul_comm, Z.mod_add by lia.
  now rewrite Z.mod_mod by lia.
Qed.



Lemma ToInt32_mod_pow2 x k : 0 <= k <= 32 -> ToInt32 x mod 2 ^ k = ToUint32 x mod 2 ^ k.
Proof.
  intros Hk. rewrite <- (ToUint32_ToInt32 x). simpl.
  replace (2 ^ 32) with (2 ^ k * 2 ^ (32 - k)) by (rewrite <- Z.pow_add_r by lia; f_equal; lia).
  assert (0 < 2 ^ k) by (apply Z.pow_pos_nonneg; lia).
  assert (0 < 2 ^ (32 - k)) by (apply Z.pow_pos_nonneg; lia).
  rewrite Z.rem_mul_r by lia. rewrite (Z.mul_comm (2 ^ k)), Z.mod_add by lia.
  now rewrite Z.mod_mod by lia.
Qed.

Lemma band_ones x k :
  0 <= k < 32 -> band x (Num (Z.ones k)) = Num (ToUint32 x mod 2 ^ k).
Proof.
  intros Hk. unfold band. f_equal.
  assert (Hs : in_s32 (Z.ones k)).
  { unfold in_s32. rewrite Z.ones_equiv.
    assert (0 < 2 ^ k) by (apply Z.pow_pos_nonneg; lia).
    assert (2 ^ k <= 2 ^ 31) by (apply Z.pow_le_mono_r; lia). lia. }
  rewrite (ToInt32_small _ Hs), Z.land_ones by lia.
  apply ToInt32_mod_pow2. lia.
Qed.

Lemma shl_small z k :
  0 <= k < 32 -> in_s32 z -> in_s32 (z * 2 ^ k) -> shl (Num z) (Num k) = Num (z * 2 ^ k).
Proof.
  intros Hk Hz Hzk. unfold shl, shift_count.
  rewrite (ToUint32_small k) by (unfold in_u32; lia).
  rewrite (Z.mod_small k) by lia.
  rewrite (ToInt32_small z Hz), Z.shiftl_mul_pow2 by lia.
  now rewrite ToInt32_small.
Qed.

Lemma ushr_val x k : 0 <= k < 32 -> ushr x (Num k) = Num (ToUint32 x / 2 ^ k).
Proof.
  intros Hk. unfold ushr, shift_count.
  rewrite (ToUint32_small k) by (unfold in_u32; lia).
  rewrite (Z.mod_small k) by lia. now rewrite Z.shiftr_div_pow2 by lia.
Qed.

Lemma shl_val x k :
  0 <= k < 32 -> shl x (Num k) = Num (ToInt32 (Num (ToInt32 x * 2 ^ k))).
Proof.
  intros Hk. unfold shl, shift_count.
  rewrite (ToUint32_small k) by (unfold in_u32; lia).
  rewrite (Z.mod_small k) by lia. now rewrite Z.shiftl_mul_pow2 by lia.
Qed.

(** ** CRC-32: the table-driven loop computes the bitwise standard *)
Import Crc32Standard.

Lemma bit_step_lxor x y : bit_step (Z.lxor x y) = Z.lxor (bit_step x) (bit_step y).
Proof.
  unfold bit_step. rewrite <- !Z.bit0_odd, Z.lxor_spec, Z.shiftr_lxor.
  destruct (Z.testbit x 0), (Z.testbit y 0); simpl.
  - rewrite Z.lxor_assoc, (Z.lxor_comm 3988292384), <- !Z.lxor_assoc.
    rewrite (Z.lxor_assoc _ 3988292384), Z.lxor_nilpotent, Z.lxor_0_r. reflexivity.
  - rewrite !Z.lxor_assoc. f_equal. apply Z.lxor_comm.
  - now rewrite Z.lxor_assoc.
  - reflexivity.
Qed.

Lemma iter_bit_step_lxor n x y :
  Nat.iter n bit_step (Z.lxor x y) = Z.lxor (Nat.iter n bit_step x) (Nat.iter n bit_step y).
Proof. induction n as [|n IH]; simpl; [reflexivity|]. now rewrite IH, bit_step_lxor. Qed.

Lemma iter_bit_step_shiftl n y :
  Nat.iter n bit_step (Z.shiftl y (Z.of_nat n)) = y.
Proof.
  induction n as [|n IH]. { simpl. apply Z.shiftl_0_r. }
  rewrite Nat.iter_succ_r. rewrite <- IH at 2. f_equal.
  unfold bit_step. rewrite <- Z.bit0_odd, Z.shiftl_spec_low by lia.
  rewrite Z.shiftr_shiftl_l by lia. f_equal. lia.
Qed.

Lemma split_low8 w : w = Z.lxor (Z.land w 255) (Z.shiftl (Z.shiftr w 8) 8).
Proof.
  apply Z.bits_inj'. intros i Hi.
  rewrite Z.lxor_spec, Z.land_spec. change 255 with (Z.ones 8).
  destruct (Z.ltb_spec i 8).
  - rewrite Z.ones_spec_low, Z.shiftl_spec_low by lia. now rewrite andb_true_r, xorb_false_r.
  - rewrite Z.ones_spec_high, Z.shiftl_spec, Z.shiftr_spec by lia.
    rewrite andb_false_r. simpl. f_equal. lia.
Qed.

Lemma byte_to_Z_range b : 0 <= byte_to_Z b < 256.
Proof. unfold byte_to_Z. pose proof (Byte.to_N_bounded b). lia. Qed.

Lemma byte_step_table u b :
  byte_step u b =
  Z.lxor (Nat.iter 8 bit_step (Z.land (Z.lxor u (byte_to_Z b)) 255)) (Z.shiftr u 8).
Proof.
  unfold byte_step. rewrite (split_low8 (Z.lxor u (byte_to_Z b))) at 1.
  rewrite iter_bit_step_lxor. f_equal.
  change 8 with (Z.of_nat 8) at 2. rewrite iter_bit_step_shiftl.
  rewrite Z.shiftr_lxor. pose proof (byte_to_Z_range b).
  rewrite (Z.shiftr_eq_0 (byte_to_Z b)); [apply Z.lxor_0_r|lia|].
  destruct (Z.eq_dec (byte_to_Z b) 0) as [->|]; [simpl; lia|].
  apply Z.log2_lt_pow2; simpl; lia.
Qed.

Lemma table_is_generated : Crc32.table = Crc32.table_gen.
Proof. vm_compute. reflexivity. Qed.


Lemma table_entries_ok : forallb table_entry_ok (seq 0 256) = true.
Proof. vm_compute. reflexivity. Qed.

Lemma table_get_spec z :
  0 <= z < 256 ->
  Crc32.table_get (Num z) = Num (Nat.iter 8 bit_step z) /\ in_u32 (Nat.iter 8 bit_step z).
Proof.
  intros Hz. pose proof table_entries_ok as H.
  rewrite forallb_forall in H. specialize (H (Z.to_nat z)).
  unfold table_entry_ok in H. unfold Crc32.table_get.
  destruct (Z.ltb_spec z 0); [lia|].
  destruct (Crc32.table !! Z.to_nat z) as [v|].
  - rewrite Z2Nat.id in H by lia.
    assert (Hin : In (Z.to_nat z) (seq 0 256)) by (apply in_seq; lia).
    apply H in Hin. apply andb_prop in Hin as [Hin Hlt]. apply andb_prop in Hin as [Heq Hge].
    apply Z.eqb_eq in Heq. subst v. unfold in_u32. split; [reflexivity|lia].
  - assert (Hin : In (Z.to_nat z) (seq 0 256)) by (apply in_seq; lia).
    apply H in Hin. discriminate.
Qed.

Lemma update_spec c b :
  ToUint32 (Crc32.update c b) = byte_step (ToUint32 c) b.
Proof.
  unfold Crc32.update. rewrite byte_step_table, ToUint32_bxor.
  pose proof (byte_to_Z_range b) as Hb.
  rewrite band_255, ToUint32_bxor, (ToUint32_small (byte_to_Z b)) by (unfold in_u32; lia).
  rewrite <- land_255.
  destruct (table_get_spec (Z.land (Z.lxor (ToUint32 c) (byte_to_Z b)) 255)) as [-> Hr].
  { rewrite land_255. apply Z.mod_pos_bound. lia. }
  rewrite (ToUint32_small _ Hr). f_equal.
  unfold ushr. change (shift_count (Num 8)) with 8.
  apply ToUint32_small. pose proof (ToUint32_range c) as Hc. unfold in_u32 in *.
  rewrite Z.shiftr_div_pow2 by lia. split.
  - apply Z.div_pos; lia.
  - apply Z.div_lt_upper_bound; lia.
Qed.

Lemma fold_update_spec bytes c :
  ToUint32 (fold_left Crc32.update bytes c) = fold_left byte_step bytes (ToUint32 c).
Proof.
  revert c. induction bytes as [|b bytes IH]; intros c; simpl; [reflexivity|].
  now rewrite IH, update_spec.
Qed.

Theorem calc_unsigned bytes : ToUint32 (Crc32.calc bytes) = crc32 bytes.
Proof.
  unfold Crc32.calc, crc32. rewrite ToUint32_bxor, fold_update_spec. reflexivity.
Qed.

Theorem calc_signed bytes : Crc32.calc bytes = Num (ToInt32 (Num (crc32 bytes))).
Proof.
  unfold Crc32.calc, crc32. rewrite bxor_signed, fold_update_spec. reflexivity.
Qed.

(** C7 (as the code has it). [calc] returns the standard reflected CRC-32
    (polynomial 0xEDB88320, initial value and final exclusive-or
    0xFFFFFFFF) as a signed 32-bit integer: its value is the two's
    complement reading of the standard checksum, its unsigned reading is
    the standard checksum, and the result for the empty sequence is 0. *)
Theorem calc_is_signed_standard_crc32 (bytes : Uint8Array) :
  Crc32.calc bytes = Num (ToInt32 (Num (crc32 bytes)))
  /\ ToUint32 (Crc32.calc bytes) = crc32 bytes
  /\ in_u32 (crc32 bytes)
  /\ Crc32.calc [] = Num 0.
Proof.
  split; [apply calc_signed|]. split; [apply calc_unsigned|]. split.
  - rewrite <- calc_unsigned. apply ToUint32_range.
  - reflexivity.
Qed.

(** C7 as stated fails: for the one-byte input "a" the standard checksum
    is 0xE8B7BE43 and [calc] returns the negative number -390611389, which
    is no unsigned 32-bit integer. *)
Lemma calc_not_unsigned :
  crc32 ["a"%byte] = 3904355907
  /\ Crc32.calc ["a"%byte] = Num (-390611389)
  /\ Crc32.calc ["a"%byte] <> Num (crc32 ["a"%byte]).
Proof. split; [reflexivity|]. split; [reflexivity|]. vm_compute. discriminate. Qed.
(** ** Timestamps *)

Lemma ToUint32_toInt y mo d h mi s :
  in_dos_range y mo d h mi s ->
  ToUint32 (ZipDateTime.toInt (ZipDateTime.mk y mo d h mi s)) = packed y mo d h mi s.
Proof.
  intros (Hy & Hmo & Hd & Hh & Hmi & Hs).
  unfold ZipDateTime.toInt.
  cbn [ZipDateTime.year ZipDateTime.month ZipDateTime.day ZipDateTime.hour
       ZipDateTime.minute ZipDateTime.second sub floor_div].
  rewrite (shl_val (Num (y - 1980))) by lia.
  rewrite (shl_small mo 21), (shl_small d 16), (shl_small h 11), (shl_small mi 5)
    by (unfold in_s32; lia).
  rewrite (ToInt32_small (y - 1980)) by (unfold in_s32; lia).
  cbn [add ToUint32]. unfold packed.
  set (a := (y - 1980) * 2 ^ 25).
  assert (Ha : 0 <= a < 2 ^ 32) by (unfold a; lia).
  assert (Hmod : ToInt32 (Num a) mod 2 ^ 32 = a).
  { rewrite ToInt32_mod_pow2 by lia. rewrite ToUint32_small by exact Ha. apply Z.mod_small; lia. }
  assert (Hs2 : 0 <= s / 2 < 32) by (split; [apply Z.div_pos | apply Z.div_lt_upper_bound]; lia).
  rewrite <- !Z.add_assoc. rewrite Z.add_mod by lia. rewrite Hmod.
  rewrite Z.add_mod_idemp_r by lia. apply Z.mod_small. unfold a. lia.
Qed.

Lemma fromInt_packed i y mo d h mi s :
  in_dos_range y mo d h mi s ->
  ToUint32 i = packed y mo d h mi s ->
  ZipDateTime.fromInt i = ZipDateTime.mk y mo d h mi (2 * (s / 2)).
Proof.
  intros (Hy & Hmo & Hd & Hh & Hmi & Hs) Hi.
  assert (Hs2 : 0 <= s / 2 < 32) by (split; [apply Z.div_pos | apply Z.div_lt_upper_bound]; lia).
  unfold ZipDateTime.fromInt.
  rewrite !ushr_val by lia.
  change (Num 15) with (Num (Z.ones 4)). change (Num 31) with (Num (Z.ones 5)).
  change (Num 63) with (Num (Z.ones 6)).
  rewrite !band_ones by lia. rewrite Hi.
  set (P := packed y mo d h mi s).
  assert (HP : P = (y - 1980) * 2 ^ 25 + mo * 2 ^ 21 + d * 2 ^ 16 + h * 2 ^ 11 + mi * 2 ^ 5 + s / 2) by reflexivity.
  clearbody P. set (q := s / 2) in *. clearbody q.
  assert (H25 : P / 2 ^ 25 = y - 1980) by (symmetry; apply Z.div_unique_pos with (r := P - (y - 1980) * 2 ^ 25); lia).
  assert (H21 : P / 2 ^ 21 = (y - 1980) * 16 + mo)
    by (symmetry; apply Z.div_unique_pos with (r := P - ((y - 1980) * 16 + mo) * 2 ^ 21); lia).
  assert (H16 : P / 2 ^ 16 = ((y - 1980) * 16 + mo) * 32 + d)
    by (symmetry; apply Z.div_unique_pos with (r := P - (((y - 1980) * 16 + mo) * 32 + d) * 2 ^ 16); lia).
  assert (H11 : P / 2 ^ 11 = (((y - 1980) * 16 + mo) * 32 + d) * 32 + h)
    by (symmetry; apply Z.div_unique_pos with (r := P - ((((y - 1980) * 16 + mo) * 32 + d) * 32 + h) * 2 ^ 11); lia).
  assert (H5 : P / 2 ^ 5 = ((((y - 1980) * 16 + mo) * 32 + d) * 32 + h) * 64 + mi)
    by (symmetry; apply Z.div_unique_pos with (r := q); lia).
  rewrite H25, H21, H16, H11, H5.
  rewrite !ToUint32_small by (unfold in_u32; lia).
  simpl add. simpl mul.
  f_equal; f_equal; try lia.
  - symmetry. apply Z.mod_unique_pos with (q := (y - 1980)); lia.
  - symmetry. apply Z.mod_unique_pos with (q := (y - 1980) * 16 + mo); lia.
  - symmetry. apply Z.mod_unique_pos with (q := ((y - 1980) * 16 + mo) * 32 + d); lia.
  - symmetry. apply Z.mod_unique_pos with (q := (((y - 1980) * 16 + mo) * 32 + d) * 32 + h); lia.
  - assert (P mod 2 ^ 5 = q) by (symmetry; apply Z.mod_unique_pos with (q := ((((y - 1980) * 16 + mo) * 32 + d) * 32 + h) * 64 + mi); lia).
    lia.
Qed.

(** C4 (as the code has it). For a timestamp whose fields fit the packed
    layout (year 1980..2107, month 0..15, day 0..31, hour 0..31, minute
    0..63): with even seconds in [0,58] the round trip through [toInt] and
    [fromInt] gives back every field; with odd seconds in [1,59] it gives
    back the same timestamp with the seconds reduced by exactly 1. *)
Theorem fromInt_toInt (y mo d h mi s : Z) :
  1980 <= y <= 2107 -> 0 <= mo <= 15 -> 0 <= d <= 31 -> 0 <= h <= 31 ->
  0 <= mi <= 63 -> 0 <= s <= 59 ->
  let t := ZipDateTime.mk y mo d h mi s in
  let t' := ZipDateTime.fromInt (ZipDateTime.toInt t) in
  (Z.even s = true -> t' = t)
  /\ (Z.odd s = true -> t' = ZipDateTime.mk y mo d h mi (s - 1)).
Proof.
  intros Hy Hmo Hd Hh Hmi Hs t t'.
  assert (Hr : in_dos_range y mo d h mi s) by (unfold in_dos_range; lia).
  assert (Ht : t' = ZipDateTime.mk y mo d h mi (2 * (s / 2))).
  { apply fromInt_packed; [exact Hr|]. now apply ToUint32_toInt. }
  split; intros Hp; rewrite Ht; unfold t; do 2 f_equal.
  - rewrite <- Z.negb_odd in Hp. apply negb_true_iff in Hp.
    pose proof (Z.div_mod s 2). rewrite Zmod_odd, Hp in *. lia.
  - pose proof (Z.div_mod s 2). rewrite Zmod_odd, Hp in *. lia.
Qed.

Lemma fromInt_toInt_witness :
  ZipDateTime.fromInt (ZipDateTime.toInt (ZipDateTime.mk 2024 5 17 13 45 30))
  = ZipDateTime.mk 2024 5 17 13 45 30
  /\ ZipDateTime.fromInt (ZipDateTime.toInt (ZipDateTime.mk 2024 5 17 13 45 31))
     = ZipDateTime.mk 2024 5 17 13 45 (31 - 1).
Proof.
  split.
  - apply (fromInt_toInt 2024 5 17 13 45 30); try lia. reflexivity.
  - apply (fromInt_toInt 2024 5 17 13 45 31); try lia. reflexivity.
Defined.

(** C4 as stated fails outside the years the seven-bit offset can hold: a
    file last modified on 1970-01-01 00:00:00 has even seconds in [0,58]
    and comes back from the round trip dated 2098. *)
Lemma fromInt_toInt_year_1970 :
  ZipDateTime.fromInt (ZipDateTime.toInt (ZipDateTime.mk 1970 1 1 0 0 0))
  = ZipDateTime.mk 2098 1 1 0 0 0
  /\ ZipDateTime.fromInt (ZipDateTime.toInt (ZipDateTime.mk 1970 1 1 0 0 0))
     <> ZipDateTime.mk 1970 1 1 0 0 0.
Proof. split; [reflexivity|]. vm_compute. discriminate. Qed.
(** ** The cursor on a split buffer, and the record codecs *)
Import ByteArrayCursor ByteArrayCursor.Notations.


Lemma bind_ok {A B} (m : M A) (k : A -> M B) s a s' :
  m s = Ok (a, s') -> bind m k s = k a s'.
Proof. unfold bind. now intros ->. Qed.

Lemma bind_err {A B} (m : M A) (k : A -> M B) s e :
  m s = Err e -> bind m k s = Err e.
Proof. unfold bind. now intros ->. Qed.

Lemma len_app {A} (l1 l2 : list A) : len (l1 ++ l2) = len l1 + len l2.
Proof. unfold len. rewrite length_app. lia. Qed.

Lemma len_nonneg {A} (l : list A) : 0 <= len l.
Proof. unfold len. lia. Qed.

Lemma len_cons {A} (x : A) l : len (x :: l) = 1 + len l.
Proof. unfold len. simpl length. lia. Qed.

Lemma at_split_snoc pre x rest :
  {| bytes := pre ++ x :: rest; offset := len pre + 1 |} = at_split (pre ++ [x]) rest.
Proof.
  unfold at_split. rewrite <- app_assoc, len_app. reflexivity.
Qed.

Lemma post_increment_split pre x rest :
  post_increment (at_split pre (x :: rest))
  = Ok (len pre, {| bytes := pre ++ x :: rest; offset := len pre + 1 |}).
Proof.
  unfold post_increment, bind, get_offset, set_offset, ret, at_split. cbn [bytes offset add le].
  rewrite len_app, len_cons.
  destruct (Z.leb_spec (len pre + 1) (len pre + (1 + len rest))) as [_|H].
  - reflexivity.
  - pose proof (len_nonneg rest). lia.
Qed.

Lemma get_middle pre x rest :
  TypedArray.get (pre ++ x :: rest) (len pre) = Num (byte_to_Z x).
Proof.
  unfold TypedArray.get, len.
  destruct (Z.ltb_spec (Z.of_nat (length pre)) 0); [lia|].
  rewrite Nat2Z.id. now rewrite list_lookup_middle.
Qed.

Lemma put_middle pre x rest v :
  TypedArray.put (pre ++ x :: rest) (len pre) v = pre ++ ToUint8 v :: rest.
Proof.
  unfold TypedArray.put, len.
  destruct (Z.ltb_spec (Z.of_nat (length pre)) 0); [lia|].
  rewrite Nat2Z.id. now rewrite insert_app_r_alt, Nat.sub_diag by lia.
Qed.

Lemma read_split pre x rest :
  read (at_split pre (x :: rest)) = Ok (Num (byte_to_Z x), at_split (pre ++ [x]) rest).
Proof.
  unfold read. rewrite (bind_ok _ _ _ _ _ (post_increment_split pre x rest)).
  unfold bind, get_bytes, ret. cbn [bytes]. now rewrite get_middle, at_split_snoc.
Qed.

Lemma write_split v pre x rest :
  write v (at_split pre (x :: rest)) = Ok (tt, at_split (pre ++ [ToUint8 v]) rest).
Proof.
  unfold write. rewrite (bind_ok _ _ _ _ _ (post_increment_split pre x rest)).
  unfold bind, get_bytes, set_bytes. cbn [bytes offset]. now rewrite put_middle, at_split_snoc.
Qed.

Lemma writeUshort_split v pre x0 x1 rest :
  writeUshort v (at_split pre (x0 :: x1 :: rest)) = Ok (tt, at_split (pre ++ u16le v) rest).
Proof.
  unfold writeUshort.
  rewrite (bind_ok _ _ _ _ _ (write_split _ _ _ _)), write_split.
  now rewrite <- app_assoc.
Qed.

Lemma writeInt_split v pre x0 x1 x2 x3 rest :
  writeInt v (at_split pre (x0 :: x1 :: x2 :: x3 :: rest))
  = Ok (tt, at_split (pre ++ u32le v) rest).
Proof.
  unfold writeInt.
  rewrite !(bind_ok _ _ _ _ _ (write_split _ _ _ _)), write_split.
  now rewrite <- !app_assoc.
Qed.

Lemma shl_byte b k :
  0 <= k <= 16 -> shl (Num (byte_to_Z b)) (Num k) = Num (byte_to_Z b * 2 ^ k).
Proof.
  intros Hk. pose proof (byte_to_Z_range b).
  assert (0 < 2 ^ k <= 2 ^ 16) by (split; [apply Z.pow_pos_nonneg | apply Z.pow_le_mono_r]; lia).
  apply shl_small; unfold in_s32; [lia| lia | nia].
Qed.

Lemma readAsUshort_split pre x0 x1 rest :
  readAsUshort (at_split pre (x0 :: x1 :: rest))
  = Ok (Num (u16_of x0 x1), at_split (pre ++ [x0; x1]) rest).
Proof.
  unfold readAsUshort.
  rewrite !(bind_ok _ _ _ _ _ (read_split _ _ _)). unfold ret.
  rewrite shl_byte by lia. rewrite <- app_assoc. reflexivity.
Qed.

Lemma u32_of_range b0 b1 b2 b3 : in_u32 (u32_of b0 b1 b2 b3).
Proof.
  unfold in_u32, u32_of.
  pose proof (byte_to_Z_range b0). pose proof (byte_to_Z_range b1).
  pose proof (byte_to_Z_range b2). pose proof (byte_to_Z_range b3). lia.
Qed.

Lemma u16_of_range b0 b1 : 0 <= u16_of b0 b1 < 2 ^ 16.
Proof.
  unfold u16_of. pose proof (byte_to_Z_range b0). pose proof (byte_to_Z_range b1). lia.
Qed.

Lemma int_of_bytes b0 b1 b2 b3 :
  add (add (add (Num (byte_to_Z b0)) (shl (Num (byte_to_Z b1)) 8))
           (shl (Num (byte_to_Z b2)) 16))
      (shl (Num (byte_to_Z b3)) 24)
  = Num (s32_of b0 b1 b2 b3).
Proof.
  rewrite !shl_byte by lia. rewrite shl_val by lia.
  pose proof (byte_to_Z_range b0). pose proof (byte_to_Z_range b1).
  pose proof (byte_to_Z_range b2). pose proof (byte_to_Z_range b3).
  rewrite (ToInt32_small (byte_to_Z b3)) by (unfold in_s32; lia).
  cbn [add]. unfold s32_of.
  set (lo := byte_to_Z b0 + byte_to_Z b1 * 2 ^ 8 + byte_to_Z b2 * 2 ^ 16).
  replace (u32_of b0 b1 b2 b3) with (lo + byte_to_Z b3 * 2 ^ 24) by reflexivity.
  assert (Hlo : 0 <= lo < 2 ^ 24) by (unfold lo; lia).
  assert (Hhi : 0 <= byte_to_Z b3 * 2 ^ 24 < 2 ^ 32) by lia.
  unfold ToInt32. cbn [ToUint32]. rewrite !Z.mod_small by lia.
  clearbody lo. change (2 ^ 24) with 16777216 in *.
  change (2 ^ 31) with 2147483648 in *. change (2 ^ 32) with 4294967296 in *.
  destruct (Z.ltb_spec (byte_to_Z b3 * 16777216) 2147483648),
    (Z.ltb_spec (lo + byte_to_Z b3 * 16777216) 2147483648); f_equal; lia.
Qed.

Lemma readAsInt_split pre x0 x1 x2 x3 rest :
  readAsInt (at_split pre (x0 :: x1 :: x2 :: x3 :: rest))
  = Ok (Num (s32_of x0 x1 x2 x3), at_split (pre ++ [x0; x1; x2; x3]) rest).
Proof.
  unfold readAsInt.
  rewrite !(bind_ok _ _ _ _ _ (read_split _ _ _)). unfold ret.
  rewrite int_of_bytes, <- !app_assoc. reflexivity.
Qed.

Lemma readAsUint_split pre x0 x1 x2 x3 rest :
  readAsUint (at_split pre (x0 :: x1 :: x2 :: x3 :: rest))
  = Ok (Num (u32_of x0 x1 x2 x3), at_split (pre ++ [x0; x1; x2; x3]) rest).
Proof.
  unfold readAsUint. rewrite (bind_ok _ _ _ _ _ (readAsInt_split _ _ _ _ _ _)).
  unfold ret. rewrite ushr_val by lia. unfold s32_of.
  rewrite ToUint32_ToInt32, Z.div_1_r.
  now rewrite (ToUint32_small _ (u32_of_range _ _ _ _)).
Qed.

Lemma byte_to_Z_ToUint8 x : byte_to_Z (ToUint8 x) = ToUint32 x mod 256.
Proof.
  unfold ToUint8, byte_to_Z.
  assert (Hr : 0 <= ToUint32 x mod 256 < 256) by (apply Z.mod_pos_bound; lia).
  destruct (Byte.of_N (Z.to_N (ToUint32 x mod 256))) as [b|] eqn:E.
  - apply Byte.to_of_N in E. rewrite E. lia.
  - apply Byte.of_N_None_iff in E. lia.
Qed.

Lemma ToUint8_byte_to_Z b : ToUint8 (Num (byte_to_Z b)) = b.
Proof.
  unfold ToUint8, byte_to_Z. pose proof (Byte.to_N_bounded b).
  cbn [ToUint32]. rewrite (Z.mod_small _ (2 ^ 32)) by lia.
  rewrite (Z.mod_small _ 256) by lia. rewrite N2Z.id.
  now rewrite Byte.of_to_N.
Qed.

Lemma byte_of_band x : byte_to_Z (ToUint8 (band x 255)) = ToUint32 x mod 256.
Proof.
  rewrite band_255, byte_to_Z_ToUint8.
  assert (0 <= ToUint32 x mod 256 < 256) by (apply Z.mod_pos_bound; lia).
  rewrite ToUint32_small by (unfold in_u32; lia). apply Z.mod_mod. lia.
Qed.

Lemma byte_of_band_ushr x k :
  0 <= k < 32 -> byte_to_Z (ToUint8 (band (ushr x k) 255)) = (ToUint32 x / 2 ^ k) mod 256.
Proof.
  intros Hk. rewrite byte_of_band, ushr_val by lia. f_equal.
  apply ToUint32_small. pose proof (ToUint32_range x) as Hx. unfold in_u32 in *.
  assert (0 < 2 ^ k) by (apply Z.pow_pos_nonneg; lia).
  split; [apply Z.div_pos; lia|].
  apply Z.div_lt_upper_bound; [lia|]. nia.
Qed.

Lemma u16_of_le x :
  u16_of (ToUint8 (band x 0xff)) (ToUint8 (band (ushr x 8) 0xff)) = ToUint32 x mod 2 ^ 16.
Proof.
  unfold u16_of. rewrite byte_of_band, byte_of_band_ushr by lia.
  pose proof (ToUint32_range x) as Hx. unfold in_u32 in Hx.
  set (u := ToUint32 x) in *. clearbody u.
  change (2 ^ 8) with 256. change (2 ^ 16) with 65536. change (2 ^ 32) with 4294967296 in Hx.
  pose proof (Z.div_mod u 256). pose proof (Z.mod_pos_bound u 256).
  pose proof (Z.div_mod (u / 256) 256). pose proof (Z.mod_pos_bound (u / 256) 256).
  apply Z.mod_unique_pos with (q := u / 256 / 256); lia.
Qed.

Lemma u32_of_le x :
  u32_of (ToUint8 (band x 0xff)) (ToUint8 (band (ushr x 8) 0xff))
         (ToUint8 (band (ushr x 16) 0xff)) (ToUint8 (band (ushr x 24) 0xff))
  = ToUint32 x.
Proof.
  unfold u32_of. rewrite byte_of_band, !byte_of_band_ushr by lia.
  pose proof (ToUint32_range x) as Hx. unfold in_u32 in Hx.
  set (u := ToUint32 x) in *. clearbody u.
  change (2 ^ 8) with 256. change (2 ^ 16) with 65536. change (2 ^ 24) with 16777216.
  change (2 ^ 32) with 4294967296 in Hx.
  pose proof (Z.div_mod u 256). pose proof (Z.mod_pos_bound u 256).
  pose proof (Z.div_mod u 65536). pose proof (Z.mod_pos_bound u 65536).
  pose proof (Z.div_mod u 16777216). pose proof (Z.mod_pos_bound u 16777216).
  pose proof (Z.div_mod (u / 256) 256). pose proof (Z.mod_pos_bound (u / 256) 256).
  pose proof (Z.div_mod (u / 65536) 256). pose proof (Z.mod_pos_bound (u / 65536) 256).
  pose proof (Z.div_mod (u / 16777216) 256). pose proof (Z.mod_pos_bound (u / 16777216) 256).
  assert (u / 65536 = u / 256 / 256) by (rewrite Z.div_div by lia; reflexivity).
  assert (u / 16777216 = u / 65536 / 256) by (rewrite Z.div_div by lia; reflexivity).
  assert (u / 16777216 < 256) by (apply Z.div_lt_upper_bound; lia).
  assert (0 <= u / 16777216) by (apply Z.div_pos; lia).
  rewrite (Z.mod_small (u / 16777216) 256) by lia.
  lia.
Qed.

Lemma to_nat_len {A} (l : list A) : Z.to_nat (len l) = length l.
Proof. unfold len. apply Nat2Z.id. Qed.

Lemma take_drop_app3 {A} (pre mid rest : list A) :
  take (length mid) (drop (length pre) (pre ++ mid ++ rest)) = mid.
Proof. now rewrite drop_app_length, take_app_length. Qed.

Lemma subarray_split (n : Z) pre mid rest :
  len mid = n ->
  subarray (Num n) (at_split pre (mid ++ rest)) = Ok (mid, at_split (pre ++ mid) rest).
Proof.
  intros <-. unfold subarray, bind, get_offset, get_bytes, set_offset, ret, at_split.
  cbn [bytes offset add le ToInteger].
  pose proof (len_nonneg pre). pose proof (len_nonneg mid). pose proof (len_nonneg rest).
  rewrite !len_app.
  destruct (Z.leb_spec (len pre + len mid) (len pre + (len mid + len rest))); [|lia].
  rewrite <- app_assoc. do 2 f_equal.
  unfold TypedArray.subarray, relative_index. cbn [ToInteger]. rewrite !len_app.
  destruct (Z.ltb_spec (len pre) 0); [lia|].
  destruct (Z.ltb_spec (len pre + len mid) 0); [lia|].
  rewrite !Z.min_l, Z.max_l by lia.
  replace (len pre + len mid - len pre) with (len mid) by lia.
  rewrite !to_nat_len. apply take_drop_app3.
Qed.

Lemma set_split src pre mid rest :
  length mid = length src ->
  set src (at_split pre (mid ++ rest)) = Ok (tt, at_split (pre ++ src) rest).
Proof.
  intros Hl. unfold set, bind, get_offset, get_bytes, at_split. cbn [bytes offset add lt].
  pose proof (len_nonneg pre). pose proof (len_nonneg mid). pose proof (len_nonneg rest).
  assert (Hls : len mid = len src) by (unfold len; lia).
  rewrite !len_app.
  destruct (Z.ltb_spec (len pre + (len mid + len rest)) (len src + len pre)); [lia|].
  unfold TypedArray.set. rewrite !len_app.
  destruct (Z.ltb_spec (len pre) 0); [lia|].
  destruct (Z.ltb_spec (len pre + (len mid + len rest)) (len pre + len src)); [lia|].
  cbn [orb]. unfold set_bytes, set_offset. cbn [bytes offset le ToInteger].
  rewrite to_nat_len, take_app_length.
  replace (Z.to_nat (len pre + len src)) with (length pre + length mid)%nat by (unfold len; lia).
  rewrite drop_app_add', drop_app_length by reflexivity.
  rewrite !len_app.
  destruct (Z.leb_spec (len src + len pre) (len pre + (len src + len rest))); [|lia].
  rewrite <- app_assoc. do 3 f_equal. lia.
Qed.

Lemma moveTo_split pre rest o :
  moveTo (Num (len pre)) {| bytes := pre ++ rest; offset := o |} = Ok (tt, at_split pre rest).
Proof.
  unfold moveTo, set_offset, at_split. cbn [bytes le ToInteger]. rewrite len_app.
  pose proof (len_nonneg rest).
  destruct (Z.leb_spec (len pre) (len pre + len rest)); [reflexivity|lia].
Qed.

Lemma serialize_ok n m out :
  m (at_split [] (TypedArray.new n)) = Ok (tt, at_split out []) -> serialize n m = Ok out.
Proof.
  intros H. unfold serialize.
  change (ByteArrayCursor.new (TypedArray.new n)) with (at_split [] (TypedArray.new n)).
  rewrite H. unfold at_split. cbn [bytes]. now rewrite app_nil_r.
Qed.

Lemma new_add3 (k : nat) (a b : Uint8Array) :
  TypedArray.new (Z.of_nat k + len a + len b)
  = replicate k x00 ++ replicate (length a) x00 ++ replicate (length b) x00.
Proof.
  unfold TypedArray.new, len.
  replace (Z.to_nat (Z.of_nat k + Z.of_nat (length a) + Z.of_nat (length b)))
    with (k + (length a + length b))%nat by lia.
  now rewrite !replicate_add.
Qed.

Ltac step_with lem := erewrite bind_ok by (apply lem).
Ltac write_steps :=
  repeat first
    [ step_with writeInt_split
    | step_with writeUshort_split
    | erewrite bind_ok by (apply set_split; apply length_replicate) ].

Lemma LocalFileHeader_toBytes_layout r :
  LocalFileHeader.toBytes r = Ok (Layout.localFileHeader r).
Proof.
  unfold LocalFileHeader.toBytes. apply serialize_ok.
  change 30 with (Z.of_nat 30). rewrite new_add3. cbn [replicate app].
  write_steps.
  rewrite <- (app_nil_r (replicate (length (LocalFileHeader.extraFieldBytes r)) x00)).
  erewrite set_split by apply length_replicate.
  unfold Layout.localFileHeader. now rewrite <- !app_assoc.
Qed.

Ltac read_steps :=
  repeat first
    [ step_with readAsUint_split
    | step_with readAsUshort_split ].

Lemma u16_len {A} (l : list A) : len l < 2 ^ 16 -> ToUint32 (Num (len l)) mod 2 ^ 16 = len l.
Proof.
  intros H. pose proof (len_nonneg l).
  rewrite ToUint32_small by (unfold in_u32; lia). apply Z.mod_small. lia.
Qed.

Lemma LocalFileHeader_from_layout pre r tail :
  len (LocalFileHeader.fileNameBytes r) < 2 ^ 16 ->
  len (LocalFileHeader.extraFieldBytes r) < 2 ^ 16 ->
  LocalFileHeader.from (at_split pre (Layout.localFileHeader r ++ tail))
  = Ok (Parsed.localFileHeader r, at_split (pre ++ Layout.localFileHeader r) tail).
Proof.
  intros Hfn Hef. unfold LocalFileHeader.from, Layout.localFileHeader.
  rewrite <- !app_assoc. unfold u32le, u16le. cbn [app].
  read_steps. rewrite !u32_of_le, !u16_of_le, !u16_len by assumption.
  erewrite bind_ok by (apply subarray_split; reflexivity).
  erewrite bind_ok by (apply subarray_split; reflexivity).
  unfold ret, Parsed.localFileHeader, u16, u32. rewrite <- !app_assoc. reflexivity.
Qed.

Lemma new_add4 (k : nat) (a b c : Uint8Array) :
  TypedArray.new (Z.of_nat k + len a + len b + len c)
  = replicate k x00 ++ replicate (length a) x00 ++ replicate (length b) x00
    ++ replicate (length c) x00.
Proof.
  unfold TypedArray.new, len.
  replace (Z.to_nat (Z.of_nat k + Z.of_nat (length a) + Z.of_nat (length b) + Z.of_nat (length c)))
    with (k + (length a + (length b + length c)))%nat by lia.
  now rewrite !replicate_add.
Qed.

Lemma new_add2 (k : nat) (a : Uint8Array) :
  TypedArray.new (Z.of_nat k + len a) = replicate k x00 ++ replicate (length a) x00.
Proof.
  unfold TypedArray.new, len.
  replace (Z.to_nat (Z.of_nat k + Z.of_nat (length a))) with (k + length a)%nat by lia.
  now rewrite !replicate_add.
Qed.

Lemma CentralDirectoryEntry_toBytes_layout r :
  CentralDirectoryEntry.toBytes r = Ok (Layout.centralDirectoryEntry r).
Proof.
  unfold CentralDirectoryEntry.toBytes. apply serialize_ok.
  change 46 with (Z.of_nat 46). rewrite new_add4. cbn [replicate app].
  write_steps.
  rewrite <- (app_nil_r (replicate (length (CentralDirectoryEntry.commentBytes r)) x00)).
  erewrite set_split by apply length_replicate.
  unfold Layout.centralDirectoryEntry. now rewrite <- !app_assoc.
Qed.

Lemma EndOfCentralDirectoryRecord_toBytes_layout r :
  EndOfCentralDirectoryRecord.toBytes r = Ok (Layout.endOfCentralDirectoryRecord r).
Proof.
  unfold EndOfCentralDirectoryRecord.toBytes. apply serialize_ok.
  change 22 with (Z.of_nat 22). rewrite new_add2. cbn [replicate app].
  write_steps.
  rewrite <- (app_nil_r (replicate (length (EndOfCentralDirectoryRecord.commentBytes r)) x00)).
  erewrite set_split by apply length_replicate.
  unfold Layout.endOfCentralDirectoryRecord. now rewrite <- !app_assoc.
Qed.

Lemma CentralDirectoryEntry_from_layout pre r tail :
  len (LocalFileHeader.fileNameBytes (CentralDirectoryEntry.base r)) < 2 ^ 16 ->
  len (LocalFileHeader.extraFieldBytes (CentralDirectoryEntry.base r)) < 2 ^ 16 ->
  len (CentralDirectoryEntry.commentBytes r) < 2 ^ 16 ->
  CentralDirectoryEntry.from (at_split pre (Layout.centralDirectoryEntry r ++ tail))
  = Ok (Parsed.centralDirectoryEntry r, at_split (pre ++ Layout.centralDirectoryEntry r) tail).
Proof.
  intros Hfn Hef Hc. unfold CentralDirectoryEntry.from, Layout.centralDirectoryEntry.
  cbv zeta. rewrite <- !app_assoc. unfold u32le, u16le. cbn [app].
  read_steps. rewrite !u32_of_le, !u16_of_le, !u16_len by assumption.
  do 3 (erewrite bind_ok by (apply subarray_split; reflexivity)).
  unfold ret, Parsed.centralDirectoryEntry, Parsed.localFileHeader, u16, u32.
  rewrite <- !app_assoc. reflexivity.
Qed.

Lemma EndOfCentralDirectoryRecord_from_layout pre r tail :
  len (EndOfCentralDirectoryRecord.commentBytes r) < 2 ^ 16 ->
  EndOfCentralDirectoryRecord.from (at_split pre (Layout.endOfCentralDirectoryRecord r ++ tail))
  = Ok (Parsed.endOfCentralDirectoryRecord r,
        at_split (pre ++ Layout.endOfCentralDirectoryRecord r) tail).
Proof.
  intros Hc. unfold EndOfCentralDirectoryRecord.from, Layout.endOfCentralDirectoryRecord.
  rewrite <- !app_assoc. unfold u32le, u16le. cbn [app].
  read_steps. rewrite !u32_of_le, !u16_of_le, !u16_len by assumption.
  erewrite bind_ok by (apply subarray_split; reflexivity).
  unfold ret, Parsed.endOfCentralDirectoryRecord, u16, u32.
  rewrite <- !app_assoc. reflexivity.
Qed.

(** ** Round trip of the three record codecs *)

Lemma u16_id x : is_u16 x -> u16 x = x.
Proof.
  destruct x as [z|]; [|contradiction]. unfold is_u16, u16. intros H.
  rewrite ToUint32_small by (unfold in_u32; lia). now rewrite Z.mod_small by lia.
Qed.

Lemma u32_id x : is_u32 x -> u32 x = x.
Proof.
  destruct x as [z|]; [|contradiction]. unfold is_u32, u32. intros H.
  now rewrite ToUint32_small by exact H.
Qed.


Lemma len_u16le x : len (u16le x) = 2.
Proof. reflexivity. Qed.

Lemma len_u32le x : len (u32le x) = 4.
Proof. reflexivity. Qed.

Lemma len_layout_localFileHeader r :
  len (Layout.localFileHeader r)
  = 30 + len (LocalFileHeader.fileNameBytes r) + len (LocalFileHeader.extraFieldBytes r).
Proof.
  unfold Layout.localFileHeader. rewrite !len_app, !len_u16le, !len_u32le. lia.
Qed.

Lemma len_layout_centralDirectoryEntry r :
  len (Layout.centralDirectoryEntry r)
  = 46 + len (LocalFileHeader.fileNameBytes (CentralDirectoryEntry.base r))
    + len (LocalFileHeader.extraFieldBytes (CentralDirectoryEntry.base r))
    + len (CentralDirectoryEntry.commentBytes r).
Proof.
  unfold Layout.centralDirectoryEntry. cbv zeta.
  rewrite !len_app, !len_u16le, !len_u32le. lia.
Qed.

Lemma len_layout_endOfCentralDirectoryRecord r :
  len (Layout.endOfCentralDirectoryRecord r)
  = 22 + len (EndOfCentralDirectoryRecord.commentBytes r).
Proof.
  unfold Layout.endOfCentralDirectoryRecord.
  rewrite !len_app, !len_u16le, !len_u32le. lia.
Qed.




Lemma new_at_split bs : ByteArrayCursor.new bs = at_split [] (bs ++ []).
Proof. unfold ByteArrayCursor.new, at_split. now rewrite app_nil_r. Qed.

Lemma at_split_end bs : at_split ([] ++ bs) [] = at_end bs.
Proof. unfold at_split, at_end. cbn [app]. now rewrite app_nil_r. Qed.




(** ** Arrays: [at] and [splice] *)

Lemma at_out_of_range {A} (l : list A) i : len l <= i \/ i < - len l -> at_ l i = None.
Proof.
  intros H. unfold at_. pose proof (len_nonneg l).
  destruct (Z.leb_spec 0 i).
  - destruct (Z.ltb_spec i 0); [lia|]. destruct (Z.leb_spec (len l) i); [reflexivity|lia].
  - destruct (Z.ltb_spec (len l + i) 0); [reflexivity|lia].
Qed.

Lemma at_in_range {A} (l : list A) i : 0 <= i < len l -> at_ l i = l !! Z.to_nat i.
Proof.
  intros H. unfold at_.
  destruct (Z.leb_spec 0 i); [|lia].
  destruct (Z.ltb_spec i 0); [lia|]. destruct (Z.leb_spec (len l) i); [lia|reflexivity].
Qed.

Lemma at_negative {A} (l : list A) i : - len l <= i < 0 -> at_ l i = at_ l (len l + i).
Proof.
  intros H. rewrite (at_in_range l (len l + i)) by lia. unfold at_.
  destruct (Z.leb_spec 0 i); [lia|].
  destruct (Z.ltb_spec (len l + i) 0); [lia|].
  destruct (Z.leb_spec (len l) (len l + i)); [lia|reflexivity].
Qed.


Lemma len_take {A} (l : list A) k : 0 <= k <= len l -> len (take (Z.to_nat k) l) = k.
Proof. unfold len. intros H. rewrite length_take. lia. Qed.

Lemma len_drop {A} (l : list A) k : 0 <= k <= len l -> len (drop (Z.to_nat k) l) = len l - k.
Proof. unfold len. intros H. rewrite length_drop. lia. Qed.

Lemma splice_in_range {A} (l : list A) (i c : Z) :
  0 <= i <= len l ->
  let d := Z.min (Z.max c 0) (len l - i) in
  splice l i c = (take (Z.to_nat d) (drop (Z.to_nat i) l),
                  take (Z.to_nat i) l ++ drop (Z.to_nat (i + d)) l)
  /\ len (fst (splice l i c)) = d
  /\ len (snd (splice l i c)) = len l - d.
Proof.
  intros Hi d. unfold splice, relative_index.
  destruct (Z.ltb_spec i 0); [lia|]. rewrite (Z.min_l i) by lia. fold d.
  assert (Hd : 0 <= d <= len l - i) by (unfold d; lia).
  clearbody d. split; [reflexivity|]. cbn [fst snd]. split.
  - rewrite len_take; [reflexivity|]. rewrite len_drop by lia. lia.
  - rewrite len_app, (len_take l i), (len_drop l (i + d)) by lia. lia.
Qed.

(** ** [Extractor.pick] *)
Section Pick.
Variable inflate_raw : Uint8Array -> option Uint8Array.

(** C8 (as the code has it). [pick] looks its entry up with [Array.at]:
    for an index at or beyond the entry count (in particular the entry
    count itself) or below minus the entry count, it fails with the error
    whose reason is "No content at the index: " followed by that index;
    an index in [-n, 0) counts from the end; the extractor is only read,
    so every in-range index still picks its entry: method 0 passes the
    stored bytes through and method 8 hands them to the inflater. *)
Theorem pick_out_of_range (ex : Extractor.t) (index : Z) :
  let n := len (Extractor.contents ex) in
  (n <= index \/ index < - n ->
     Extractor.pick inflate_raw ex index = Err (NoContent index)
     /\ reason (NoContent index)
        = ("No content at the index: " ++ to_string (Num index))%string)
  /\ Extractor.pick inflate_raw ex n = Err (NoContent n)
  /\ (- n <= index < 0 ->
      Extractor.pick inflate_raw ex index = Extractor.pick inflate_raw ex (n + index))
  /\ (forall c, 0 <= index < n -> Extractor.contents ex !! Z.to_nat index = Some c ->
      (LocalFileHeader.method (header c) = Num 0 ->
       Extractor.pick inflate_raw ex index = Ok (Some (body c)))
      /\ (LocalFileHeader.method (header c) = Num 8 ->
       Extractor.pick inflate_raw ex index = Ok (inflate_raw (body c)))).
Proof.
  intros n. unfold Extractor.pick. split; [|split; [|split]].
  - intros H. split; [|reflexivity]. now rewrite at_out_of_range by exact H.
  - rewrite at_out_of_range; [reflexivity|]. left. unfold n. lia.
  - intros H. rewrite at_negative by exact H. fold n.
    rewrite at_in_range by (unfold n in *; lia).
    destruct (Extractor.contents ex !! Z.to_nat (n + index)) eqn:E; [reflexivity|].
    apply lookup_ge_None in E. unfold n, len in *. lia.
  - intros c Hi Hc. rewrite at_in_range, Hc by exact Hi.
    split; intros Hm; now rewrite Hm.
Qed.
End Pick.

Lemma pick_out_of_range_witness :
  exists ex,
    Extractor.constructor Host.archive1 = Ok ex
    /\ Extractor.pick Host.inflate_raw ex 1 = Err (NoContent 1)
    /\ reason (NoContent 1) = "No content at the index: 1"%string
    /\ Extractor.pick Host.inflate_raw ex 0 = Ok (Some Host.hello).
Proof.
  eexists. split; [vm_compute; reflexivity|].
  match goal with |- context [Extractor.pick _ ?ex 1] =>
    destruct (pick_out_of_range Host.inflate_raw ex 0) as (_ & Hn & _ & Hin);
    destruct (pick_out_of_range Host.inflate_raw ex 1) as (Hout & _)
  end.
  destruct Hout as [Hp Hr]; [left; vm_compute; congruence|].
  split; [exact Hp|]. split; [reflexivity|].
  refine (proj1 (Hin _ _ eq_refl) eq_refl). vm_compute. split; congruence.
Defined.

(** C8 as stated fails for negative indices: on the extractor of a
    one-entry archive, [pick(-1)] is outside [0, 1) and yet returns the
    entry's bytes. *)
Lemma pick_minus_one_succeeds :
  exists ex,
    Extractor.constructor Host.archive1 = Ok ex
    /\ len (Extractor.contents ex) = 1
    /\ Extractor.pick Host.inflate_raw ex (-1) = Ok (Some Host.hello).
Proof. eexists. split; [vm_compute; reflexivity|]. split; reflexivity. Qed.

(** ** [Builder.remove] and the flags of appended entries *)
Section Remove.
Variable decode : Uint8Array -> string.

(** C9 (as the code has it). For a valid index, [remove(index, count)]
    splices [count] clamped to [0, n - index] entries out of the
    directory list ([n] its length), hence exactly [count] when
    [0 <= count <= n - index], and exactly one entry out of the content
    list, both from [index] on, and returns the decoded file names of the
    removed directory entries; [remove(0)] on a three-entry builder leaves
    two of each and returns the first entry's name. *)
Theorem remove_spec (b : Builder.t) (index : Z) (count : option Z) :
  0 <= index < len (Builder.centralDirectory b) ->
  index < len (Builder.contents b) ->
  let cd := Builder.centralDirectory b in
  let cs := Builder.contents b in
  let c := match count with Some c => c | None => 1 end in
  let d := Z.min (Z.max c 0) (len cd - index) in
  let b' := fst (Builder.remove decode b index count) in
  let paths := snd (Builder.remove decode b index count) in
  Builder.centralDirectory b' = take (Z.to_nat index) cd ++ drop (Z.to_nat (index + d)) cd
  /\ len (Builder.centralDirectory b') = len cd - d
  /\ Builder.contents b' = take (Z.to_nat index) cs ++ drop (Z.to_nat (index + 1)) cs
  /\ len (Builder.contents b') = len cs - 1
  /\ paths = map (fun e => decode (LocalFileHeader.fileNameBytes (CentralDirectoryEntry.base e)))
               (take (Z.to_nat d) (drop (Z.to_nat index) cd))
  /\ len paths = d
  /\ (0 <= c <= len cd - index -> d = c)
  /\ (forall e0 e1 e2 c0 c1 c2,
        Builder.remove decode
          {| Builder.centralDirectory := [e0; e1; e2]; Builder.contents := [c0; c1; c2] |}
          0 None
        = ({| Builder.centralDirectory := [e1; e2]; Builder.contents := [c1; c2] |},
           [decode (LocalFileHeader.fileNameBytes (CentralDirectoryEntry.base e0))])).
Proof.
  intros Hi Hc cd cs c d b' paths.
  assert (Hi' : 0 <= index <= len cd) by (unfold cd; lia).
  assert (Hc' : 0 <= index < len cs) by (unfold cs; lia).
  destruct (splice_in_range cd index c) as (Hs & Hl1 & Hl2); [exact Hi'|].
  destruct (splice_in_range cs index 1) as (Hs' & Hl1' & Hl2'); [lia|].
  cbv zeta in Hs, Hl1, Hl2, Hs', Hl1', Hl2'. fold d in Hs, Hl1, Hl2.
  replace (Z.min (Z.max 1 0) (len cs - index)) with 1 in * by lia.
  assert (Hr : Builder.remove decode b index count
               = ({| Builder.centralDirectory := snd (splice cd index c);
                     Builder.contents := snd (splice cs index 1) |},
                  map (fun e => decode (LocalFileHeader.fileNameBytes (CentralDirectoryEntry.base e)))
                      (fst (splice cd index c)))).
  { unfold Builder.remove. fold cd cs c. now destruct (splice cd index c), (splice cs index 1). }
  unfold b', paths. rewrite Hr. cbn [fst snd Builder.centralDirectory Builder.contents].
  rewrite Hs in *. rewrite Hs' in *. cbn [fst snd] in *.
  split; [reflexivity|]. split; [exact Hl2|]. split; [reflexivity|]. split; [exact Hl2'|].
  split; [reflexivity|]. split; [unfold len; rewrite length_map; exact Hl1|].
  split; [unfold d; lia|]. reflexivity.
Qed.

End Remove.

Lemma remove_spec_witness :
  let b' := fst (Builder.remove Host.decode Host.builder3 0 None) in
  len (Builder.centralDirectory b') = len (Builder.centralDirectory Host.builder3) - 1
  /\ len (Builder.contents b') = len (Builder.contents Host.builder3) - 1
  /\ snd (Builder.remove Host.decode Host.builder3 0 None) = ["a.txt"%string].
Proof.
  pose proof (remove_spec Host.decode Host.builder3 0 None) as H.
  cbv zeta in H.
  destruct H as (_ & H1 & _ & H2 & H3 & _); [vm_compute; split; congruence | reflexivity |].
  cbv zeta. split; [exact H1|]. split; [exact H2|]. rewrite H3. reflexivity.
Defined.

(** C9 as stated fails when [count] exceeds what is left of the list:
    [remove(2, 5)] on a three-entry builder removes one directory entry,
    not five. *)
Lemma remove_count_is_clamped :
  len (Builder.centralDirectory Host.builder3) = 3
  /\ len (Builder.centralDirectory (fst (Builder.remove Host.decode Host.builder3 2 (Some 5)))) = 2
  /\ len (snd (Builder.remove Host.decode Host.builder3 2 (Some 5))) = 1.
Proof. repeat split. Qed.

Lemma getFlag_3072 (r : LocalFileHeader.t) (i : Z) :
  LocalFileHeader.flags r = Num 3072 -> 0 <= i < 32 ->
  LocalFileHeader.getFlag r i = true <-> i = 10 \/ i = 11.
Proof.
  intros Hf Hi. unfold LocalFileHeader.getFlag. rewrite Hf.
  assert (Hcases : i = 0 \/ i = 1 \/ i = 2 \/ i = 3 \/ i = 4 \/ i = 5 \/ i = 6 \/ i = 7
                   \/ i = 8 \/ i = 9 \/ i = 10 \/ i = 11 \/ i = 12 \/ i = 13 \/ i = 14
                   \/ i = 15 \/ i = 16 \/ i = 17 \/ i = 18 \/ i = 19 \/ i = 20 \/ i = 21
                   \/ i = 22 \/ i = 23 \/ i = 24 \/ i = 25 \/ i = 26 \/ i = 27 \/ i = 28
                   \/ i = 29 \/ i = 30 \/ i = 31) by lia.
  repeat (destruct Hcases as [->|Hcases]); try subst i; vm_compute; split; intros H;
    try discriminate H; try reflexivity; try (destruct H as [H|H]; discriminate H);
    try (now left); try (now right).
Qed.

Section AppendFlags.
Variable encode : string -> Uint8Array.
Variable Date_of : number -> Date.
Variable deflate_raw : Uint8Array -> Uint8Array.

(** C10. A fresh local header has flags 1024 (bit 10, from the field
    initializer) and [isUtf8 = true] adds bit 11; every entry [append]
    pushes therefore carries flags 3072 in its local header and in its
    directory entry, with bits 10 and 11 set and no other bit. *)
Theorem append_flags (now : Date) (b : Builder.t) (buf : Uint8Array)
    (opt : Builder.options) (b' : Builder.t) (n : number) :
  Builder.append encode Date_of deflate_raw now b buf opt = Ok (b', n) ->
  LocalFileHeader.flags (LocalFileHeader.new now) = Num 1024
  /\ LocalFileHeader.flags (LocalFileHeader.set_isUtf8 (LocalFileHeader.new now) true)
     = Num 3072
  /\ exists cd c,
       Builder.centralDirectory b' = Builder.centralDirectory b ++ [cd]
       /\ Builder.contents b' = Builder.contents b ++ [c]
       /\ LocalFileHeader.flags (header c) = Num 3072
       /\ LocalFileHeader.flags (CentralDirectoryEntry.base cd) = Num 3072
       /\ (forall i, 0 <= i < 32 ->
             (LocalFileHeader.getFlag (header c) i = true <-> i = 10 \/ i = 11)
             /\ (LocalFileHeader.getFlag (CentralDirectoryEntry.base cd) i = true
                 <-> i = 10 \/ i = 11)).
Proof.
  intros Ha. split; [reflexivity|]. split; [reflexivity|].
  unfold Builder.append in Ha.
  destruct (strict_eq _ 0); [|destruct (strict_eq _ 8); [|discriminate Ha]];
    injection Ha as <- _; eexists _, _;
    (split; [reflexivity|]); (split; [reflexivity|]);
    (split; [reflexivity|]); (split; [reflexivity|]);
    intros i Hi; split; apply getFlag_3072; auto.
Qed.

End AppendFlags.

Lemma append_flags_witness :
  exists b' n cd c,
    Builder.append Host.encode Host.Date_of Host.deflate_raw Host.now Builder.new
      Host.hello (Builder.of_filepath "a.txt") = Ok (b', n)
    /\ Builder.centralDirectory b' = [cd]
    /\ Builder.contents b' = [c]
    /\ LocalFileHeader.flags (header c) = Num 3072
    /\ LocalFileHeader.flags (CentralDirectoryEntry.base cd) = Num 3072.
Proof.
  assert (E : exists b' n,
            Builder.append Host.encode Host.Date_of Host.deflate_raw Host.now Builder.new
              Host.hello (Builder.of_filepath "a.txt") = Ok (b', n))
    by (eexists _, _; vm_compute; reflexivity).
  destruct E as (b' & n & E).
  destruct (append_flags _ _ _ _ _ _ _ _ _ E) as (_ & _ & cd & c & H1 & H2 & H3 & H4 & _).
  exists b', n, cd, c. repeat split; assumption.
Defined.

(** ** [Builder.build] *)

Lemma len_concat_cons {A} (x : list A) xs : len (concat (x :: xs)) = len x + len (concat xs).
Proof. cbn [concat]. apply len_app. Qed.

Lemma build_loop_spec offset cds cs :
  length cds = length cs ->
  Builder.build_loop offset cds cs
  = Ok (with_offsets offset cds cs,
        flat_map (fun c => [Layout.localFileHeader (header c); body c]) cs,
        offset + len (locals_region cs)).
Proof.
  revert offset cds. induction cs as [|c cs IH]; intros offset cds Hl.
  - destruct cds; [|discriminate]. cbn. now rewrite Z.add_0_r.
  - destruct cds as [|cd cds]; [discriminate|]. injection Hl as Hl.
    cbn [Builder.build_loop]. rewrite LocalFileHeader_toBytes_layout.
    rewrite <- len_app. fold (local_part c). rewrite (IH _ _ Hl).
    cbn [with_offsets flat_map app]. unfold locals_region. cbn [map].
    rewrite len_concat_cons. now rewrite Z.add_assoc.
Qed.

Lemma concat_flat_map_parts cs :
  concat (flat_map (fun c => [Layout.localFileHeader (header c); body c]) cs)
  = locals_region cs.
Proof.
  unfold locals_region. induction cs as [|c cs IH]; [reflexivity|].
  cbn [flat_map app concat map]. rewrite IH. unfold local_part. now rewrite <- app_assoc.
Qed.

Lemma map_toBytes_layout cds :
  Builder.map_toBytes cds = Ok (map Layout.centralDirectoryEntry cds).
Proof.
  induction cds as [|cd cds IH]; [reflexivity|].
  cbn [Builder.map_toBytes map]. now rewrite CentralDirectoryEntry_toBytes_layout, IH.
Qed.

Lemma fold_add_len (xs : list Uint8Array) (a : Z) :
  fold_left (fun (a : number) c => add a (len c)) xs (Num a) = Num (a + len (concat xs)).
Proof.
  revert a. induction xs as [|x xs IH]; intros a.
  - cbn. now rewrite Z.add_0_r.
  - cbn [fold_left add]. rewrite IH, len_concat_cons. f_equal. lia.
Qed.

Lemma with_offsets_length offset cds cs : length (with_offsets offset cds cs) = length cds.
Proof.
  revert offset cds. induction cs as [|c cs IH]; intros offset [|cd cds]; try reflexivity.
  cbn [with_offsets length]. now rewrite IH.
Qed.

Lemma with_offsets_lookup offset cds cs i cd :
  length cds = length cs ->
  cds !! i = Some cd ->
  with_offsets offset cds cs !! i
  = Some (CentralDirectoryEntry.with_headerOffset cd
            (Num (offset + len (locals_region (take i cs))))).
Proof.
  revert offset cds i. induction cs as [|c cs IH]; intros offset [|cd0 cds] i Hl Hi;
    try discriminate.
  injection Hl as Hl. destruct i as [|i].
  - injection Hi as ->. cbn. now rewrite Z.add_0_r.
  - cbn [with_offsets lookup list_lookup take]. cbn in Hi.
    rewrite (IH _ _ _ Hl Hi). unfold locals_region. cbn [map].
    rewrite len_concat_cons. do 3 f_equal. lia.
Qed.

Lemma byte_at_app_r (pre rest : Uint8Array) k :
  0 <= k -> byte_at (pre ++ rest) (len pre + k) = byte_at rest k.
Proof.
  intros Hk. unfold byte_at. pose proof (len_nonneg pre).
  rewrite Z2Nat.inj_add by lia. rewrite to_nat_len.
  rewrite lookup_app_r by lia. do 2 f_equal. lia.
Qed.

Lemma u16_at_app_r (pre rest : Uint8Array) k :
  0 <= k -> u16_at (pre ++ rest) (len pre + k) = u16_at rest k.
Proof.
  intros Hk. unfold u16_at. rewrite <- Z.add_assoc. now rewrite !byte_at_app_r by lia.
Qed.

Lemma u32_at_app_r (pre rest : Uint8Array) k :
  0 <= k -> u32_at (pre ++ rest) (len pre + k) = u32_at rest k.
Proof.
  intros Hk. unfold u32_at. rewrite <- !Z.add_assoc. now rewrite !byte_at_app_r by lia.
Qed.

(** The fields of a serialized end record, read where they lie. *)
Lemma eocd_fields (e : EndOfCentralDirectoryRecord.t) (rest : Uint8Array) :
  let a := Layout.endOfCentralDirectoryRecord e ++ rest in
  u32_at a 0 = ToUint32 (EndOfCentralDirectoryRecord.signature e)
  /\ u16_at a 8 = ToUint32 (EndOfCentralDirectoryRecord.numOfFiles e) mod 2 ^ 16
  /\ u16_at a 10 = ToUint32 (EndOfCentralDirectoryRecord.totalNumOfFiles e) mod 2 ^ 16
  /\ u32_at a 12 = ToUint32 (EndOfCentralDirectoryRecord.cdSize e)
  /\ u32_at a 16 = ToUint32 (EndOfCentralDirectoryRecord.cdOffset e).
Proof.
  cbv zeta. split; [exact (u32_of_le (EndOfCentralDirectoryRecord.signature e))|].
  split; [exact (u16_of_le (EndOfCentralDirectoryRecord.numOfFiles e))|].
  split; [exact (u16_of_le (EndOfCentralDirectoryRecord.totalNumOfFiles e))|].
  split; [exact (u32_of_le (EndOfCentralDirectoryRecord.cdSize e))|].
  exact (u32_of_le (EndOfCentralDirectoryRecord.cdOffset e)).
Qed.

(** The [headerOffset] field of a serialized directory entry. *)
Lemma entry_headerOffset_field (cd : CentralDirectoryEntry.t) (rest : Uint8Array) :
  u32_at (Layout.centralDirectoryEntry cd ++ rest) 42
  = ToUint32 (CentralDirectoryEntry.headerOffset cd).
Proof. exact (u32_of_le (CentralDirectoryEntry.headerOffset cd)). Qed.

Lemma directory_region_split cds i cd :
  cds !! i = Some cd ->
  directory_region cds
  = directory_region (take i cds) ++ Layout.centralDirectoryEntry cd
    ++ directory_region (drop (S i) cds).
Proof.
  intros H. rewrite <- (take_drop_middle cds i cd H) at 1.
  unfold directory_region. rewrite map_app, concat_app. reflexivity.
Qed.

Lemma ToUint32_mod16 z : ToUint32 (Num z) mod 2 ^ 16 = z mod 2 ^ 16.
Proof.
  cbn [ToUint32]. apply Z.mod_mod_divide. exists (2 ^ 16). reflexivity.
Qed.

(** Where the fields of the end record and of the directory entries lie
    in an archive made of the three regions. *)
Lemma archive_fields (locals : Uint8Array) (cds : list CentralDirectoryEntry.t)
    (e : EndOfCentralDirectoryRecord.t) :
  let a := locals ++ directory_region cds ++ Layout.endOfCentralDirectoryRecord e in
  let p := len locals + len (directory_region cds) in
  u32_at a p = ToUint32 (EndOfCentralDirectoryRecord.signature e)
  /\ u16_at a (p + 8) = ToUint32 (EndOfCentralDirectoryRecord.numOfFiles e) mod 2 ^ 16
  /\ u16_at a (p + 10) = ToUint32 (EndOfCentralDirectoryRecord.totalNumOfFiles e) mod 2 ^ 16
  /\ u32_at a (p + 12) = ToUint32 (EndOfCentralDirectoryRecord.cdSize e)
  /\ u32_at a (p + 16) = ToUint32 (EndOfCentralDirectoryRecord.cdOffset e)
  /\ forall i cd, cds !! i = Some cd ->
       u32_at a (len locals + len (directory_region (take i cds)) + 42)
       = ToUint32 (CentralDirectoryEntry.headerOffset cd).
Proof.
  cbv zeta. rewrite <- len_app.
  destruct (eocd_fields e []) as (H0 & H8 & H10 & H12 & H16). rewrite app_nil_r in *.
  rewrite (app_assoc locals).
  rewrite <- (Z.add_0_r (len (locals ++ directory_region cds))) at 1.
  rewrite !u16_at_app_r, !u32_at_app_r by lia.
  do 5 (split; [assumption|]).
  intros i cd Hi. rewrite <- app_assoc, (directory_region_split cds i cd Hi).
  rewrite <- len_app, <- !app_assoc, (app_assoc locals).
  rewrite u32_at_app_r by lia. apply entry_headerOffset_field.
Qed.

Section Build.
Variable encode : string -> Uint8Array.

Lemma build_parts_spec (b : Builder.t) (comment : option string) :
  length (Builder.centralDirectory b) = length (Builder.contents b) ->
  let cs := Builder.contents b in
  let cds := with_offsets 0 (Builder.centralDirectory b) cs in
  let eocd := built_eocd (len cs) (len (directory_region cds)) (len (locals_region cs))
                (Builder.encode_opt encode comment) in
  Builder.build_parts encode b comment
  = Ok ({| Builder.centralDirectory := cds; Builder.contents := cs |}, eocd,
        flat_map (fun c => [Layout.localFileHeader (header c); body c]) cs
        ++ map Layout.centralDirectoryEntry cds
        ++ [Layout.endOfCentralDirectoryRecord eocd]).
Proof.
  intros Hl cs cds eocd. unfold Builder.build_parts.
  rewrite (build_loop_spec 0 _ _ Hl), map_toBytes_layout.
  fold cs. fold cds. rewrite fold_add_len. cbn [Z.add].
  change (EndOfCentralDirectoryRecord.signature EndOfCentralDirectoryRecord.new) with (Num 0x06054b50).
  change (EndOfCentralDirectoryRecord.diskId EndOfCentralDirectoryRecord.new) with (Num 0).
  change (EndOfCentralDirectoryRecord.firstDiskId EndOfCentralDirectoryRecord.new) with (Num 0).
  fold (directory_region cds). fold (built_eocd (len cs) (len (directory_region cds))
    (len (locals_region cs)) (Builder.encode_opt encode comment)). fold eocd.
  now rewrite EndOfCentralDirectoryRecord_toBytes_layout.
Qed.

Lemma build_spec (b : Builder.t) (comment : option string) :
  length (Builder.centralDirectory b) = length (Builder.contents b) ->
  let cs := Builder.contents b in
  let cds := with_offsets 0 (Builder.centralDirectory b) cs in
  let eocd := built_eocd (len cs) (len (directory_region cds)) (len (locals_region cs))
                (Builder.encode_opt encode comment) in
  Builder.build encode b comment
  = Ok ({| Builder.centralDirectory := cds; Builder.contents := cs |},
        {| Builder.blob_bytes :=
             locals_region cs ++ directory_region cds ++ Layout.endOfCentralDirectoryRecord eocd;
           Builder.blob_type := "application/zip" |}).
Proof.
  intros Hl cs cds eocd. unfold Builder.build.
  rewrite (build_parts_spec b comment Hl). fold cs. fold cds. fold eocd.
  rewrite !concat_app, concat_flat_map_parts. cbn [concat]. now rewrite app_nil_r.
Qed.

(** C6. For a builder whose two lists have the same length, [build]
    succeeds and the archive is the region of local parts (each header as
    its [toBytes] serializes it, then the body), the serialized directory
    and the end record of 22 bytes plus the comment.  Entry [i] of the
    directory [build] leaves behind is the original entry with
    [headerOffset] set to the byte length of the local parts of the
    entries before it.  In the archive that number is held by the 32-bit
    field at byte 42 of the entry, the entry count by the two 16-bit fields
    at bytes 8 and 10 of the end record, the byte length of the directory
    by [cdSize] at byte 12 and the byte length of the local region by
    [cdOffset] at byte 16: each reduced modulo 2^32, respectively 2^16,
    as the field holds it. *)
Theorem build_layout (b : Builder.t) (comment : option string) :
  length (Builder.centralDirectory b) = length (Builder.contents b) ->
  exists b' blob,
    Builder.build encode b comment = Ok (b', blob)
    /\ Builder.blob_type blob = "application/zip"%string
    /\ Builder.contents b' = Builder.contents b
    /\ length (Builder.centralDirectory b') = length (Builder.centralDirectory b)
    /\ (let cs := Builder.contents b in
        let cds := Builder.centralDirectory b' in
        let a := Builder.blob_bytes blob in
        let L := len (locals_region cs) in
        let D := len (directory_region cds) in
        (exists eocdBytes,
           a = locals_region cs ++ directory_region cds ++ eocdBytes
           /\ len eocdBytes = 22 + len (Builder.encode_opt encode comment))
        /\ (forall i cd, Builder.centralDirectory b !! i = Some cd ->
              exists cd',
                cds !! i = Some cd'
                /\ CentralDirectoryEntry.headerOffset cd'
                   = Num (len (locals_region (take i cs)))
                /\ CentralDirectoryEntry.base cd' = CentralDirectoryEntry.base cd
                /\ CentralDirectoryEntry.versionMadeBy cd'
                   = CentralDirectoryEntry.versionMadeBy cd
                /\ CentralDirectoryEntry.diskIdStart cd'
                   = CentralDirectoryEntry.diskIdStart cd
                /\ CentralDirectoryEntry.internalAttributes cd'
                   = CentralDirectoryEntry.internalAttributes cd
                /\ CentralDirectoryEntry.externalAttributes cd'
                   = CentralDirectoryEntry.externalAttributes cd
                /\ CentralDirectoryEntry.commentBytes cd'
                   = CentralDirectoryEntry.commentBytes cd
                /\ u32_at a (L + len (directory_region (take i cds)) + 42)
                   = len (locals_region (take i cs)) mod 2 ^ 32)
        /\ u32_at a (L + D) = 0x06054b50
        /\ u16_at a (L + D + 8) = len cs mod 2 ^ 16
        /\ u16_at a (L + D + 10) = len cs mod 2 ^ 16
        /\ u32_at a (L + D + 12) = D mod 2 ^ 32
        /\ u32_at a (L + D + 16) = L mod 2 ^ 32)
    /\ (forall c, LocalFileHeader.toBytes (header c) = Ok (Layout.localFileHeader (header c)))
    /\ (forall cd, CentralDirectoryEntry.toBytes cd = Ok (Layout.centralDirectoryEntry cd)).
Proof.
  intros Hl. pose proof (build_spec b comment Hl) as Hb. cbv zeta in Hb.
  eexists _, _. split; [exact Hb|]. split; [reflexivity|]. split; [reflexivity|].
  split; [apply with_offsets_length|].
  split; [|split; intros;
             [apply LocalFileHeader_toBytes_layout|apply CentralDirectoryEntry_toBytes_layout]].
  cbn [Builder.centralDirectory Builder.contents Builder.blob_bytes]. cbv zeta.
  set (cs := Builder.contents b).
  set (cds := with_offsets 0 (Builder.centralDirectory b) cs).
  set (e := built_eocd _ _ _ _).
  destruct (archive_fields (locals_region cs) cds e) as (H0 & H8 & H10 & H12 & H16 & Hcd).
  split.
  { eexists. split; [reflexivity|]. now rewrite len_layout_endOfCentralDirectoryRecord. }
  split.
  { intros i cd Hi.
    pose proof (with_offsets_lookup 0 _ _ i cd Hl Hi) as Hi'. fold cs in Hi'. fold cds in Hi'.
    eexists. split; [exact Hi'|]. cbn [CentralDirectoryEntry.with_headerOffset
      CentralDirectoryEntry.headerOffset CentralDirectoryEntry.base
      CentralDirectoryEntry.versionMadeBy CentralDirectoryEntry.diskIdStart
      CentralDirectoryEntry.internalAttributes CentralDirectoryEntry.externalAttributes
      CentralDirectoryEntry.commentBytes Z.add].
    do 6 (split; [reflexivity|]). now rewrite (Hcd _ _ Hi'). }
  split; [exact H0|]. split; [rewrite H8; apply ToUint32_mod16|].
  split; [rewrite H10; apply ToUint32_mod16|]. split; [exact H12|exact H16].
Qed.

End Build.

Lemma build_layout_witness :
  exists b' blob,
    Builder.build Host.encode Host.builder3 None = Ok (b', blob)
    /\ (let a := Builder.blob_bytes blob in
        let L := len (locals_region (Builder.contents Host.builder3)) in
        let D := len (directory_region (Builder.centralDirectory b')) in
        L = 145 /\ D = 153 /\ len a = 320
        /\ u16_at a (L + D + 8) = 3
        /\ u32_at a (L + D + 12) = D
        /\ u32_at a (L + D + 16) = L
        /\ map CentralDirectoryEntry.headerOffset (Builder.centralDirectory b')
           = [Num 0; Num 48; Num 97]).
Proof.
  destruct (build_layout Host.encode Host.builder3 None eq_refl)
    as (b' & blob & Hb & _ & _ & _ & (_ & _ & _ & H8 & _ & H12 & H16) & _).
  exists b', blob. split; [exact Hb|]. cbv zeta.
  assert (E : Builder.build Host.encode Host.builder3 None = Ok (b', blob)) by exact Hb.
  vm_compute in E. injection E as <- <-.
  split; [vm_compute; reflexivity|]. split; [vm_compute; reflexivity|].
  split; [vm_compute; reflexivity|]. split; [exact H8|]. split; [exact H12|].
  split; [exact H16|]. vm_compute. reflexivity.
Defined.

(** ** Locating the end record *)

Lemma byte_to_Z_inj b b' : byte_to_Z b = byte_to_Z b' -> b = b'.
Proof. intros H. rewrite <- (ToUint8_byte_to_Z b), <- (ToUint8_byte_to_Z b'). now rewrite H. Qed.

Lemma get_eq_byte a i (b : byte) :
  strict_eq (Num (byte_to_Z b)) (TypedArray.get a i) = true ->
  0 <= i /\ a !! Z.to_nat i = Some b.
Proof.
  unfold TypedArray.get. destruct (Z.ltb_spec i 0) as [Hlt|Hge]; [discriminate|].
  destruct (a !! Z.to_nat i) as [x|]; [|discriminate]. cbn [strict_eq].
  intros H. apply Z.eqb_eq, byte_to_Z_inj in H. subst x. split; [lia|reflexivity].
Qed.

Lemma signature_at_contains a i : signature_at a i = true -> contains_signature a.
Proof.
  unfold signature_at, eocd_signature. cbn [forallb]. rewrite !andb_true_iff.
  intros (H0 & H1 & H2 & H3 & _).
  apply (get_eq_byte a (i + 0) x50) in H0 as [Hi H0].
  apply (get_eq_byte a (i + 1) x4b) in H1 as [_ H1].
  apply (get_eq_byte a (i + 2) x05) in H2 as [_ H2].
  apply (get_eq_byte a (i + 3) x06) in H3 as [_ H3].
  replace (Z.to_nat (i + 0)) with (Z.to_nat i) in H0 by lia.
  replace (Z.to_nat (i + 1)) with (S (Z.to_nat i)) in H1 by lia.
  replace (Z.to_nat (i + 2)) with (S (S (Z.to_nat i))) in H2 by lia.
  replace (Z.to_nat (i + 3)) with (S (S (S (Z.to_nat i)))) in H3 by lia.
  exists (take (Z.to_nat i) a), (drop (S (S (S (S (Z.to_nat i))))) a).
  unfold eocd_signature_bytes. cbn [app].
  rewrite <- (drop_S _ _ _ H3), <- (drop_S _ _ _ H2), <- (drop_S _ _ _ H1).
  rewrite <- (drop_S _ _ _ H0). now rewrite take_drop.
Qed.

Lemma findLastIndex_below_none p n :
  (forall i, 0 <= i < Z.of_nat n -> p i = false) -> findLastIndex_below p n = -1.
Proof.
  induction n as [|n IH]; intros H; [reflexivity|].
  cbn [findLastIndex_below]. rewrite H by lia. apply IH. intros i Hi. apply H. lia.
Qed.

Lemma findLastIndex_below_last p n k :
  0 <= k < Z.of_nat n -> p k = true ->
  (forall i, k < i < Z.of_nat n -> p i = false) ->
  findLastIndex_below p n = k.
Proof.
  induction n as [|n IH]; intros Hk Hp H; [lia|].
  cbn [findLastIndex_below]. destruct (Z.eq_dec k (Z.of_nat n)) as [->|Hne].
  - now rewrite Hp.
  - rewrite H by lia. apply IH; [lia|exact Hp|]. intros i Hi. apply H. lia.
Qed.

Lemma findLastIndex_no_signature a :
  ~ contains_signature a -> findLastIndex a signature_at = -1.
Proof.
  intros H. apply findLastIndex_below_none. intros i _.
  destruct (signature_at a i) eqn:E; [|reflexivity].
  exfalso. apply H. now apply signature_at_contains in E.
Qed.

Lemma never_ret {A} (a : A) : never_InvalidFormat (ret a).
Proof. intros s e H. discriminate H. Qed.

Lemma never_bind {A B} (m : M A) (k : A -> M B) :
  never_InvalidFormat m -> (forall a, never_InvalidFormat (k a)) ->
  never_InvalidFormat (bind m k).
Proof.
  intros Hm Hk s e. unfold bind. destruct (m s) as [[a s']|e'] eqn:E.
  - apply Hk.
  - intros [= <-]. now apply (Hm s).
Qed.

Lemma never_get_offset : never_InvalidFormat get_offset.
Proof. intros s e H. discriminate H. Qed.

Lemma never_get_bytes : never_InvalidFormat get_bytes.
Proof. intros s e H. discriminate H. Qed.

Lemma never_set_bytes b : never_InvalidFormat (set_bytes b).
Proof. intros s e H. discriminate H. Qed.

Lemma never_set_offset v : never_InvalidFormat (set_offset v).
Proof.
  intros s e. unfold set_offset. destruct (le v _); [discriminate|].
  intros [= <-]. discriminate.
Qed.

Ltac never :=
  repeat first
    [ apply never_bind; [|intros ?]
    | apply never_ret | apply never_get_offset | apply never_get_bytes
    | apply never_set_bytes | apply never_set_offset ].

Lemma never_read : never_InvalidFormat read.
Proof. unfold read, post_increment. never. Qed.

Lemma never_readAsUshort : never_InvalidFormat readAsUshort.
Proof. unfold readAsUshort. repeat (apply never_bind; [apply never_read|intros ?]). never. Qed.

Lemma never_readAsInt : never_InvalidFormat readAsInt.
Proof. unfold readAsInt. repeat (apply never_bind; [apply never_read|intros ?]). never. Qed.

Lemma never_readAsUint : never_InvalidFormat readAsUint.
Proof. unfold readAsUint. apply never_bind; [apply never_readAsInt|intros ?]. never. Qed.

Lemma never_subarray n : never_InvalidFormat (subarray n).
Proof. unfold subarray. never. Qed.

Lemma never_moveTo n : never_InvalidFormat (moveTo n).
Proof. apply never_set_offset. Qed.

Ltac never_reads :=
  repeat first
    [ apply never_ret | apply never_readAsUint | apply never_readAsUshort
    | apply never_readAsInt | apply never_subarray | apply never_moveTo
    | apply never_get_bytes
    | apply never_bind; [|intros ?] ].

Lemma never_from_local : never_InvalidFormat LocalFileHeader.from.
Proof. unfold LocalFileHeader.from. never_reads. Qed.

Lemma never_from_entry : never_InvalidFormat CentralDirectoryEntry.from.
Proof. unfold CentralDirectoryEntry.from. never_reads. Qed.

Lemma never_from_eocd : never_InvalidFormat EndOfCentralDirectoryRecord.from.
Proof. unfold EndOfCentralDirectoryRecord.from. never_reads. Qed.

Lemma never_repeatM {A} n (m : M A) : never_InvalidFormat m -> never_InvalidFormat (repeatM n m).
Proof.
  intros Hm. induction n as [|n IH]; cbn [repeatM]; [apply never_ret|].
  apply never_bind; [exact Hm|intros ?]. apply never_bind; [exact IH|intros ?]. apply never_ret.
Qed.

Lemma never_mapM {A B} (f : A -> M B) l :
  (forall a, never_InvalidFormat (f a)) -> never_InvalidFormat (mapM f l).
Proof.
  intros Hf. induction l as [|x l IH]; cbn [mapM]; [apply never_ret|].
  apply never_bind; [apply Hf|intros ?]. apply never_bind; [exact IH|intros ?]. apply never_ret.
Qed.

Lemma never_read_content record : never_InvalidFormat (Extractor.read_content record).
Proof.
  unfold Extractor.read_content.
  apply never_bind; [apply never_moveTo|intros _].
  apply never_bind; [apply never_from_local|intros h].
  apply never_bind; [apply never_subarray|intros b].
  destruct (LocalFileHeader.hasDataDescriptor h); [|apply never_ret].
  apply never_bind; [apply never_readAsInt|intros s].
  apply never_bind; [destruct (strict_eq s _); [apply never_readAsInt|apply never_ret]|intros ?].
  never_reads.
Qed.

Lemma never_parse : never_InvalidFormat Extractor.parse.
Proof.
  unfold Extractor.parse.
  apply never_bind; [apply never_get_bytes|intros b].
  apply never_bind; [apply never_moveTo|intros _].
  apply never_bind; [apply never_from_eocd|intros e].
  apply never_bind; [apply never_moveTo|intros _].
  apply never_bind; [apply never_repeatM, never_from_entry|intros cd].
  apply never_bind; [apply never_mapM, never_read_content|intros cs].
  apply never_ret.
Qed.

(** C2 on the code. The buffer of 21 zero bytes contains no signature,
    and the cursor-based constructor accepts it: the backward scan
    answers -1, [moveTo(-1)] passes the offset check, the record is read
    from offset -1 on (the first byte read is undefined and the signature
    comes out as 0), and an extractor without entries is returned.  No
    buffer at all makes this constructor fail with the format error.
    The guard of the [DataView] variant does reject every buffer without
    a signature. *)
Theorem constructor_without_eocd :
  ~ contains_signature (replicate 21 x00)
  /\ Extractor.constructor (replicate 21 x00)
     = Ok {| Extractor.eocd :=
               {| EndOfCentralDirectoryRecord.signature := 0;
                  EndOfCentralDirectoryRecord.diskId := 0;
                  EndOfCentralDirectoryRecord.firstDiskId := 0;
                  EndOfCentralDirectoryRecord.numOfFiles := 0;
                  EndOfCentralDirectoryRecord.totalNumOfFiles := 0;
                  EndOfCentralDirectoryRecord.cdSize := 0;
                  EndOfCentralDirectoryRecord.cdOffset := 0;
                  EndOfCentralDirectoryRecord.commentBytes := [] |};
             Extractor.centralDirectory := [];
             Extractor.contents := [] |}
  /\ (forall buffer, Extractor.constructor buffer <> Err InvalidFormat)
  /\ (forall buffer, ~ contains_signature buffer ->
        ExtractorView.eocdOffset buffer = Err InvalidFormat).
Proof.
  split; [|split; [|split]].
  - intros (pre & post & H).
    assert (Hin : In x50 (replicate 21 x00)).
    { rewrite H. apply in_or_app. right. now left. }
    cbn in Hin. intuition discriminate.
  - vm_compute. reflexivity.
  - intros buffer H. unfold Extractor.constructor in H.
    destruct (Extractor.parse (ByteArrayCursor.new buffer)) as [[ex s]|e] eqn:E; [discriminate|].
    injection H as ->. now apply never_parse in E.
  - intros buffer H. unfold ExtractorView.eocdOffset.
    now rewrite findLastIndex_no_signature.
Qed.

(** ** The extractor on arbitrary buffers: what each entry records *)

Lemma bind_inv {A B} (m : M A) (k : A -> M B) s r :
  bind m k s = Ok r -> exists a s1, m s = Ok (a, s1) /\ k a s1 = Ok r.
Proof.
  unfold bind. destruct (m s) as [[a s1]|e]; [|discriminate]. intros H. now exists a, s1.
Qed.

Lemma set_offset_inv v s u s' :
  set_offset v s = Ok (u, s') ->
  exists z, v = Num z /\ z <= len (bytes s) /\ s' = {| bytes := bytes s; offset := z |}.
Proof.
  unfold set_offset. destruct v as [z|]; cbn [le ToInteger]; [|discriminate].
  destruct (Z.leb_spec z (len (bytes s))); [|discriminate].
  intros [= _ <-]. now exists z.
Qed.

Lemma byte_at_get a p :
  0 <= p < len a -> TypedArray.get a p = Num (byte_to_Z (byte_at a p)).
Proof.
  intros Hp. unfold TypedArray.get, byte_at.
  destruct (Z.ltb_spec p 0); [lia|].
  destruct (a !! Z.to_nat p) eqn:E; [reflexivity|].
  apply lookup_ge_None in E. unfold len in Hp. lia.
Qed.

Lemma read_inv s v s' :
  read s = Ok (v, s') -> 0 <= offset s ->
  v = Num (byte_to_Z (byte_at (bytes s) (offset s)))
  /\ s' = {| bytes := bytes s; offset := offset s + 1 |}.
Proof.
  unfold read, post_increment. intros H Ho.
  apply bind_inv in H as (o & s1 & H1 & H).
  apply bind_inv in H1 as (o' & s0 & H0 & H1).
  injection H0 as <- <-.
  apply bind_inv in H1 as (u & s2 & H1 & H2). injection H2 as <- <-.
  apply set_offset_inv in H1 as (z & Hz & Hle & ->). cbn [add] in Hz. injection Hz as <-.
  unfold bind, get_bytes, ret in H. cbn [bytes] in H. injection H as <- <-.
  split; [|reflexivity]. apply byte_at_get. lia.
Qed.

Lemma readAsInt_inv s v s' :
  readAsInt s = Ok (v, s') -> 0 <= offset s ->
  v = Num (s32_at (bytes s) (offset s))
  /\ s' = {| bytes := bytes s; offset := offset s + 4 |}.
Proof.
  unfold readAsInt. intros H Ho.
  apply bind_inv in H as (v0 & s0 & H0 & H). apply read_inv in H0 as [-> ->]; [|exact Ho].
  apply bind_inv in H as (v1 & s1 & H1 & H).
  apply read_inv in H1 as [-> ->]; [|cbn [offset]; lia].
  apply bind_inv in H as (v2 & s2 & H2 & H).
  apply read_inv in H2 as [-> ->]; [|cbn [offset]; lia].
  apply bind_inv in H as (v3 & s3 & H3 & H).
  apply read_inv in H3 as [-> ->]; [|cbn [offset]; lia].
  unfold ret in H. cbn [bytes offset] in H. rewrite int_of_bytes in H.
  injection H as <- <-. unfold s32_at.
  replace (offset s + 1 + 1) with (offset s + 2) by lia.
  replace (offset s + 2 + 1) with (offset s + 3) by lia.
  split; [reflexivity|]. f_equal. lia.
Qed.

Lemma read_room s v s' :
  read s = Ok (v, s') ->
  offset s + 1 <= len (bytes s)
  /\ s' = {| bytes := bytes s; offset := offset s + 1 |}.
Proof.
  unfold read, post_increment. intros H.
  apply bind_inv in H as (o & s1 & H1 & H).
  apply bind_inv in H1 as (o' & s0 & H0 & H1). injection H0 as <- <-.
  apply bind_inv in H1 as (u & s2 & H1 & H2). injection H2 as <- <-.
  apply set_offset_inv in H1 as (z & Hz & Hle & ->). cbn [add] in Hz. injection Hz as <-.
  unfold bind, get_bytes, ret in H. injection H as _ <-. cbn [bytes offset]. auto.
Qed.

Lemma readAsInt_room s v s' :
  readAsInt s = Ok (v, s') -> offset s + 4 <= len (bytes s).
Proof.
  unfold readAsInt. intros H.
  apply bind_inv in H as (v0 & s0 & H0 & H). apply read_room in H0 as [_ ->].
  apply bind_inv in H as (v1 & s1 & H1 & H). apply read_room in H1 as [_ ->].
  apply bind_inv in H as (v2 & s2 & H2 & H). apply read_room in H2 as [_ ->].
  apply bind_inv in H as (v3 & s3 & H3 & H). apply read_room in H3 as [Hle _].
  cbn [bytes offset] in Hle. lia.
Qed.

Lemma reads_ret {A} (a : A) (P : A -> Prop) : P a -> reads (ret a) P.
Proof. intros HP s a' s' [= <- <-] Ho. auto. Qed.

Lemma reads_bind {A B} (m : M A) (k : A -> M B) P Q :
  reads m P -> (forall a, P a -> reads (k a) Q) -> reads (bind m k) Q.
Proof.
  intros Hm Hk s b s' H Ho. apply bind_inv in H as (a & s1 & H1 & H2).
  destruct (Hm _ _ _ H1 Ho) as (Hb & Ho1 & HP).
  destruct (Hk a HP _ _ _ H2 Ho1) as (Hb2 & Ho2 & HQ).
  split; [congruence|]. auto.
Qed.

Lemma reads_weaken {A} (m : M A) (P Q : A -> Prop) :
  reads m P -> (forall a, P a -> Q a) -> reads m Q.
Proof. intros Hm HPQ s a s' H Ho. destruct (Hm _ _ _ H Ho) as (? & ? & ?). auto. Qed.

Lemma reads_read : reads read nonneg.
Proof.
  intros s v s' H Ho. apply read_inv in H as [-> ->]; [|exact Ho]. cbn [bytes offset].
  split; [reflexivity|]. split; [lia|]. eexists. split; [reflexivity|].
  apply byte_to_Z_range.
Qed.

Lemma reads_readAsUshort : reads readAsUshort nonneg.
Proof.
  intros s v s' H Ho. unfold readAsUshort in H.
  apply bind_inv in H as (v0 & s0 & H0 & H). apply read_inv in H0 as [-> ->]; [|exact Ho].
  apply bind_inv in H as (v1 & s1 & H1 & H).
  apply read_inv in H1 as [-> ->]; [|cbn [offset]; lia].
  unfold ret in H. rewrite shl_byte in H by lia. cbn [add] in H.
  injection H as <- <-. cbn [bytes offset].
  split; [reflexivity|]. split; [lia|].
  eexists. split; [reflexivity|].
  pose proof (byte_to_Z_range (byte_at (bytes s) (offset s))).
  pose proof (byte_to_Z_range (byte_at (bytes s) (offset s + 1))). lia.
Qed.

Lemma reads_readAsInt : reads readAsInt (fun _ => True).
Proof.
  intros s v s' H Ho. apply readAsInt_inv in H as [-> ->]; [|exact Ho]. cbn [bytes offset].
  split; [reflexivity|]. split; [lia|exact I].
Qed.

Lemma reads_readAsUint : reads readAsUint nonneg.
Proof.
  intros s v s' H Ho. unfold readAsUint in H.
  apply bind_inv in H as (i & s1 & H1 & H).
  apply readAsInt_inv in H1 as [-> ->]; [|exact Ho].
  unfold ret in H. rewrite ushr_val in H by lia. injection H as <- <-. cbn [bytes offset].
  split; [reflexivity|]. split; [lia|].
  eexists. split; [reflexivity|]. rewrite Z.div_1_r.
  apply (ToUint32_range (Num (s32_at (bytes s) (offset s)))).
Qed.

Lemma subarray_inv (n : Z) s sub s' :
  subarray (Num n) s = Ok (sub, s') -> 0 <= offset s -> 0 <= n ->
  offset s + n <= len (bytes s)
  /\ sub = take (Z.to_nat n) (drop (Z.to_nat (offset s)) (bytes s))
  /\ s' = {| bytes := bytes s; offset := offset s + n |}.
Proof.
  unfold subarray. intros H Ho Hn.
  unfold bind, get_offset, get_bytes in H. cbn [add] in H.
  destruct (set_offset (Num (offset s + n)) s) as [[u s1]|e] eqn:E; [|discriminate].
  apply set_offset_inv in E as (z & [= <-] & Hle & ->).
  unfold ret in H. injection H as <- <-. split; [exact Hle|]. split; [|reflexivity].
  unfold TypedArray.subarray, relative_index. cbn [ToInteger].
  destruct (Z.ltb_spec (offset s) 0); [lia|].
  destruct (Z.ltb_spec (offset s + n) 0); [lia|].
  rewrite !Z.min_l, Z.max_l by lia. f_equal. f_equal. lia.
Qed.

Lemma reads_subarray v : nonneg v -> reads (subarray v) (fun _ => True).
Proof.
  intros (n & -> & Hn) s sub s' H Ho.
  apply subarray_inv in H as (_ & _ & ->); [|exact Ho|exact Hn]. cbn [bytes offset].
  split; [reflexivity|]. split; [lia|exact I].
Qed.

Lemma reads_moveTo v : nonneg v -> reads (moveTo v) (fun _ => True).
Proof.
  intros (n & -> & Hn) s u s' H _. apply set_offset_inv in H as (z & [= <-] & _ & ->).
  cbn [bytes offset]. auto.
Qed.

Ltac reads_steps :=
  repeat first
    [ apply reads_ret
    | eapply reads_bind; [apply reads_readAsUint | intros ? ?]
    | eapply reads_bind; [apply reads_readAsUshort | intros ? ?]
    | eapply reads_bind; [apply reads_subarray; assumption | intros ? ?] ].

Lemma reads_from_local : reads LocalFileHeader.from (fun _ => True).
Proof. unfold LocalFileHeader.from. reads_steps. exact I. Qed.

Lemma reads_from_entry :
  reads CentralDirectoryEntry.from
    (fun cd => nonneg (CentralDirectoryEntry.headerOffset cd)
               /\ nonneg (LocalFileHeader.compressedSize (CentralDirectoryEntry.base cd))).
Proof. unfold CentralDirectoryEntry.from. reads_steps. cbn. auto. Qed.

Lemma reads_from_eocd :
  reads EndOfCentralDirectoryRecord.from
    (fun e => nonneg (EndOfCentralDirectoryRecord.cdOffset e)).
Proof. unfold EndOfCentralDirectoryRecord.from. reads_steps. cbn. auto. Qed.

Lemma reads_repeatM {A} n (m : M A) P : reads m P -> reads (repeatM n m) (Forall P).
Proof.
  intros Hm. induction n as [|n IH]; cbn [repeatM]; [apply reads_ret; constructor|].
  eapply reads_bind; [exact Hm|intros x Hx].
  eapply reads_bind; [exact IH|intros xs Hxs]. apply reads_ret. now constructor.
Qed.

Lemma mapM_inv {A B} (f : A -> M B) (P : A -> Prop) l s ys s' :
  (forall x, P x -> reads (f x) (fun _ => True)) ->
  Forall P l -> mapM f l s = Ok (ys, s') -> 0 <= offset s ->
  Forall2 (fun x y => exists s1 s2,
             bytes s1 = bytes s /\ 0 <= offset s1 /\ f x s1 = Ok (y, s2)) l ys.
Proof.
  intros Hf Hl. revert s ys s'. induction Hl as [|x l Hx Hl IH]; intros s ys s' H Ho.
  - injection H as <- _. constructor.
  - cbn [mapM] in H. apply bind_inv in H as (y & s1 & H1 & H).
    apply bind_inv in H as (ys' & s2 & H2 & H). injection H as <- _.
    destruct (Hf x Hx _ _ _ H1 Ho) as (Hb & Ho1 & _).
    constructor; [now exists s, s1|].
    eapply Forall2_impl; [apply (IH _ _ _ H2 Ho1)|].
    intros x' y' (sa & sb & Hba & Hoa & Hfa). exists sa, sb. split; [congruence|]. auto.
Qed.

Ltac record_fields :=
  cbv zeta; unfold LocalFileHeader.with_descriptor;
  cbn [header body LocalFileHeader.signature LocalFileHeader.versionNeeded
       LocalFileHeader.flags LocalFileHeader.method LocalFileHeader.lastModified
       LocalFileHeader.crc32 LocalFileHeader.compressedSize
       LocalFileHeader.uncompressedSize LocalFileHeader.fileNameBytes
       LocalFileHeader.extraFieldBytes].

Lemma read_content_inv a record s1 c s2 :
  nonneg (CentralDirectoryEntry.headerOffset record) ->
  nonneg (LocalFileHeader.compressedSize (CentralDirectoryEntry.base record)) ->
  bytes s1 = a ->
  Extractor.read_content record s1 = Ok (c, s2) ->
  content_of a record c.
Proof.
  intros (off & Hoff & Hoff0) (csize & Hcs & Hcs0) Ha H. unfold Extractor.read_content in H.
  rewrite Hoff, Hcs in H.
  apply bind_inv in H as (u & s3 & H3 & H).
  apply set_offset_inv in H3 as (z & [= <-] & Hle & ->). rewrite Ha in *.
  apply bind_inv in H as (h & s4 & H4 & H).
  destruct (reads_from_local _ _ _ H4 Hoff0) as (Hb4 & Ho4 & _).
  destruct s4 as [b4 p0]. cbn [bytes offset] in Hb4, Ho4. subst b4.
  apply bind_inv in H as (bd & s5 & H5 & H).
  apply subarray_inv in H5 as (Hle5 & -> & ->); [|exact Ho4|exact Hcs0].
  cbn [bytes offset] in *.
  exists off, csize, h, p0.
  do 4 (split; [assumption|]). split; [exact H4|]. split; [exact Ho4|]. split; [exact Hle5|].
  destruct (LocalFileHeader.hasDataDescriptor h).
  - apply bind_inv in H as (sg & s6 & H6 & H).
    apply readAsInt_inv in H6 as [-> ->]; [|cbn [offset]; lia]. cbn [bytes offset] in H.
    apply bind_inv in H as (crc & s7 & H7 & H).
    unfold descriptor_start. cbn [strict_eq] in H7.
    destruct (s32_at a (p0 + csize) =? 134695760).
    + apply readAsInt_inv in H7 as [-> ->]; [|cbn [offset]; lia]. cbn [bytes offset] in H.
      apply bind_inv in H as (cs' & s8 & H8 & H).
      apply readAsInt_inv in H8 as [-> ->]; [|cbn [offset]; lia]. cbn [bytes offset] in H.
      apply bind_inv in H as (us' & s9 & H9 & H).
      pose proof (readAsInt_room _ _ _ H9) as Hroom. cbn [bytes offset] in Hroom.
      apply readAsInt_inv in H9 as [-> ->]; [|cbn [offset]; lia]. cbn [bytes offset] in H.
      injection H as <- _. record_fields.
      do 10 (split; [reflexivity|]). split; [do 2 f_equal; lia|lia].
    + injection H7 as <- <-.
      apply bind_inv in H as (cs' & s8 & H8 & H).
      apply readAsInt_inv in H8 as [-> ->]; [|cbn [offset]; lia]. cbn [bytes offset] in H.
      apply bind_inv in H as (us' & s9 & H9 & H).
      pose proof (readAsInt_room _ _ _ H9) as Hroom. cbn [bytes offset] in Hroom.
      apply readAsInt_inv in H9 as [-> ->]; [|cbn [offset]; lia]. cbn [bytes offset] in H.
      injection H as <- _. record_fields.
      do 10 (split; [reflexivity|]). split; [do 2 f_equal; lia|lia].
  - injection H as <- _. record_fields. repeat split.
Qed.

Lemma Forall2_and_Forall_l {A B} (P : A -> Prop) (R : A -> B -> Prop) l k :
  Forall P l -> Forall2 R l k -> Forall2 (fun x y => P x /\ R x y) l k.
Proof.
  intros HP HR. induction HR as [|x y l k Hxy HR IH]; [constructor|].
  inversion HP; subst. constructor; auto.
Qed.

Lemma bind_assoc {A B C} (m : M A) (f : A -> M B) (g : B -> M C) s :
  bind (bind m f) g s = bind m (fun x => bind (f x) g) s.
Proof. unfold bind. now destruct (m s) as [[a s1]|e]. Qed.

Lemma read_state s v s' :
  read s = Ok (v, s') -> bytes s' = bytes s /\ offset s' = offset s + 1.
Proof.
  unfold read, post_increment. intros H.
  apply bind_inv in H as (o & s1 & H1 & H).
  apply bind_inv in H1 as (o' & s0 & H0 & H1). injection H0 as <- <-.
  apply bind_inv in H1 as (u & s2 & H1 & H2). injection H2 as <- <-.
  apply set_offset_inv in H1 as (z & Hz & Hle & ->). cbn [add] in Hz. injection Hz as <-.
  unfold bind, get_bytes, ret in H. injection H as _ <-. cbn [bytes offset]. auto.
Qed.

Lemma reads_after_first_read {A} (k : number -> M A) (P : A -> Prop) s a s' :
  (forall v, reads (k v) P) ->
  bind read k s = Ok (a, s') -> -1 <= offset s ->
  bytes s' = bytes s /\ 0 <= offset s' /\ P a.
Proof.
  intros Hk H Ho. apply bind_inv in H as (v & s1 & H1 & H).
  apply read_state in H1 as [Hb1 Ho1].
  destruct (Hk v _ _ _ H) as (Hb & Ho' & HP); [lia|].
  split; [congruence|]. auto.
Qed.

Lemma findLastIndex_ge a p : -1 <= findLastIndex a p.
Proof.
  unfold findLastIndex. induction (length a) as [|n IH]; cbn [findLastIndex_below]; [lia|].
  destruct (p a (Z.of_nat n)); lia.
Qed.

Lemma reads_from_eocd_at s e s' :
  EndOfCentralDirectoryRecord.from s = Ok (e, s') -> -1 <= offset s ->
  bytes s' = bytes s /\ 0 <= offset s'
  /\ nonneg (EndOfCentralDirectoryRecord.cdOffset e).
Proof.
  unfold EndOfCentralDirectoryRecord.from, readAsUint at 1, readAsInt at 1. intros H Ho.
  rewrite !bind_assoc in H.
  apply (reads_after_first_read _
           (fun e => nonneg (EndOfCentralDirectoryRecord.cdOffset e))) in H;
    [exact H| |exact Ho].
  intros v.
  eapply reads_bind with (P := fun _ => True).
  { repeat (eapply reads_bind; [apply reads_read|intros ? _]). now apply reads_ret. }
  intros i _. eapply reads_bind with (P := fun _ => True); [now apply reads_ret|].
  intros sg _. reads_steps. cbn. auto.
Qed.

Lemma reads_read_content x :
  nonneg (CentralDirectoryEntry.headerOffset x)
  /\ nonneg (LocalFileHeader.compressedSize (CentralDirectoryEntry.base x)) ->
  reads (Extractor.read_content x) (fun _ => True).
Proof.
  intros [(off & Hoff & Hoff0) (csz & Hcsz & Hcsz0)]. unfold Extractor.read_content.
  eapply reads_bind; [apply reads_moveTo; now exists off|intros _ _].
  eapply reads_bind; [apply reads_from_local|intros h _].
  eapply reads_bind; [apply reads_subarray; now exists csz|intros bd _].
  destruct (LocalFileHeader.hasDataDescriptor h); [|now apply reads_ret].
  eapply reads_bind; [apply reads_readAsInt|intros sg _].
  eapply reads_bind;
    [destruct (strict_eq sg _); [apply reads_readAsInt|now apply reads_ret]|intros crc _].
  eapply reads_bind; [apply reads_readAsInt|intros c1 _].
  eapply reads_bind; [apply reads_readAsInt|intros c2 _]. now apply reads_ret.
Qed.

Lemma from_eocd_counts s e s' :
  EndOfCentralDirectoryRecord.from s = Ok (e, s') -> -1 <= offset s ->
  bytes s' = bytes s /\ 0 <= offset s'
  /\ nonneg (EndOfCentralDirectoryRecord.cdOffset e)
  /\ nonneg (EndOfCentralDirectoryRecord.numOfFiles e).
Proof.
  unfold EndOfCentralDirectoryRecord.from, readAsUint at 1, readAsInt at 1. intros H Ho.
  rewrite !bind_assoc in H.
  apply (reads_after_first_read _
           (fun e => nonneg (EndOfCentralDirectoryRecord.cdOffset e)
                     /\ nonneg (EndOfCentralDirectoryRecord.numOfFiles e))) in H;
    [exact H| |exact Ho].
  intros v.
  eapply reads_bind with (P := fun _ => True).
  { repeat (eapply reads_bind; [apply reads_read|intros ? _]). now apply reads_ret. }
  intros i _. eapply reads_bind with (P := fun _ => True); [now apply reads_ret|].
  intros sg _. reads_steps. cbn. auto.
Qed.

Lemma repeatM_length {A} n (m : M A) s l s' :
  repeatM n m s = Ok (l, s') -> length l = n.
Proof.
  revert s l s'. induction n as [|n IH]; intros s l s' H; cbn [repeatM] in H.
  - now injection H as <- _.
  - apply bind_inv in H as (x & s1 & _ & H). apply bind_inv in H as (xs & s2 & H2 & H).
    injection H as <- _. cbn [length]. f_equal. eauto.
Qed.




(** ** From [Builder.build] to [Extractor] *)

Lemma findLastIndex_below_spec p n :
  let k := findLastIndex_below p n in
  k = -1 /\ (forall i, 0 <= i < Z.of_nat n -> p i = false)
  \/ 0 <= k < Z.of_nat n /\ p k = true /\ (forall i, k < i < Z.of_nat n -> p i = false).
Proof.
  induction n as [|n IH]; cbn [findLastIndex_below].
  - left. split; [reflexivity|]. intros i Hi. lia.
  - destruct (p (Z.of_nat n)) eqn:E.
    + right. split; [lia|]. split; [exact E|]. intros i Hi. lia.
    + cbv zeta in IH. destruct IH as [[Hk H]|(Hk & Hp & H)].
      * left. split; [exact Hk|]. intros i Hi.
        destruct (Z.eq_dec i (Z.of_nat n)) as [->|]; [exact E|]. apply H. lia.
      * right. split; [lia|]. split; [exact Hp|]. intros i Hi.
        destruct (Z.eq_dec i (Z.of_nat n)) as [->|]; [exact E|]. apply H. lia.
Qed.

Lemma get_app_r pre e j :
  0 <= j -> TypedArray.get (pre ++ e) (len pre + j) = TypedArray.get e j.
Proof.
  intros Hj. unfold TypedArray.get, len.
  destruct (Z.ltb_spec (Z.of_nat (length pre) + j) 0); [lia|].
  destruct (Z.ltb_spec j 0); [lia|].
  replace (Z.to_nat (Z.of_nat (length pre) + j)) with (length pre + Z.to_nat j)%nat by lia.
  now rewrite lookup_app_r, Nat.add_comm, Nat.add_sub by lia.
Qed.

Lemma signature_at_app_r pre e k :
  0 <= k -> signature_at (pre ++ e) (len pre + k) = signature_at e k.
Proof.
  intros Hk. unfold signature_at, eocd_signature. cbn [forallb].
  rewrite <- !Z.add_assoc, !get_app_r by lia. reflexivity.
Qed.

(** The backward scan of [pre ++ e] stops where the backward scan of [e]
    alone stops, when that finds the signature. *)
Lemma findLastIndex_app pre e k :
  findLastIndex e signature_at = k -> 0 <= k ->
  findLastIndex (pre ++ e) signature_at = len pre + k.
Proof.
  intros Hf Hk. unfold findLastIndex in *.
  destruct (findLastIndex_below_spec (signature_at e) (length e)) as [[Hm _]|(Hr & Hp & Hl)];
    cbv zeta in *; rewrite Hf in *; [lia|].
  pose proof (len_nonneg pre) as Hpre.
  apply findLastIndex_below_last.
  - rewrite length_app. unfold len in *. lia.
  - now rewrite signature_at_app_r.
  - intros i Hi. rewrite length_app in Hi.
    replace i with (len pre + (i - len pre)) by lia.
    rewrite signature_at_app_r by lia. apply Hl. unfold len in *. lia.
Qed.

Section Append.
Variable encode : string -> Uint8Array.
Variable Date_of : number -> Date.
Variable deflate_raw : Uint8Array -> Uint8Array.

Lemma append_spec now b buf opt :
  let e := (now, buf, opt) in
  entry_method e = Num 0 \/ entry_method e = Num 8 ->
  Builder.append encode Date_of deflate_raw now b buf opt
  = Ok ({| Builder.centralDirectory :=
             Builder.centralDirectory b ++ [entry_record encode Date_of deflate_raw e];
           Builder.contents :=
             Builder.contents b ++ [entry_content encode Date_of deflate_raw e] |},
        Num (len (Builder.contents b) + 1)).
Proof.
  intros e Hm. subst e.
  unfold Builder.append, Builder.push, entry_record, entry_content, entry_body.
  unfold entry_method in *. cbn [fst snd] in *.
  destruct Hm as [Hm|Hm]; rewrite Hm; reflexivity.
Qed.

Lemma append_all_spec b entries :
  Forall (fun e => entry_method e = Num 0 \/ entry_method e = Num 8) entries ->
  append_all encode Date_of deflate_raw b entries
  = Ok {| Builder.centralDirectory :=
            Builder.centralDirectory b ++ map (entry_record encode Date_of deflate_raw) entries;
          Builder.contents :=
            Builder.contents b ++ map (entry_content encode Date_of deflate_raw) entries |}.
Proof.
  intros H. revert b. induction H as [|[[now buf] opt] entries He H IH]; intros b.
  - cbn [append_all map]. rewrite !app_nil_r. now destruct b.
  - cbn [append_all map]. rewrite (append_spec now b buf opt He).
    rewrite IH. cbn [Builder.centralDirectory Builder.contents].
    now rewrite <- !app_assoc.
Qed.
End Append.

Lemma directory_region_cons cd cds :
  directory_region (cd :: cds) = Layout.centralDirectoryEntry cd ++ directory_region cds.
Proof. reflexivity. Qed.

Lemma locals_region_cons c cs :
  locals_region (c :: cs) = local_part c ++ locals_region cs.
Proof. reflexivity. Qed.

Lemma repeatM_from_directory cds pre tail :
  Forall ranges_fit cds ->
  repeatM (length cds) CentralDirectoryEntry.from
    (at_split pre (directory_region cds ++ tail))
  = Ok (map Parsed.centralDirectoryEntry cds, at_split (pre ++ directory_region cds) tail).
Proof.
  intros H. revert pre. induction H as [|cd cds (Hfn & Hef & Hc) H IH]; intros pre.
  - cbn. now rewrite app_nil_r.
  - cbn [length repeatM map]. rewrite directory_region_cons, <- app_assoc.
    erewrite bind_ok by (apply CentralDirectoryEntry_from_layout; assumption).
    erewrite bind_ok by apply IH. unfold ret. now rewrite <- app_assoc.
Qed.

Lemma u32_len {A} (l : list A) : len l < 2 ^ 32 -> u32 (Num (len l)) = Num (len l).
Proof.
  intros H. apply u32_id. unfold is_u32. pose proof (len_nonneg l). lia.
Qed.

Lemma mapM_read_contents cs cds done rest o :
  Forall2 describes cds cs ->
  len done + len (locals_region cs) < 2 ^ 32 ->
  exists s',
    mapM Extractor.read_content
      (map Parsed.centralDirectoryEntry (with_offsets (len done) cds cs))
      {| bytes := done ++ locals_region cs ++ rest; offset := o |}
    = Ok (map parsed_content cs, s').
Proof.
  intros H. revert done o.
  induction H as [|cd c cds cs (Hcs & Hb & Hfn & Hef & Hdd) H IH]; intros done o Hlen.
  - eexists. reflexivity.
  - pose proof (len_nonneg done) as Hd. pose proof (len_nonneg (locals_region cs)) as Hl.
    pose proof (len_nonneg (local_part c)) as Hc.
    rewrite locals_region_cons, len_app in Hlen.
    destruct (IH (done ++ local_part c) (len (done ++ local_part c)))
      as [s' Hs']; [rewrite len_app; lia|].
    exists s'. cbn [with_offsets map mapM].
    unfold Extractor.read_content at 1.
    cbn [Parsed.centralDirectoryEntry CentralDirectoryEntry.headerOffset
         CentralDirectoryEntry.with_headerOffset CentralDirectoryEntry.base
         Parsed.localFileHeader LocalFileHeader.compressedSize].
    rewrite Hcs, !u32_len by lia.
    rewrite locals_region_cons. unfold local_part in *. rewrite <- !app_assoc.
    rewrite !(bind_assoc (moveTo _)).
    erewrite bind_ok by apply moveTo_split.
    rewrite !(bind_assoc LocalFileHeader.from).
    erewrite bind_ok by (apply LocalFileHeader_from_layout; assumption).
    rewrite !(bind_assoc (subarray _)).
    erewrite bind_ok by (apply subarray_split; reflexivity).
    rewrite Hdd. unfold bind at 1, ret at 1.
    fold (parsed_content c).
    unfold at_split. rewrite <- !app_assoc, !len_app.
    rewrite <- !app_assoc, !len_app in Hs'.
    erewrite bind_ok by exact Hs'. reflexivity.
Qed.

Lemma with_offsets_ranges_fit o cds cs :
  Forall ranges_fit cds -> Forall ranges_fit (with_offsets o cds cs).
Proof.
  intros H. revert o cs. induction H as [|cd cds Hcd H IH]; intros o [|c cs];
    cbn [with_offsets]; try constructor; auto.
Qed.

Lemma u16_len_id {A} (l : list A) : len l < 2 ^ 16 -> u16 (Num (len l)) = Num (len l).
Proof.
  intros H. apply u16_id. unfold is_u16. pose proof (len_nonneg l). lia.
Qed.

Lemma constructor_canonical cs cds comment :
  Forall2 describes cds cs ->
  Forall ranges_fit cds ->
  len cs < 2 ^ 16 ->
  len (locals_region cs) < 2 ^ 32 ->
  len comment < 2 ^ 16 ->
  let cds' := with_offsets 0 cds cs in
  let eocd := built_eocd (len cs) (len (directory_region cds')) (len (locals_region cs))
                comment in
  findLastIndex (Layout.endOfCentralDirectoryRecord eocd) signature_at = 0 ->
  Extractor.constructor
    (locals_region cs ++ directory_region cds' ++ Layout.endOfCentralDirectoryRecord eocd)
  = Ok {| Extractor.eocd := Parsed.endOfCentralDirectoryRecord eocd;
          Extractor.centralDirectory := map Parsed.centralDirectoryEntry cds';
          Extractor.contents := map parsed_content cs |}.
Proof.
  intros Hd Hr Hn Hl Hc cds' eocd Hsig.
  assert (Hlen : length cds' = length cs).
  { unfold cds'. rewrite with_offsets_length. exact (Forall2_length _ _ _ Hd). }
  assert (Hr' : Forall ranges_fit cds') by (apply with_offsets_ranges_fit; exact Hr).
  assert (Hco : EndOfCentralDirectoryRecord.cdOffset (Parsed.endOfCentralDirectoryRecord eocd)
                = Num (len (locals_region cs))) by (apply u32_len; exact Hl).
  assert (Hnf : EndOfCentralDirectoryRecord.numOfFiles (Parsed.endOfCentralDirectoryRecord eocd)
                = Num (len cs)) by (apply u16_len_id; exact Hn).
  assert (Hce : len (EndOfCentralDirectoryRecord.commentBytes eocd) < 2 ^ 16) by exact Hc.
  clearbody eocd.
  set (locals := locals_region cs) in *. set (dir := directory_region cds') in *.
  set (e := Layout.endOfCentralDirectoryRecord eocd) in *.
  unfold Extractor.constructor, Extractor.parse.
  unfold bind at 1, get_bytes at 1. cbn [bytes new].
  rewrite (app_assoc locals dir e).
  rewrite (findLastIndex_app (locals ++ dir) e 0 Hsig) by lia. rewrite Z.add_0_r.
  unfold new. erewrite bind_ok by apply moveTo_split.
  rewrite <- (app_nil_r e) at 1. unfold e at 1.
  erewrite bind_ok by (apply EndOfCentralDirectoryRecord_from_layout; exact Hce).
  fold e. rewrite Hco, Hnf.
  unfold at_split at 1. rewrite app_nil_r, <- app_assoc.
  erewrite bind_ok by apply moveTo_split.
  unfold Array_from. cbn [ToInteger].
  rewrite to_nat_len, <- Hlen. unfold dir at 1.
  erewrite bind_ok by (apply repeatM_from_directory; exact Hr').
  fold dir. unfold at_split at 1.
  pose proof (mapM_read_contents cs cds [] (dir ++ e) (len (locals ++ dir)) Hd) as Hm.
  destruct Hm as [s' Hs']; [change (len []) with 0; fold locals; lia|].
  change (len []) with 0 in Hs'. fold cds' in Hs'. cbn [app] in Hs'. fold locals in Hs'.
  rewrite <- app_assoc.
  erewrite bind_ok by exact Hs'. reflexivity.
Qed.

Section RoundTripProof.
Variable encode : string -> Uint8Array.
Variable Date_of : number -> Date.
Variable deflate_raw : Uint8Array -> Uint8Array.
Variable inflate_raw : Uint8Array -> option Uint8Array.

Local Abbreviation entry_content' := (entry_content encode Date_of deflate_raw).
Local Abbreviation entry_record' := (entry_record encode Date_of deflate_raw).
Local Abbreviation entry_valid' := (entry_valid encode deflate_raw).

Lemma entry_describes e :
  entry_valid' e -> describes (entry_record' e) (entry_content' e).
Proof.
  intros (Hm & Hfn & Hef & Hc & Hbuf & Hbody). unfold describes.
  split; [reflexivity|]. split; [exact Hbody|]. split; [exact Hfn|]. split; [exact Hef|].
  reflexivity.
Qed.

Lemma entry_ranges_fit e : entry_valid' e -> ranges_fit (entry_record' e).
Proof.
  intros (Hm & Hfn & Hef & Hc & Hbuf & Hbody). unfold ranges_fit.
  split; [exact Hfn|]. split; [exact Hef|exact Hc].
Qed.

Lemma archive_of_spec entries comment :
  Forall entry_valid' entries ->
  archive_of encode Date_of deflate_raw entries comment
  = Ok (locals_region (map entry_content' entries)
        ++ directory_region
             (with_offsets 0 (map entry_record' entries) (map entry_content' entries))
        ++ Layout.endOfCentralDirectoryRecord
             (archive_eocd encode Date_of deflate_raw entries comment)).
Proof.
  intros Hv. unfold archive_of.
  rewrite append_all_spec by (eapply Forall_impl; [exact Hv|]; intros e He; apply He).
  cbn [Builder.new Builder.centralDirectory Builder.contents app].
  rewrite build_spec by (cbn [Builder.centralDirectory Builder.contents];
                         now rewrite !length_map).
  reflexivity.
Qed.

Lemma pick_parsed_content e :
  (forall x, inflate_raw (deflate_raw x) = Some x) ->
  entry_valid' e ->
  let c := parsed_content (entry_content' e) in
  LocalFileHeader.fileNameBytes (header c) = encode (Builder.filepath (snd e))
  /\ LocalFileHeader.uncompressedSize (header c) = Num (len (snd (fst e)))
  /\ (if strict_eq (LocalFileHeader.method (header c)) 0 then Ok (Some (body c))
      else if strict_eq (LocalFileHeader.method (header c)) 8
           then Ok (inflate_raw (body c))
           else Err (UnsupportedMethod (LocalFileHeader.method (header c))))
     = Ok (Some (snd (fst e))).
Proof.
  intros Hid (Hm & Hfn & Hef & Hc & Hbuf & Hbody) c. subst c.
  split; [reflexivity|]. split.
  - cbn [parsed_content header Parsed.localFileHeader LocalFileHeader.uncompressedSize
         entry_content Builder.make_header].
    apply u32_len. exact Hbuf.
  - cbn [parsed_content header body Parsed.localFileHeader LocalFileHeader.method
         entry_content Builder.make_header]. unfold entry_body.
    destruct Hm as [Hm|Hm]; rewrite Hm; cbn; [reflexivity|]. now rewrite Hid.
Qed.

(** C1 (as the code has it). For every list of fewer than 65536 entries,
    each appended with method 0 or 8, a name, an extra field and a comment
    shorter than 65536 bytes and less than 2^32 bytes of content and of
    stored body: when the local headers and bodies together take less than
    2^32 bytes, the archive comment is shorter than 65536 bytes, the
    backward scan for the signature, run on the serialized end record
    alone, finds its first byte, and the inflater undoes the deflater,
    then appending the entries to a new builder, building, and
    constructing an extractor from the bytes succeeds and exposes as many
    entries, in the same order, each with the appended name bytes, the
    length of the appended content as its uncompressed size, and [pick]
    returning the appended content. *)
Theorem build_extract_round_trip
    (entries : list (Date * Uint8Array * Builder.options)) (comment : option string) :
  (forall x, inflate_raw (deflate_raw x) = Some x) ->
  Forall entry_valid' entries ->
  len entries < 2 ^ 16 ->
  len (locals_region (map entry_content' entries)) < 2 ^ 32 ->
  len (Builder.encode_opt encode comment) < 2 ^ 16 ->
  findLastIndex
    (Layout.endOfCentralDirectoryRecord
       (archive_eocd encode Date_of deflate_raw entries comment)) signature_at = 0 ->
  exists ex,
    extract_built encode Date_of deflate_raw entries comment = Ok ex
    /\ len (Extractor.contents ex) = len entries
    /\ forall i e, entries !! i = Some e ->
         exists c,
           Extractor.contents ex !! i = Some c
           /\ LocalFileHeader.fileNameBytes (header c) = encode (Builder.filepath (snd e))
           /\ LocalFileHeader.uncompressedSize (header c) = Num (len (snd (fst e)))
           /\ Extractor.pick inflate_raw ex (Z.of_nat i) = Ok (Some (snd (fst e))).
Proof.
  intros Hid Hv Hn Hl Hc Hsig.
  eexists. split; [|split].
  - unfold extract_built. rewrite archive_of_spec by exact Hv.
    apply constructor_canonical.
    + apply Forall2_fmap, Forall_Forall2_diag.
      eapply Forall_impl; [exact Hv|]. apply entry_describes.
    + apply Forall_fmap. eapply Forall_impl; [exact Hv|]. apply entry_ranges_fit.
    + unfold len in *. now rewrite length_map.
    + exact Hl.
    + exact Hc.
    + exact Hsig.
  - cbn [Extractor.contents]. unfold len. now rewrite !length_map.
  - intros i e Hi. cbn [Extractor.contents].
    assert (He : entry_valid' e) by (eapply Forall_lookup_1; eassumption).
    destruct (pick_parsed_content e Hid He) as (Hfn & Hus & Hp). cbv zeta in *.
    exists (parsed_content (entry_content' e)).
    assert (Hlk : map parsed_content (map entry_content' entries) !! i
                  = Some (parsed_content (entry_content' e))).
    { change (map parsed_content (map entry_content' entries))
        with (parsed_content <$> (entry_content' <$> entries)).
      now rewrite !list_lookup_fmap, Hi. }
    split; [exact Hlk|]. split; [exact Hfn|]. split; [exact Hus|].
    unfold Extractor.pick. cbn [Extractor.contents].
    rewrite at_in_range.
    + rewrite Nat2Z.id, Hlk. exact Hp.
    + apply lookup_lt_Some in Hi. unfold len. rewrite !length_map. lia.
Qed.

End RoundTripProof.


Lemma build_extract_round_trip_witness :
  exists ex,
    extract_built Host.encode Host.Date_of Host.deflate_raw
      [Host.stored "a.txt"; Host.deflated "b.txt"] None = Ok ex
    /\ len (Extractor.contents ex) = 2
    /\ Extractor.pick Host.inflate_raw ex 0 = Ok (Some Host.hello)
    /\ Extractor.pick Host.inflate_raw ex 1 = Ok (Some Host.hello).
Proof.
  destruct (build_extract_round_trip Host.encode Host.Date_of Host.deflate_raw
              Host.inflate_raw [Host.stored "a.txt"; Host.deflated "b.txt"] None)
    as (ex & Hex & Hlen & Hall).
  - intros x. reflexivity.
  - repeat constructor; vm_compute; congruence.
  - vm_compute. reflexivity.
  - vm_compute. reflexivity.
  - vm_compute. reflexivity.
  - vm_compute. reflexivity.
  - exists ex. split; [exact Hex|]. split; [exact Hlen|]. split.
    + destruct (Hall 0%nat _ eq_refl) as (c & _ & _ & _ & Hp). exact Hp.
    + destruct (Hall 1%nat _ eq_refl) as (c & _ & _ & _ & Hp). exact Hp.
Defined.

Lemma len_locals_region_app cs1 cs2 :
  len (locals_region (cs1 ++ cs2)) = len (locals_region cs1) + len (locals_region cs2).
Proof. unfold locals_region. now rewrite map_app, concat_app, len_app. Qed.

Lemma len_locals_region_replicate k c :
  len (locals_region (replicate k c)) = Z.of_nat k * len (local_part c).
Proof.
  induction k as [|k IH]; [reflexivity|].
  cbn [replicate]. rewrite locals_region_cons, len_app, IH. lia.
Qed.

Lemma len_directory_region_app cds1 cds2 :
  len (directory_region (cds1 ++ cds2))
  = len (directory_region cds1) + len (directory_region cds2).
Proof. unfold directory_region. now rewrite map_app, concat_app, len_app. Qed.

Lemma len_directory_region_replicate k cd :
  len (directory_region (replicate k cd))
  = Z.of_nat k * len (Layout.centralDirectoryEntry cd).
Proof.
  induction k as [|k IH]; [reflexivity|].
  cbn [replicate]. rewrite directory_region_cons, len_app, IH. lia.
Qed.

Lemma len_directory_with_offsets o cds cs :
  len (directory_region (with_offsets o cds cs)) = len (directory_region cds).
Proof.
  revert o cs. induction cds as [|cd cds IH]; intros o [|c cs]; try reflexivity.
  cbn [with_offsets]. rewrite !directory_region_cons, !len_app, IH.
  now rewrite !len_layout_centralDirectoryEntry.
Qed.

Lemma read_at_end pre :
  read (at_split pre []) = Err (IndexInvalid (Num (len pre + 1))).
Proof.
  unfold read, post_increment, bind, get_offset, set_offset, at_split.
  cbn [bytes offset add le]. rewrite app_nil_r.
  destruct (Z.leb_spec (len pre + 1) (len pre)); [lia|reflexivity].
Qed.

Lemma readAsUint_at_end pre :
  readAsUint (at_split pre []) = Err (IndexInvalid (Num (len pre + 1))).
Proof.
  unfold readAsUint, readAsInt.
  apply bind_err. apply bind_err. apply read_at_end.
Qed.

(** Twelve bytes are too few for an end record: the parser stops at the
    end of the buffer. *)
Lemma eocd_from_truncated pre b0 b1 b2 b3 b4 b5 b6 b7 b8 b9 b10 b11 :
  EndOfCentralDirectoryRecord.from
    (at_split pre [b0; b1; b2; b3; b4; b5; b6; b7; b8; b9; b10; b11])
  = Err (IndexInvalid (Num (len pre + 13))).
Proof.
  unfold EndOfCentralDirectoryRecord.from.
  erewrite bind_ok by apply readAsUint_split.
  do 4 (erewrite bind_ok by apply readAsUshort_split).
  erewrite bind_err; [reflexivity|].
  rewrite readAsUint_at_end. rewrite !len_app.
  change (len [b0; b1; b2; b3]) with 4. change (len [b4; b5]) with 2.
  change (len [b6; b7]) with 2. change (len [b8; b9]) with 2. change (len [b10; b11]) with 2.
  do 3 f_equal. lia.
Qed.

Lemma crowd_valid :
  Forall (entry_valid Host.encode Host.deflate_raw) Crowd.entries.
Proof.
  unfold Crowd.entries. apply Forall_app. split; apply Forall_replicate;
    repeat split; vm_compute; auto; congruence.
Qed.

Lemma crowd_locals_len :
  len (locals_region
         (map (entry_content Host.encode Host.Date_of Host.deflate_raw) Crowd.entries))
  = 610565.
Proof.
  unfold Crowd.entries. rewrite map_app.
  change (map ?f (replicate ?k ?x)) with (f <$> replicate k x).
  rewrite !fmap_replicate, len_locals_region_app, !len_locals_region_replicate.
  reflexivity.
Qed.

Lemma crowd_directory_len :
  len (directory_region
         (with_offsets 0
            (map (entry_record Host.encode Host.Date_of Host.deflate_raw) Crowd.entries)
            (map (entry_content Host.encode Host.Date_of Host.deflate_raw) Crowd.entries)))
  = 919045.
Proof.
  rewrite len_directory_with_offsets. unfold Crowd.entries. rewrite map_app.
  change (map ?f (replicate ?k ?x)) with (f <$> replicate k x).
  rewrite !fmap_replicate, len_directory_region_app, !len_directory_region_replicate.
  reflexivity.
Qed.

Lemma crowd_len : len Crowd.entries = 19280.
Proof. unfold Crowd.entries, len. rewrite length_app, !length_replicate. reflexivity. Qed.

Lemma crowd_eocd :
  archive_eocd Host.encode Host.Date_of Host.deflate_raw Crowd.entries None
  = built_eocd 19280 919045 610565 [].
Proof.
  unfold archive_eocd. cbv zeta.
  rewrite crowd_directory_len, crowd_locals_len.
  unfold len at 1. rewrite length_map. fold (len Crowd.entries). now rewrite crowd_len.
Qed.

(** C1 as stated fails: 19280 empty stored files, 12885 named "aa" and
    6395 named "a", are valid entries, yet the archive built from them
    cannot be read back.  The count 19280 is 0x4B50 and the directory
    takes 919045 bytes, 0x000E0605, so the bytes 10..13 of the end record
    are 50 4B 05 06; the backward scan stops there, ten bytes too late,
    and the parser runs off the end of the buffer. *)
Lemma crowd_archive_not_extracted :
  Forall (entry_valid Host.encode Host.deflate_raw) Crowd.entries
  /\ len Crowd.entries = 19280
  /\ findLastIndex
       (Layout.endOfCentralDirectoryRecord
          (archive_eocd Host.encode Host.Date_of Host.deflate_raw Crowd.entries None))
       signature_at = 10
  /\ extract_built Host.encode Host.Date_of Host.deflate_raw Crowd.entries None
     = Err (IndexInvalid (Num 1529633)).
Proof.
  split; [exact crowd_valid|]. split; [exact crowd_len|].
  assert (Hsig : findLastIndex
            (Layout.endOfCentralDirectoryRecord (built_eocd 19280 919045 610565 []))
            signature_at = 10) by (vm_compute; reflexivity).
  split; [rewrite crowd_eocd; exact Hsig|].
  unfold extract_built. rewrite archive_of_spec by exact crowd_valid.
  assert (Hpre : len (locals_region
                   (map (entry_content Host.encode Host.Date_of Host.deflate_raw) Crowd.entries)
                 ++ directory_region
                      (with_offsets 0
                         (map (entry_record Host.encode Host.Date_of Host.deflate_raw)
                            Crowd.entries)
                         (map (entry_content Host.encode Host.Date_of Host.deflate_raw)
                            Crowd.entries)))
                 = 1529610).
  { rewrite len_app, crowd_locals_len, crowd_directory_len. reflexivity. }
  rewrite crowd_eocd.
  set (pre := locals_region _ ++ directory_region _) in *.
  rewrite app_assoc. fold pre.
  unfold Extractor.constructor, Extractor.parse.
  unfold bind at 1, get_bytes at 1. cbn [bytes new].
  rewrite (findLastIndex_app pre _ 10 Hsig) by lia.
  change (Layout.endOfCentralDirectoryRecord (built_eocd 19280 919045 610565 []))
    with ([x50; x4b; x05; x06; x00; x00; x00; x00; x50; x4b]
          ++ [x50; x4b; x05; x06; x0e; x00; x05; x51; x09; x00; x00; x00]).
  rewrite app_assoc. unfold new.
  replace (len pre + 10)
    with (len (pre ++ [x50; x4b; x05; x06; x00; x00; x00; x00; x50; x4b]))
    by (rewrite len_app; reflexivity).
  erewrite bind_ok by apply moveTo_split.
  erewrite bind_err by apply eocd_from_truncated.
  rewrite len_app, Hpre. reflexivity.
Qed.
Lemma flock_len : len (Builder.contents Flock.builder) = 65536.
Proof.
  unfold Flock.builder, Flock.entries, len. cbn [Builder.contents].
  rewrite length_map, length_replicate. reflexivity.
Qed.

Lemma flock_locals_len : len (locals_region (Builder.contents Flock.builder)) = 2031616.
Proof.
  unfold Flock.builder, Flock.entries. cbn [Builder.contents].
  change (map ?f (replicate ?k ?x)) with (f <$> replicate k x).
  rewrite fmap_replicate, len_locals_region_replicate. reflexivity.
Qed.

Lemma flock_directory_len :
  len (directory_region
         (with_offsets 0 (Builder.centralDirectory Flock.builder)
            (Builder.contents Flock.builder)))
  = 3080192.
Proof.
  rewrite len_directory_with_offsets. unfold Flock.builder, Flock.entries.
  cbn [Builder.centralDirectory].
  change (map ?f (replicate ?k ?x)) with (f <$> replicate k x).
  rewrite fmap_replicate, len_directory_region_replicate. reflexivity.
Qed.

(** C6 as stated fails: appending 65536 empty stored files leaves a
    builder whose lists are aligned, and [build] succeeds on it, but the
    two count fields of the end record, which starts at byte 5111808 of
    the archive, hold 0 and not 65536: [writeUshort] keeps the low 16
    bits. *)
Lemma flock_counts_wrap :
  append_all Host.encode Host.Date_of Host.deflate_raw Builder.new Flock.entries
  = Ok Flock.builder
  /\ length (Builder.centralDirectory Flock.builder)
     = length (Builder.contents Flock.builder)
  /\ len (Builder.contents Flock.builder) = 65536
  /\ exists b' blob,
       Builder.build Host.encode Flock.builder None = Ok (b', blob)
       /\ len (locals_region (Builder.contents Flock.builder)) = 2031616
       /\ len (directory_region (Builder.centralDirectory b')) = 3080192
       /\ len (Builder.blob_bytes blob) = 5111830
       /\ u32_at (Builder.blob_bytes blob) 5111808 = 0x06054b50
       /\ u16_at (Builder.blob_bytes blob) 5111816 = 0
       /\ u16_at (Builder.blob_bytes blob) 5111818 = 0.
Proof.
  assert (Hl : length (Builder.centralDirectory Flock.builder)
               = length (Builder.contents Flock.builder)).
  { unfold Flock.builder. cbn [Builder.centralDirectory Builder.contents].
    now rewrite !length_map. }
  split.
  { rewrite append_all_spec; [reflexivity|].
    apply Forall_replicate. left. reflexivity. }
  split; [exact Hl|]. split; [exact flock_len|].
  pose proof (build_spec Host.encode Flock.builder None Hl) as Hb. cbv zeta in Hb.
  eexists _, _. split; [exact Hb|].
  cbn [Builder.centralDirectory Builder.contents Builder.blob_bytes].
  rewrite flock_len, flock_locals_len, flock_directory_len.
  split; [reflexivity|]. split; [reflexivity|].
  set (cs := Builder.contents Flock.builder).
  set (cds := with_offsets 0 (Builder.centralDirectory Flock.builder) cs).
  set (e := built_eocd 65536 3080192 2031616 _).
  destruct (archive_fields (locals_region cs) cds e) as (H0 & H8 & H10 & _).
  cbv zeta in H0, H8, H10.
  unfold cds, cs in H0, H8, H10.
  rewrite flock_locals_len, flock_directory_len in H0, H8, H10.
  split.
  { rewrite !len_app. unfold cds, cs.
    rewrite flock_locals_len, flock_directory_len. reflexivity. }
  split; [exact H0|]. split; [exact H8|exact H10].
Qed.

(** ** The byte cursor: bounds, stores and views *)

Lemma set_offset_le z s :
  z <= len (bytes s) -> set_offset (Num z) s = Ok (tt, {| bytes := bytes s; offset := z |}).
Proof.
  intros H. unfold set_offset. cbn [le ToInteger].
  destruct (Z.leb_spec z (len (bytes s))); [reflexivity|lia].
Qed.

Lemma set_offset_gt z s :
  len (bytes s) < z -> set_offset (Num z) s = Err (IndexInvalid (Num z)).
Proof.
  intros H. unfold set_offset. cbn [le ToInteger].
  destruct (Z.leb_spec z (len (bytes s))); [lia|reflexivity].
Qed.

Lemma read_ok s :
  offset s + 1 <= len (bytes s) ->
  read s = Ok (TypedArray.get (bytes s) (offset s), {| bytes := bytes s; offset := offset s + 1 |}).
Proof.
  intros H. unfold read, post_increment, bind, get_offset, get_bytes, ret. cbn [add].
  now rewrite set_offset_le.
Qed.

Lemma read_err s :
  len (bytes s) < offset s + 1 -> read s = Err (IndexInvalid (Num (offset s + 1))).
Proof.
  intros H. unfold read, post_increment, bind, get_offset, get_bytes, ret. cbn [add].
  now rewrite set_offset_gt.
Qed.

Lemma advances_read : advances read 1.
Proof.
  intros s Hs. destruct (Z_le_gt_dec (offset s + 1) (len (bytes s))) as [H|H].
  - left. split; [exact H|]. eexists. now apply read_ok.
  - right. split; [lia|]. rewrite read_err by lia. do 3 f_equal. lia.
Qed.

Lemma advances_ret {A} (a : A) : advances (ret a) 0.
Proof.
  intros s Hs. left. split; [lia|]. exists a. unfold ret. destruct s as [b o]. cbn.
  do 3 f_equal. lia.
Qed.

Lemma advances_bind {A B} (m : M A) (k : A -> M B) i j :
  0 <= i -> 0 <= j ->
  advances m i -> (forall a, advances (k a) j) -> advances (bind m k) (i + j).
Proof.
  intros Hi Hj Hm Hk s Hs.
  destruct (Hm s Hs) as [[H1 [v E]]|[H1 E]].
  - rewrite (bind_ok _ _ _ _ _ E).
    destruct (Hk v {| bytes := bytes s; offset := offset s + i |}) as [[H2 [w E2]]|[H2 E2]];
      cbn [bytes offset] in *; [lia| |].
    + left. split; [lia|]. exists w. rewrite E2. do 3 f_equal. lia.
    + right. split; [lia|exact E2].
  - right. split; [lia|]. now rewrite (bind_err _ _ _ _ E).
Qed.

Lemma advances_readAsUshort : advances readAsUshort 2.
Proof.
  unfold readAsUshort. change 2 with (1 + (1 + 0)).
  repeat (apply advances_bind; [lia|lia|apply advances_read|intros ?]). apply advances_ret.
Qed.

Lemma advances_readAsInt : advances readAsInt 4.
Proof.
  unfold readAsInt. change 4 with (1 + (1 + (1 + (1 + 0)))).
  repeat (apply advances_bind; [lia|lia|apply advances_read|intros ?]). apply advances_ret.
Qed.

Lemma advances_readAsUint : advances readAsUint 4.
Proof.
  unfold readAsUint. change 4 with (4 + 0).
  apply advances_bind; [lia|lia|apply advances_readAsInt|intros ?]. apply advances_ret.
Qed.

Lemma s32_at_u32 a p : ToUint32 (Num (s32_at a p)) = u32_at a p.
Proof.
  unfold s32_at, s32_of, u32_at. rewrite ToUint32_ToInt32.
  apply ToUint32_small, u32_of_range.
Qed.

Lemma readAsUshort_value s v s' :
  readAsUshort s = Ok (v, s') -> 0 <= offset s -> v = Num (u16_at (bytes s) (offset s)).
Proof.
  intros H Ho. unfold readAsUshort in H.
  apply bind_inv in H as (v0 & s0 & H0 & H). apply read_inv in H0 as [-> ->]; [|exact Ho].
  apply bind_inv in H as (v1 & s1 & H1 & H).
  apply read_inv in H1 as [-> ->]; [|cbn [offset]; lia].
  unfold ret in H. rewrite shl_byte in H by lia. cbn [add bytes offset] in H.
  now injection H as <- _.
Qed.

Lemma readAsUint_value s v s' :
  readAsUint s = Ok (v, s') -> 0 <= offset s -> v = Num (u32_at (bytes s) (offset s)).
Proof.
  intros H Ho. unfold readAsUint in H.
  apply bind_inv in H as (i & s1 & H1 & H).
  apply readAsInt_inv in H1 as [-> ->]; [|exact Ho].
  unfold ret in H. rewrite ushr_val in H by lia. injection H as <- _.
  f_equal. change (2 ^ 0) with 1. rewrite Z.div_1_r. apply (s32_at_u32 (bytes s) (offset s)).
Qed.

Lemma read_value s v s' :
  read s = Ok (v, s') -> 0 <= offset s -> v = Num (byte_to_Z (byte_at (bytes s) (offset s))).
Proof. intros H Ho. now apply read_inv in H as [-> _]. Qed.

Lemma advances_result {A} (m : M A) k (f : t -> A) s :
  advances m k -> 0 <= offset s <= len (bytes s) ->
  (forall v s', m s = Ok (v, s') -> 0 <= offset s -> v = f s) ->
  m s = read_result s k (f s).
Proof.
  intros Hm Hs Hv. unfold read_result.
  destruct (Hm s) as [[H1 [v E]]|[H1 E]]; [lia| |].
  - destruct (Z.leb_spec (offset s + k) (len (bytes s))); [|lia].
    rewrite E. now rewrite (Hv _ _ E) by lia.
  - destruct (Z.leb_spec (offset s + k) (len (bytes s))); [lia|]. exact E.
Qed.

(** X1. On a cursor whose offset lies inside its array, each reader
    either has the bytes it needs, and then returns the unsigned byte, the
    unsigned 16-bit, the signed 32-bit or the unsigned 32-bit little-endian
    value stored at the offset and moves the offset 1, 2, 4 or 4 bytes
    forward, or it throws 'Index is invalid: ' followed by the length of
    the array plus one, however many bytes were left. *)
Theorem readers_need_room (s : t) :
  0 <= offset s <= len (bytes s) ->
  read s = read_result s 1 (Num (byte_to_Z (byte_at (bytes s) (offset s))))
  /\ readAsUshort s = read_result s 2 (Num (u16_at (bytes s) (offset s)))
  /\ readAsInt s = read_result s 4 (Num (s32_at (bytes s) (offset s)))
  /\ readAsUint s = read_result s 4 (Num (u32_at (bytes s) (offset s))).
Proof.
  intros Hs. repeat split.
  - apply (advances_result read 1 (fun s => Num (byte_to_Z (byte_at (bytes s) (offset s)))));
      [apply advances_read|exact Hs|apply read_value].
  - apply (advances_result readAsUshort 2 (fun s => Num (u16_at (bytes s) (offset s))));
      [apply advances_readAsUshort|exact Hs|apply readAsUshort_value].
  - apply (advances_result readAsInt 4 (fun s => Num (s32_at (bytes s) (offset s))));
      [apply advances_readAsInt|exact Hs|].
    intros v s' H Ho. now apply readAsInt_inv in H as [-> _].
  - apply (advances_result readAsUint 4 (fun s => Num (u32_at (bytes s) (offset s))));
      [apply advances_readAsUint|exact Hs|apply readAsUint_value].
Qed.

Lemma readers_need_room_witness :
  let s := {| bytes := [x50; x4b; x05; x06; xff]; offset := 0 |} in
  read s = Ok (Num 80, {| bytes := bytes s; offset := 1 |})
  /\ readAsUint s = Ok (Num 0x06054b50, {| bytes := bytes s; offset := 4 |})
  /\ readAsInt {| bytes := bytes s; offset := 2 |}
     = Err (IndexInvalid (Num 6)).
Proof.
  cbv zeta.
  destruct (readers_need_room {| bytes := [x50; x4b; x05; x06; xff]; offset := 0 |})
    as (H1 & _ & _ & H4); [split; vm_compute; congruence|].
  destruct (readers_need_room {| bytes := [x50; x4b; x05; x06; xff]; offset := 2 |})
    as (_ & _ & H3 & _); [split; vm_compute; congruence|].
  split; [exact H1|]. split; [exact H4|exact H3].
Defined.

Lemma cursor_split s k :
  0 <= offset s -> 0 <= k -> offset s + k <= len (bytes s) ->
  let pre := take (Z.to_nat (offset s)) (bytes s) in
  let mid := take (Z.to_nat k) (drop (Z.to_nat (offset s)) (bytes s)) in
  let rest := drop (Z.to_nat (offset s + k)) (bytes s) in
  s = at_split pre (mid ++ rest) /\ len pre = offset s /\ len mid = k.
Proof.
  intros Ho Hk Hn pre mid rest. destruct s as [b o]. cbn [bytes offset] in *.
  assert (Hpre : len pre = o).
  { subst pre. unfold len in *. rewrite length_take. lia. }
  assert (Hmid : len mid = k).
  { subst mid. unfold len in *. rewrite length_take, length_drop. lia. }
  split; [|auto]. unfold at_split. f_equal; [|auto].
  subst pre mid rest.
  replace (Z.to_nat (o + k)) with (Z.to_nat o + Z.to_nat k)%nat by lia.
  rewrite <- drop_drop, take_drop. now rewrite take_drop.
Qed.

Lemma len_4 {A} (l : list A) : len l = 4 -> exists a b c d, l = [a; b; c; d].
Proof.
  destruct l as [|a [|b [|c [|d [|e l]]]]]; unfold len; cbn; intros H; try lia.
  now exists a, b, c, d.
Qed.

Lemma len_2 {A} (l : list A) : len l = 2 -> exists a b, l = [a; b].
Proof.
  destruct l as [|a [|b [|c l]]]; unfold len; cbn; intros H; try lia.
  now exists a, b.
Qed.

Lemma s32_of_le x :
  s32_of (ToUint8 (band x 0xff)) (ToUint8 (band (ushr x 8) 0xff))
         (ToUint8 (band (ushr x 16) 0xff)) (ToUint8 (band (ushr x 24) 0xff))
  = ToInt32 x.
Proof. unfold s32_of. rewrite u32_of_le. apply ToInt32_ext, ToUint32_idem. Qed.

Lemma writeInt_stored s v :
  0 <= offset s -> offset s + 4 <= len (bytes s) ->
  writeInt v s
  = Ok (tt, {| bytes := stored_at (bytes s) (offset s) (u32le v); offset := offset s + 4 |}).
Proof.
  intros Ho Hn. destruct (cursor_split s 4 Ho ltac:(lia) Hn) as (Hs & Hpre & Hmid).
  apply len_4 in Hmid as (x0 & x1 & x2 & x3 & Hmid).
  rewrite Hs at 1. rewrite Hmid. cbn [app]. rewrite writeInt_split.
  unfold at_split, stored_at. rewrite len_app, Hpre, len_u32le, <- app_assoc. reflexivity.
Qed.

Lemma writeUshort_stored s v :
  0 <= offset s -> offset s + 2 <= len (bytes s) ->
  writeUshort v s
  = Ok (tt, {| bytes := stored_at (bytes s) (offset s) (u16le v); offset := offset s + 2 |}).
Proof.
  intros Ho Hn. destruct (cursor_split s 2 Ho ltac:(lia) Hn) as (Hs & Hpre & Hmid).
  apply len_2 in Hmid as (x0 & x1 & Hmid).
  rewrite Hs at 1. rewrite Hmid. cbn [app]. rewrite writeUshort_split.
  unfold at_split, stored_at. rewrite len_app, Hpre, len_u16le, <- app_assoc. reflexivity.
Qed.

Lemma stored_at_split b o w :
  0 <= o -> o + len w <= len b ->
  {| bytes := stored_at b o w; offset := o |}
  = at_split (take (Z.to_nat o) b) (w ++ drop (Z.to_nat (o + len w)) b).
Proof.
  intros Ho Hn. unfold at_split, stored_at. f_equal.
  unfold len in *. rewrite length_take. lia.
Qed.

Lemma len_stored_at b o w :
  0 <= o -> o + len w <= len b -> len (stored_at b o w) = len b.
Proof.
  intros Ho Hn. unfold stored_at. rewrite !len_app.
  unfold len in *. rewrite length_take, length_drop. lia.
Qed.

Lemma take_stored_at b o w :
  0 <= o -> o + len w <= len b -> take (Z.to_nat o) (stored_at b o w) = take (Z.to_nat o) b.
Proof.
  intros Ho Hn. unfold stored_at. rewrite take_app_le.
  - rewrite take_take. f_equal. lia.
  - unfold len in *. rewrite length_take. lia.
Qed.

Lemma drop_stored_at b o w :
  0 <= o -> o + len w <= len b ->
  drop (Z.to_nat (o + len w)) (stored_at b o w) = drop (Z.to_nat (o + len w)) b.
Proof.
  intros Ho Hn. unfold stored_at. rewrite app_assoc.
  rewrite drop_app_length'; [reflexivity|].
  rewrite length_app, length_take. unfold len in *. lia.
Qed.

(** X2. Where four (two) bytes are left, [writeInt] ([writeUshort])
    succeeds, moves the offset by 4 (2), keeps the length of the array and
    every byte outside the window it wrote; reading the window back gives
    the value modulo 2^32 with [readAsUint], its signed 32-bit reading with
    [readAsInt], and the value modulo 2^16 with [readAsUshort]. *)
Theorem write_then_read (s : t) (v : number) :
  0 <= offset s ->
  let o := offset s in
  (o + 4 <= len (bytes s) ->
   exists b',
     writeInt v s = Ok (tt, {| bytes := b'; offset := o + 4 |})
     /\ len b' = len (bytes s)
     /\ take (Z.to_nat o) b' = take (Z.to_nat o) (bytes s)
     /\ drop (Z.to_nat (o + 4)) b' = drop (Z.to_nat (o + 4)) (bytes s)
     /\ readAsUint {| bytes := b'; offset := o |}
        = Ok (Num (ToUint32 v), {| bytes := b'; offset := o + 4 |})
     /\ readAsInt {| bytes := b'; offset := o |}
        = Ok (Num (ToInt32 v), {| bytes := b'; offset := o + 4 |}))
  /\ (o + 2 <= len (bytes s) ->
      exists b',
        writeUshort v s = Ok (tt, {| bytes := b'; offset := o + 2 |})
        /\ len b' = len (bytes s)
        /\ take (Z.to_nat o) b' = take (Z.to_nat o) (bytes s)
        /\ drop (Z.to_nat (o + 2)) b' = drop (Z.to_nat (o + 2)) (bytes s)
        /\ readAsUshort {| bytes := b'; offset := o |}
           = Ok (Num (ToUint32 v mod 2 ^ 16), {| bytes := b'; offset := o + 2 |})).
Proof.
  intros Ho o. split; intros Hn.
  - exists (stored_at (bytes s) o (u32le v)).
    assert (Hw : o + len (u32le v) <= len (bytes s)) by (rewrite len_u32le; lia).
    split; [now apply writeInt_stored|].
    split; [now apply len_stored_at|].
    split; [now apply take_stored_at|].
    split; [rewrite <- (len_u32le v); now apply drop_stored_at|].
    rewrite stored_at_split by assumption.
    assert (Hst : at_split (take (Z.to_nat o) (bytes s) ++ u32le v)
                    (drop (Z.to_nat (o + len (u32le v))) (bytes s))
                  = {| bytes := stored_at (bytes s) o (u32le v); offset := o + 4 |}).
    { unfold at_split, stored_at. rewrite <- app_assoc. f_equal.
      rewrite len_app, len_u32le. unfold len in *. rewrite length_take. lia. }
    rewrite <- Hst. split.
    + unfold u32le at 1. cbn [app]. now rewrite readAsUint_split, u32_of_le.
    + unfold u32le at 1. cbn [app]. now rewrite readAsInt_split, s32_of_le.
  - exists (stored_at (bytes s) o (u16le v)).
    assert (Hw : o + len (u16le v) <= len (bytes s)) by (rewrite len_u16le; lia).
    split; [now apply writeUshort_stored|].
    split; [now apply len_stored_at|].
    split; [now apply take_stored_at|].
    split; [rewrite <- (len_u16le v); now apply drop_stored_at|].
    rewrite stored_at_split by assumption.
    assert (Hst : at_split (take (Z.to_nat o) (bytes s) ++ u16le v)
                    (drop (Z.to_nat (o + len (u16le v))) (bytes s))
                  = {| bytes := stored_at (bytes s) o (u16le v); offset := o + 2 |}).
    { unfold at_split, stored_at. rewrite <- app_assoc. f_equal.
      rewrite len_app, len_u16le. unfold len in *. rewrite length_take. lia. }
    rewrite <- Hst. unfold u16le at 1. cbn [app].
    now rewrite readAsUshort_split, u16_of_le.
Qed.

Lemma write_then_read_witness :
  let s := {| bytes := [x00; x00; x00; x00; x00; x00]; offset := 1 |} in
  exists b',
    writeInt (Num (-2)) s = Ok (tt, {| bytes := b'; offset := 5 |})
    /\ readAsUint {| bytes := b'; offset := 1 |}
       = Ok (Num 4294967294, {| bytes := b'; offset := 5 |})
    /\ readAsInt {| bytes := b'; offset := 1 |}
       = Ok (Num (-2), {| bytes := b'; offset := 5 |}).
Proof.
  cbv zeta.
  destruct (write_then_read {| bytes := [x00; x00; x00; x00; x00; x00]; offset := 1 |}
              (Num (-2))) as [H _]; [vm_compute; congruence|].
  destruct H as (b' & Hw & _ & _ & _ & Hu & Hi); [vm_compute; congruence|].
  exists b'. split; [exact Hw|]. split; [exact Hu|exact Hi].
Defined.

Lemma set_fits s src :
  0 <= offset s -> offset s + len src <= len (bytes s) ->
  set src s = Ok (tt, {| bytes := stored_at (bytes s) (offset s) src;
                         offset := offset s + len src |}).
Proof.
  intros Ho Hn. unfold set, bind, get_offset, get_bytes. cbn [add lt].
  destruct (Z.ltb_spec (len (bytes s)) (len src + offset s)); [lia|].
  unfold TypedArray.set.
  destruct (Z.ltb_spec (offset s) 0); [lia|].
  destruct (Z.ltb_spec (len (bytes s)) (offset s + len src)); [lia|].
  cbn [orb]. unfold set_bytes at 1. cbn [bytes offset].
  rewrite set_offset_le.
  - cbn [bytes]. unfold stored_at. do 3 f_equal. lia.
  - cbn [bytes]. fold (stored_at (bytes s) (offset s) src).
    rewrite len_stored_at by lia. lia.
Qed.

Lemma set_overflows s src :
  len (bytes s) < offset s + len src ->
  set src s = Err (IndexInvalid (Num (len src + offset s))).
Proof.
  intros Hn. unfold set, bind, get_offset, get_bytes. cbn [add lt].
  destruct (Z.ltb_spec (len (bytes s)) (len src + offset s)); [reflexivity|lia].
Qed.

(** X3. From a non-negative offset, [set] either stores the whole source
    at the offset and moves the offset past it, or, when the source does
    not fit, throws 'Index is invalid: ' followed by the offset it would
    have reached; it never fails in the typed array's own [set]. *)
Theorem set_spec (s : t) (src : Uint8Array) :
  0 <= offset s ->
  set src s
  = if offset s + len src <=? len (bytes s)
    then Ok (tt, {| bytes := stored_at (bytes s) (offset s) src;
                    offset := offset s + len src |})
    else Err (IndexInvalid (Num (len src + offset s))).
Proof.
  intros Ho. destruct (Z.leb_spec (offset s + len src) (len (bytes s))).
  - now apply set_fits.
  - now apply set_overflows.
Qed.

Lemma stored_at_stored_at b o w1 w2 :
  0 <= o -> o + len w1 + len w2 <= len b ->
  stored_at (stored_at b o w1) (o + len w1) w2 = stored_at b o (w1 ++ w2).
Proof.
  intros Ho Hn. unfold stored_at at 1.
  pose proof (len_nonneg w1). pose proof (len_nonneg w2).
  assert (H1 : take (Z.to_nat (o + len w1)) (stored_at b o w1) = take (Z.to_nat o) b ++ w1).
  { unfold stored_at. rewrite app_assoc. rewrite take_app_length'; [reflexivity|].
    rewrite length_app, length_take. unfold len in *. lia. }
  assert (H2 : drop (Z.to_nat (o + len w1 + len w2)) (stored_at b o w1)
               = drop (Z.to_nat (o + len w1 + len w2)) b).
  { unfold stored_at. rewrite app_assoc.
    rewrite drop_app_ge by (rewrite length_app, length_take; unfold len in *; lia).
    rewrite drop_drop. f_equal.
    rewrite length_app, length_take. unfold len in *. lia. }
  rewrite H1, H2. unfold stored_at. rewrite len_app, <- !app_assoc.
  now rewrite Z.add_assoc.
Qed.

(** X4. Where the bytes fit, storing two arrays one after the other is
    storing their concatenation, and [writeInt] and [writeUshort] are [set]
    of the four, respectively two, little-endian bytes of the value. *)
Theorem stores_compose (s : t) :
  0 <= offset s ->
  (forall a b, offset s + len a + len b <= len (bytes s) ->
     (set a ;;; set b) s = set (a ++ b) s)
  /\ (forall v, offset s + 4 <= len (bytes s) -> writeInt v s = set (u32le v) s)
  /\ (forall v, offset s + 2 <= len (bytes s) -> writeUshort v s = set (u16le v) s).
Proof.
  intros Ho. split; [|split].
  - intros a b Hn. pose proof (len_nonneg a). pose proof (len_nonneg b).
    erewrite bind_ok by (apply set_fits; lia).
    rewrite set_fits by (cbn [bytes offset]; rewrite ?len_stored_at; lia).
    rewrite set_fits by (rewrite ?len_app; lia).
    cbn [bytes offset]. rewrite stored_at_stored_at by lia.
    rewrite len_app. do 3 f_equal. lia.
  - intros v Hn. rewrite writeInt_stored by lia.
    rewrite set_fits by (rewrite ?len_u32le; lia). now rewrite len_u32le.
  - intros v Hn. rewrite writeUshort_stored by lia.
    rewrite set_fits by (rewrite ?len_u16le; lia). now rewrite len_u16le.
Qed.

Lemma stores_compose_witness :
  let s := {| bytes := [x00; x00; x00; x00; x00; x00]; offset := 1 |} in
  (set [x01; x02] ;;; set [x03]) s = set [x01; x02; x03] s
  /\ writeInt (Num 0x04034b50) s = set [x50; x4b; x03; x04] s.
Proof.
  cbv zeta.
  destruct (stores_compose {| bytes := [x00; x00; x00; x00; x00; x00]; offset := 1 |})
    as (H1 & H2 & _); [vm_compute; congruence|].
  split.
  - apply (H1 [x01; x02] [x03]). vm_compute. congruence.
  - apply (H2 (Num 0x04034b50)). vm_compute. congruence.
Defined.

Lemma set_spec_witness :
  set [x01; x02] {| bytes := [x00; x00; x00]; offset := 1 |}
  = Ok (tt, {| bytes := [x00; x01; x02]; offset := 3 |})
  /\ set [x01; x02] {| bytes := [x00; x00; x00]; offset := 2 |}
     = Err (IndexInvalid (Num 4)).
Proof.
  split.
  - apply (set_spec {| bytes := [x00; x00; x00]; offset := 1 |} [x01; x02]).
    vm_compute. congruence.
  - apply (set_spec {| bytes := [x00; x00; x00]; offset := 2 |} [x01; x02]).
    vm_compute. congruence.
Defined.

(** X5. [subarray(length)] on a cursor inside its array: a non-negative
    length that fits returns exactly that many bytes from the offset and
    moves the offset past them; a length that does not fit throws 'Index
    is invalid: ' followed by the offset it would have reached; a negative
    length that keeps the offset non-negative returns an empty view and
    moves the offset backwards; an undefined length throws 'Index is
    invalid: NaN'. *)
Theorem subarray_spec (s : t) (l : Z) :
  0 <= offset s <= len (bytes s) ->
  let o := offset s in
  let b := bytes s in
  (0 <= l -> o + l <= len b ->
     subarray (Num l) s
     = Ok (take (Z.to_nat l) (drop (Z.to_nat o) b), {| bytes := b; offset := o + l |})
     /\ len (take (Z.to_nat l) (drop (Z.to_nat o) b)) = l)
  /\ (len b < o + l -> subarray (Num l) s = Err (IndexInvalid (Num (o + l))))
  /\ (l < 0 -> 0 <= o + l ->
        subarray (Num l) s = Ok ([], {| bytes := b; offset := o + l |}))
  /\ subarray NaN s = Err (IndexInvalid NaN).
Proof.
  intros Hs. cbv zeta. split; [|split; [|split]].
  - intros Hl Hn. split.
    + unfold subarray, bind, get_offset, get_bytes. cbn [add].
      rewrite set_offset_le by lia. unfold ret. do 2 f_equal.
      unfold TypedArray.subarray, relative_index. cbn [ToInteger].
      destruct (Z.ltb_spec (offset s) 0); [lia|].
      destruct (Z.ltb_spec (offset s + l) 0); [lia|].
      rewrite !Z.min_l, Z.max_l by lia. f_equal. lia.
    + unfold len in *. rewrite length_take, length_drop. lia.
  - intros Hn. unfold subarray, bind, get_offset, get_bytes. cbn [add].
    now rewrite set_offset_gt by lia.
  - intros Hl Hol. unfold subarray, bind, get_offset, get_bytes. cbn [add].
    rewrite set_offset_le by lia. unfold ret. do 2 f_equal.
    unfold TypedArray.subarray, relative_index. cbn [ToInteger].
    destruct (Z.ltb_spec (offset s) 0); [lia|].
    destruct (Z.ltb_spec (offset s + l) 0); [lia|].
    rewrite !Z.min_l, Z.max_r by lia. reflexivity.
  - reflexivity.
Qed.

Lemma subarray_spec_witness :
  let s := {| bytes := [x01; x02; x03; x04]; offset := 1 |} in
  subarray (Num 2) s = Ok ([x02; x03], {| bytes := bytes s; offset := 3 |})
  /\ subarray (Num 4) s = Err (IndexInvalid (Num 5))
  /\ subarray (Num (-1)) s = Ok ([], {| bytes := bytes s; offset := 0 |}).
Proof.
  cbv zeta.
  pose proof (subarray_spec {| bytes := [x01; x02; x03; x04]; offset := 1 |}) as H.
  destruct (H 2) as ((H1 & _) & _); [split; vm_compute; congruence| | |];
    [vm_compute; congruence|vm_compute; congruence|].
  destruct (H 4) as (_ & H2 & _); [split; vm_compute; congruence|].
  destruct (H (-1)) as (_ & _ & H3 & _); [split; vm_compute; congruence|].
  split; [exact H1|]. split; [apply H2; vm_compute; reflexivity|].
  apply H3; vm_compute; congruence.
Defined.

(** ** Timestamps, flags and checksums *)

Lemma packed_fields u :
  0 <= u < 2 ^ 32 ->
  let y := 1980 + u / 2 ^ 25 in
  let mo := (u / 2 ^ 21) mod 16 in
  let d := (u / 2 ^ 16) mod 32 in
  let h := (u / 2 ^ 11) mod 32 in
  let mi := (u / 2 ^ 5) mod 64 in
  let s := u mod 32 * 2 in
  in_dos_range y mo d h mi s /\ packed y mo d h mi s = u /\ 2 * (s / 2) = s.
Proof.
  intros Hu. cbv zeta. unfold in_dos_range, packed.
  change (2 ^ 32) with 4294967296 in *. change (2 ^ 25) with 33554432.
  change (2 ^ 21) with 2097152. change (2 ^ 16) with 65536.
  change (2 ^ 11) with 2048. change (2 ^ 5) with 32.
  rewrite Z.div_mul by lia.
  pose proof (Z.div_mod u 33554432 ltac:(lia)).
  pose proof (Z.mod_pos_bound u 33554432 ltac:(lia)).
  pose proof (Z.div_mod u 2097152 ltac:(lia)).
  pose proof (Z.mod_pos_bound u 2097152 ltac:(lia)).
  pose proof (Z.div_mod (u / 2097152) 16 ltac:(lia)).
  pose proof (Z.mod_pos_bound (u / 2097152) 16 ltac:(lia)).
  pose proof (Z.div_mod u 65536 ltac:(lia)).
  pose proof (Z.mod_pos_bound u 65536 ltac:(lia)).
  pose proof (Z.div_mod (u / 65536) 32 ltac:(lia)).
  pose proof (Z.mod_pos_bound (u / 65536) 32 ltac:(lia)).
  pose proof (Z.div_mod u 2048 ltac:(lia)).
  pose proof (Z.mod_pos_bound u 2048 ltac:(lia)).
  pose proof (Z.div_mod (u / 2048) 32 ltac:(lia)).
  pose proof (Z.mod_pos_bound (u / 2048) 32 ltac:(lia)).
  pose proof (Z.div_mod u 32 ltac:(lia)).
  pose proof (Z.mod_pos_bound u 32 ltac:(lia)).
  pose proof (Z.div_mod (u / 32) 64 ltac:(lia)).
  pose proof (Z.mod_pos_bound (u / 32) 64 ltac:(lia)).
  assert (u / 2097152 / 16 = u / 33554432) by (rewrite Z.div_div by lia; reflexivity).
  assert (u / 65536 / 32 = u / 2097152) by (rewrite Z.div_div by lia; reflexivity).
  assert (u / 2048 / 32 = u / 65536) by (rewrite Z.div_div by lia; reflexivity).
  assert (u / 32 / 64 = u / 2048) by (rewrite Z.div_div by lia; reflexivity).
  lia.
Qed.

Lemma fromInt_fields i :
  let u := ToUint32 i in
  ZipDateTime.fromInt i
  = ZipDateTime.mk (Num (1980 + u / 2 ^ 25)) (Num ((u / 2 ^ 21) mod 16))
      (Num ((u / 2 ^ 16) mod 32)) (Num ((u / 2 ^ 11) mod 32))
      (Num ((u / 2 ^ 5) mod 64)) (Num (u mod 32 * 2)).
Proof.
  cbv zeta. destruct (packed_fields (ToUint32 i) (ToUint32_range i)) as (Hr & Hp & Hs).
  rewrite (fromInt_packed i _ _ _ _ _ _ Hr (eq_sym Hp)). now rewrite Hs.
Qed.

(** X11. [fromInt] never leaves the bit layout: for every argument the
    year is in 1980..2107, the month in 0..15, the day and the hour in
    0..31, the minute in 0..63, and the second is even and at most 62. *)
Theorem fromInt_range (i : number) :
  exists y mo d h mi s,
    ZipDateTime.fromInt i = ZipDateTime.mk (Num y) (Num mo) (Num d) (Num h) (Num mi) (Num s)
    /\ 1980 <= y <= 2107 /\ 0 <= mo <= 15 /\ 0 <= d <= 31 /\ 0 <= h <= 31
    /\ 0 <= mi <= 63 /\ 0 <= s <= 62 /\ Z.even s = true.
Proof.
  destruct (packed_fields (ToUint32 i) (ToUint32_range i)) as (Hr & Hp & Hs).
  do 6 eexists. split; [apply fromInt_fields|].
  unfold in_dos_range in Hr. destruct Hr as (? & ? & ? & ? & ? & ?).
  repeat (split; [lia|]). rewrite Z.even_mul. apply orb_true_r.
Qed.

Lemma toInt_signed y mo d h mi s :
  in_dos_range y mo d h mi s ->
  ZipDateTime.toInt (ZipDateTime.mk y mo d h mi s) = Num (ToInt32 (Num (packed y mo d h mi s))).
Proof.
  intros (Hy & Hmo & Hd & Hh & Hmi & Hs).
  unfold ZipDateTime.toInt.
  cbn [ZipDateTime.year ZipDateTime.month ZipDateTime.day ZipDateTime.hour
       ZipDateTime.minute ZipDateTime.second sub floor_div].
  rewrite (shl_val (Num (y - 1980))) by lia.
  rewrite (shl_small mo 21), (shl_small d 16), (shl_small h 11), (shl_small mi 5)
    by (unfold in_s32; lia).
  rewrite (ToInt32_small (y - 1980)) by (unfold in_s32; lia).
  cbn [add]. f_equal. unfold packed.
  assert (Hs2 : 0 <= s / 2 < 32) by (split; [apply Z.div_pos | apply Z.div_lt_upper_bound]; lia).
  unfold ToInt32, ToUint32.
  rewrite !Z.mod_small by lia.
  destruct (Z.ltb_spec ((y - 1980) * 2 ^ 25) (2 ^ 31));
    destruct (Z.ltb_spec ((y - 1980) * 2 ^ 25 + mo * 2 ^ 21 + d * 2 ^ 16 + h * 2 ^ 11
                          + mi * 2 ^ 5 + s / 2) (2 ^ 31)); lia.
Qed.

Lemma toInt_fromInt_signed i :
  ZipDateTime.toInt (ZipDateTime.fromInt i) = Num (ToInt32 i).
Proof.
  destruct (packed_fields (ToUint32 i) (ToUint32_range i)) as (Hr & Hp & Hs).
  pose proof (fromInt_fields i) as Hf. cbv zeta in Hf.
  rewrite Hf, toInt_signed by exact Hr. rewrite Hp. f_equal.
  apply ToInt32_ext, ToUint32_idem.
Qed.

Lemma toInt_fromInt_bits i :
  ToUint32 (ZipDateTime.toInt (ZipDateTime.fromInt i)) = ToUint32 i.
Proof. rewrite toInt_fromInt_signed. apply ToUint32_ToInt32. Qed.

(** X12. Encoding a decoded timestamp gives back the 32 bits it was
    decoded from, as a signed 32-bit integer; hence decoding is idempotent
    through the packed form. *)
Theorem toInt_fromInt (i : number) :
  ZipDateTime.toInt (ZipDateTime.fromInt i) = Num (ToInt32 i)
  /\ ToUint32 (ZipDateTime.toInt (ZipDateTime.fromInt i)) = ToUint32 i
  /\ ZipDateTime.fromInt (ZipDateTime.toInt (ZipDateTime.fromInt i)) = ZipDateTime.fromInt i.
Proof.
  split; [apply toInt_fromInt_signed|]. split; [apply toInt_fromInt_bits|].
  pose proof (fromInt_fields (ZipDateTime.toInt (ZipDateTime.fromInt i))) as H3.
  pose proof (fromInt_fields i) as Hf.
  cbv zeta in H3, Hf. rewrite toInt_fromInt_bits in H3. now rewrite H3, Hf.
Qed.

Lemma testbit_ToInt32_Num z m :
  0 <= m < 32 -> Z.testbit (ToInt32 (Num z)) m = Z.testbit z m.
Proof.
  intros Hm. rewrite testbit_ToInt32 by lia. rewrite testbit_ToUint32.
  destruct (Z.ltb_spec m 32); [reflexivity|lia].
Qed.

Lemma shift_count_Num i : shift_count (Num i) = i mod 32.
Proof.
  unfold shift_count, ToUint32. apply Z.mod_mod_divide.
  exists (2 ^ 27). reflexivity.
Qed.

Lemma shiftr_s32 z k : 0 <= k -> in_s32 z -> in_s32 (Z.shiftr z k).
Proof.
  unfold in_s32. intros Hk Hz. rewrite Z.shiftr_div_pow2 by lia.
  assert (0 < 2 ^ k) by (apply Z.pow_pos_nonneg; lia).
  split.
  - apply Z.div_le_lower_bound; [lia|]. nia.
  - apply Z.div_lt_upper_bound; [lia|]. nia.
Qed.

Lemma getFlag_testbit r i :
  LocalFileHeader.getFlag r (Num i)
  = Z.testbit (ToInt32 (LocalFileHeader.flags r)) (i mod 32).
Proof.
  unfold LocalFileHeader.getFlag, shr, band. rewrite shift_count_Num.
  pose proof (Z.mod_pos_bound i 32 ltac:(lia)) as Hk.
  set (k := i mod 32) in *. set (F := ToInt32 (LocalFileHeader.flags r)).
  rewrite (ToInt32_small (Z.shiftr F k))
    by (apply shiftr_s32; [lia|apply ToInt32_range]).
  change (ToInt32 (Num 1)) with (Z.ones 1). rewrite Z.land_ones by lia.
  cbn [strict_eq]. change (2 ^ 1) with 2.
  replace (Z.testbit F k) with (Z.testbit (Z.shiftr F k) 0)
    by (rewrite Z.shiftr_spec by lia; f_equal; lia).
  rewrite Z.bit0_odd, Zmod_odd. now destruct (Z.odd (Z.shiftr F k)).
Qed.

Lemma ToInt32_idem x : ToInt32 (Num (ToInt32 x)) = ToInt32 x.
Proof. apply ToInt32_small, ToInt32_range. Qed.

Lemma flag_mask i :
  shl (Num 1) (Num i) = Num (ToInt32 (Num (2 ^ (i mod 32)))).
Proof.
  unfold shl. rewrite shift_count_Num.
  pose proof (Z.mod_pos_bound i 32 ltac:(lia)).
  change (ToInt32 (Num 1)) with 1. now rewrite Z.shiftl_1_l.
Qed.

Lemma getFlag_after_setFlag r (i j : Z) (b : bool) :
  LocalFileHeader.getFlag (LocalFileHeader.setFlag r (Num i) b) (Num j)
  = if i mod 32 =? j mod 32 then b else LocalFileHeader.getFlag r (Num j).
Proof.
  rewrite !getFlag_testbit. unfold LocalFileHeader.setFlag. rewrite flag_mask.
  pose proof (Z.mod_pos_bound i 32 ltac:(lia)) as Hk.
  pose proof (Z.mod_pos_bound j 32 ltac:(lia)) as Hm.
  set (k := i mod 32) in *. set (m := j mod 32) in *.
  set (F := ToInt32 (LocalFileHeader.flags r)).
  assert (HV : Z.testbit (ToInt32 (Num (2 ^ k))) m = (k =? m)).
  { rewrite testbit_ToInt32_Num by lia. apply Z.pow2_bits_eqb. lia. }
  destruct b; cbn [LocalFileHeader.with_flags LocalFileHeader.flags].
  - unfold bor. rewrite ToInt32_idem. fold F.
    rewrite testbit_ToInt32_Num by lia. rewrite Z.lor_spec, HV.
    destruct (k =? m); [apply orb_true_r|apply orb_false_r].
  - unfold band, bnot. rewrite ToInt32_idem. fold F.
    rewrite testbit_ToInt32_Num by lia. rewrite Z.land_spec.
    rewrite testbit_ToInt32_Num by lia. rewrite Z.lnot_spec by lia. rewrite HV.
    destruct (k =? m); [apply andb_false_r|apply andb_true_r].
Qed.

(** X13. After [setFlag(i, b)], [getFlag(j)] is [b] when [i] and [j]
    are equal modulo 32 and is unchanged otherwise; [setFlag] changes no
    other field of the header. *)
Theorem getFlag_setFlag (r : LocalFileHeader.t) (i j : Z) (b : bool) :
  LocalFileHeader.getFlag (LocalFileHeader.setFlag r (Num i) b) (Num j)
  = (if i mod 32 =? j mod 32 then b else LocalFileHeader.getFlag r (Num j))
  /\ LocalFileHeader.setFlag r (Num i) b
     = LocalFileHeader.with_flags r
         (LocalFileHeader.flags (LocalFileHeader.setFlag r (Num i) b)).
Proof.
  split; [apply getFlag_after_setFlag|].
  unfold LocalFileHeader.setFlag. now destruct b.
Qed.

(** X14. Of the seven named flags, each setter makes its own getter
    return the value set and leaves the six other getters unchanged. *)
Theorem named_flags_independent (n m : nat) get set get' set' :
  named_flags !! n = Some (get, set) ->
  named_flags !! m = Some (get', set') ->
  forall r b, get' (set r b) = if (n =? m)%nat then b else get' r.
Proof.
  intros Hn Hm r b.
  destruct n as [|[|[|[|[|[|[|n]]]]]]]; try discriminate Hn; injection Hn as <- <-;
    (destruct m as [|[|[|[|[|[|[|m]]]]]]]; try discriminate Hm; injection Hm as <- <-);
    unfold LocalFileHeader.isEncrypted, LocalFileHeader.set_isEncrypted,
      LocalFileHeader.hasDataDescriptor, LocalFileHeader.set_hasDataDescriptor,
      LocalFileHeader.isEnhancedDeflating, LocalFileHeader.set_isEnhancedDeflating,
      LocalFileHeader.isCompressedPatchedData, LocalFileHeader.set_isCompressedPatchedData,
      LocalFileHeader.isEncryptedStrongly, LocalFileHeader.set_isEncryptedStrongly,
      LocalFileHeader.isUtf8, LocalFileHeader.set_isUtf8,
      LocalFileHeader.isCentralDirectoryEncrypted,
      LocalFileHeader.set_isCentralDirectoryEncrypted;
    rewrite getFlag_after_setFlag; reflexivity.
Qed.

Lemma named_flags_independent_witness :
  LocalFileHeader.isUtf8 (LocalFileHeader.set_hasDataDescriptor Sample.header true)
  = LocalFileHeader.isUtf8 Sample.header
  /\ LocalFileHeader.hasDataDescriptor
       (LocalFileHeader.set_hasDataDescriptor Sample.header true) = true.
Proof.
  split.
  - apply (named_flags_independent 1 5 _ _ _ _ eq_refl eq_refl Sample.header true).
  - apply (named_flags_independent 1 1 _ _ _ _ eq_refl eq_refl Sample.header true).
Defined.

(** X15. A header whose name and extra field are shorter than 65536
    bytes is serialized and parsed back with its flags 0 to 15 as they
    were and the flags 16 to 31 cleared. *)
Theorem flags_survive_serialization (r : LocalFileHeader.t) :
  len (LocalFileHeader.fileNameBytes r) < 2 ^ 16 ->
  len (LocalFileHeader.extraFieldBytes r) < 2 ^ 16 ->
  exists bs r',
    LocalFileHeader.toBytes r = Ok bs
    /\ LocalFileHeader.from (ByteArrayCursor.new bs) = Ok (r', at_end bs)
    /\ forall j : Z,
         LocalFileHeader.getFlag r' (Num j)
         = (j mod 32 <? 16) && LocalFileHeader.getFlag r (Num j).
Proof.
  intros Hn He. exists (Layout.localFileHeader r), (Parsed.localFileHeader r).
  split; [apply LocalFileHeader_toBytes_layout|]. split.
  - rewrite new_at_split, LocalFileHeader_from_layout by assumption.
    now rewrite at_split_end.
  - intros j. rewrite !getFlag_testbit.
    pose proof (Z.mod_pos_bound j 32 ltac:(lia)) as Hm. set (m := j mod 32) in *.
    cbn [Parsed.localFileHeader LocalFileHeader.flags]. unfold u16.
    rewrite testbit_ToInt32_Num by lia. rewrite Z.testbit_mod_pow2 by lia.
    now rewrite (testbit_ToInt32 (LocalFileHeader.flags r)) by lia.
Qed.

Lemma flags_survive_serialization_witness :
  exists bs r',
    LocalFileHeader.toBytes (LocalFileHeader.setFlag Sample.header (Num 16) true) = Ok bs
    /\ LocalFileHeader.from (ByteArrayCursor.new bs) = Ok (r', at_end bs)
    /\ LocalFileHeader.getFlag (LocalFileHeader.setFlag Sample.header (Num 16) true) (Num 16)
       = true
    /\ LocalFileHeader.getFlag r' (Num 16) = false
    /\ LocalFileHeader.getFlag r' (Num 11) = true.
Proof.
  destruct (flags_survive_serialization
              (LocalFileHeader.setFlag Sample.header (Num 16) true))
    as (bs & r' & Hb & Hf & Hg); [vm_compute; reflexivity|vm_compute; reflexivity|].
  exists bs, r'. split; [exact Hb|]. split; [exact Hf|].
  split; [reflexivity|]. split; [exact (Hg 16)|exact (Hg 11)].
Defined.

Lemma hex_value_digit d : 0 <= d < 16 -> hex_value (Crc32.hex_digit d) = Some d.
Proof.
  intros Hd.
  assert (H : d = 0 \/ d = 1 \/ d = 2 \/ d = 3 \/ d = 4 \/ d = 5 \/ d = 6 \/ d = 7
              \/ d = 8 \/ d = 9 \/ d = 10 \/ d = 11 \/ d = 12 \/ d = 13 \/ d = 14 \/ d = 15)
    by lia.
  repeat (destruct H as [->|H]; [reflexivity|]). subst d. reflexivity.
Qed.

Lemma fmt_octets x :
  let u := ToUint32 x in
  map (fun shift : Z => band (ushr x shift) 0xff) [24; 16; 8; 0]
  = [Num ((u / 2 ^ 24) mod 256); Num ((u / 2 ^ 16) mod 256);
     Num ((u / 2 ^ 8) mod 256); Num (u mod 256)].
Proof.
  cbv zeta. cbn [map]. rewrite !ushr_val by lia. rewrite !band_255.
  pose proof (ToUint32_range x) as Hu. unfold in_u32 in Hu.
  assert (Hs : forall k, 0 <= k -> ToUint32 (Num (ToUint32 x / 2 ^ k)) = ToUint32 x / 2 ^ k).
  { intros k Hk. apply ToUint32_small. unfold in_u32.
    assert (0 < 2 ^ k) by (apply Z.pow_pos_nonneg; lia).
    split; [apply Z.div_pos; lia|]. apply Z.div_lt_upper_bound; [lia|]. nia. }
  rewrite !Hs by lia. change (2 ^ 0) with 1. now rewrite Z.div_1_r.
Qed.

(** X16. [fmt] returns eight characters, each a digit or a letter from
    A to F, whose hexadecimal value is the unsigned 32-bit reading of the
    argument; a negative checksum prints as its unsigned reading. *)
Theorem fmt_is_hex (int32 : number) :
  String.length (Crc32.fmt int32) = 8%nat
  /\ hex_number (Crc32.fmt int32) = Some (ToUint32 int32)
  /\ Crc32.fmt int32 = Crc32.fmt (Num (ToUint32 int32)).
Proof.
  assert (H3 : Crc32.fmt int32 = Crc32.fmt (Num (ToUint32 int32))).
  { unfold Crc32.fmt. cbv zeta.
    pose proof (fmt_octets int32) as H1. pose proof (fmt_octets (Num (ToUint32 int32))) as H2.
    cbv zeta in H1, H2. rewrite ToUint32_idem in H2. now rewrite H1, H2. }
  enough (H : String.length (Crc32.fmt int32) = 8%nat
              /\ hex_number (Crc32.fmt int32) = Some (ToUint32 int32))
    by (destruct H; auto).
  unfold Crc32.fmt. cbv zeta. pose proof (fmt_octets int32) as Ho. cbv zeta in Ho.
  rewrite Ho. cbn [fold_right ToInteger]. split; [reflexivity|].
  pose proof (ToUint32_range int32) as Hu. unfold in_u32 in Hu.
  set (u := ToUint32 int32) in *.
  unfold hex_number. cbn [hex_number_from].
  assert (Hd : forall z, 0 <= z / 16 mod 16 < 16 /\ 0 <= z mod 16 < 16)
    by (intros z; split; apply Z.mod_pos_bound; lia).
  assert (Hq : forall z, 0 <= z mod 256 / 16 < 16).
  { intros z. pose proof (Z.mod_pos_bound z 256 ltac:(lia)).
    split; [apply Z.div_pos; lia|apply Z.div_lt_upper_bound; lia]. }
  rewrite !hex_value_digit by (apply Hq || apply Z.mod_pos_bound; lia).
  f_equal.
  change (2 ^ 24) with 16777216. change (2 ^ 16) with 65536. change (2 ^ 8) with 256.
  change (2 ^ 32) with 4294967296 in Hu.
  pose proof (Z.div_mod (u / 16777216 mod 256) 16 ltac:(lia)).
  pose proof (Z.div_mod (u / 65536 mod 256) 16 ltac:(lia)).
  pose proof (Z.div_mod (u / 256 mod 256) 16 ltac:(lia)).
  pose proof (Z.div_mod (u mod 256) 16 ltac:(lia)).
  pose proof (Z.div_mod u 256 ltac:(lia)).
  pose proof (Z.div_mod (u / 256) 256 ltac:(lia)).
  pose proof (Z.div_mod (u / 65536) 256 ltac:(lia)).
  pose proof (Z.div_mod (u / 16777216) 256 ltac:(lia)).
  assert (u / 256 / 256 = u / 65536) by (rewrite Z.div_div by lia; reflexivity).
  assert (u / 65536 / 256 = u / 16777216) by (rewrite Z.div_div by lia; reflexivity).
  assert (u / 16777216 / 256 = 0).
  { rewrite Z.div_div by lia. apply Z.div_small. lia. }
  lia.
Qed.

Lemma testbit_u32_32 c : in_u32 c -> Z.testbit c 32 = false.
Proof.
  intros Hc. rewrite <- (ToUint32_small c Hc), testbit_ToUint32. reflexivity.
Qed.

Lemma bit_step_top c : in_u32 c -> Z.testbit (bit_step c) 31 = Z.odd c.
Proof.
  intros Hc. unfold bit_step.
  assert (Hs : Z.testbit (Z.shiftr c 1) 31 = false).
  { rewrite Z.shiftr_spec by lia. now apply testbit_u32_32. }
  destruct (Z.odd c); [|exact Hs].
  rewrite Z.lxor_spec, Hs. reflexivity.
Qed.

Lemma bit_step_u32 c : in_u32 c -> in_u32 (bit_step c).
Proof.
  intros Hc. unfold bit_step, in_u32 in *.
  assert (Hh : 0 <= Z.shiftr c 1 < 2 ^ 32).
  { rewrite Z.shiftr_div_pow2 by lia. change (2 ^ 1) with 2.
    split; [apply Z.div_pos; lia|apply Z.div_lt_upper_bound; lia]. }
  destruct (Z.odd c); [|exact Hh].
  apply lxor_nonneg_bound; [lia|exact Hh|lia].
Qed.

Lemma lxor_cancel_r a b c : Z.lxor a c = Z.lxor b c -> a = b.
Proof.
  intros H. apply (f_equal (fun z => Z.lxor z c)) in H.
  now rewrite !Z.lxor_assoc, Z.lxor_nilpotent, !Z.lxor_0_r in H.
Qed.

Lemma lxor_cancel_l a b c : Z.lxor c a = Z.lxor c b -> a = b.
Proof. rewrite !(Z.lxor_comm c). apply lxor_cancel_r. Qed.

Lemma bit_step_inj x y : in_u32 x -> in_u32 y -> bit_step x = bit_step y -> x = y.
Proof.
  intros Hx Hy H.
  assert (Ho : Z.odd x = Z.odd y) by (rewrite <- !bit_step_top by assumption; now rewrite H).
  assert (Hh : Z.shiftr x 1 = Z.shiftr y 1).
  { unfold bit_step in H. rewrite <- Ho in H. destruct (Z.odd x); [|exact H].
    now apply lxor_cancel_r in H. }
  rewrite !Z.shiftr_div_pow2 in Hh by lia. change (2 ^ 1) with 2 in Hh.
  rewrite (Z.div_mod x 2), (Z.div_mod y 2) by lia.
  now rewrite !Zmod_odd, Ho, Hh.
Qed.

Lemma iter_bit_step_u32 n c : in_u32 c -> in_u32 (Nat.iter n bit_step c).
Proof. intros Hc. induction n as [|n IH]; [exact Hc|]. cbn [Nat.iter]. now apply bit_step_u32. Qed.

Lemma iter_bit_step_inj n x y :
  in_u32 x -> in_u32 y -> Nat.iter n bit_step x = Nat.iter n bit_step y -> x = y.
Proof.
  intros Hx Hy. induction n as [|n IH]; [auto|]. cbn [Nat.iter]. intros H.
  apply IH. apply bit_step_inj; auto using iter_bit_step_u32.
Qed.

Lemma lxor_byte_u32 c b : in_u32 c -> in_u32 (Z.lxor c (byte_to_Z b)).
Proof.
  intros Hc. pose proof (byte_to_Z_range b). unfold in_u32 in *.
  apply lxor_nonneg_bound; lia.
Qed.

Lemma byte_step_u32 c b : in_u32 c -> in_u32 (byte_step c b).
Proof. intros Hc. apply iter_bit_step_u32. now apply lxor_byte_u32. Qed.

Lemma byte_step_inj c c' b b' :
  in_u32 c -> in_u32 c' -> byte_step c b = byte_step c' b' ->
  Z.lxor c (byte_to_Z b) = Z.lxor c' (byte_to_Z b').
Proof.
  intros Hc Hc' H. apply iter_bit_step_inj in H; auto using lxor_byte_u32.
Qed.

Lemma fold_byte_step_u32 bs c : in_u32 c -> in_u32 (fold_left byte_step bs c).
Proof.
  revert c. induction bs as [|b bs IH]; intros c Hc; [exact Hc|].
  cbn [fold_left]. apply IH. now apply byte_step_u32.
Qed.

Lemma fold_byte_step_inj bs c c' :
  in_u32 c -> in_u32 c' ->
  fold_left byte_step bs c = fold_left byte_step bs c' -> c = c'.
Proof.
  revert c c'. induction bs as [|b bs IH]; intros c c' Hc Hc' H; [exact H|].
  cbn [fold_left] in H. apply IH in H; auto using byte_step_u32.
  apply byte_step_inj in H; auto. now apply lxor_cancel_r in H.
Qed.

(** X17. Two inputs that differ in exactly one byte have different
    checksums. *)
Theorem calc_detects_byte_change (pre post : Uint8Array) (b b' : byte) :
  b <> b' -> Crc32.calc (pre ++ b :: post) <> Crc32.calc (pre ++ b' :: post).
Proof.
  intros Hb H. apply Hb. apply (f_equal ToUint32) in H.
  rewrite !calc_unsigned in H. unfold crc32 in H.
  apply lxor_cancel_r in H. rewrite !fold_left_app in H. cbn [fold_left] in H.
  assert (Hc : in_u32 (fold_left byte_step pre 0xFFFFFFFF))
    by (apply fold_byte_step_u32; unfold in_u32; lia).
  apply fold_byte_step_inj in H; auto using byte_step_u32.
  apply byte_step_inj in H; auto. apply lxor_cancel_l in H. now apply byte_to_Z_inj.
Qed.

Lemma calc_detects_byte_change_witness :
  "p"%byte <> "q"%byte
  /\ Crc32.calc (["z"; "i"] ++ "p" :: [])%byte <> Crc32.calc (["z"; "i"] ++ "q" :: [])%byte.
Proof.
  assert (H : "p"%byte <> "q"%byte) by discriminate.
  split; [exact H|]. apply calc_detects_byte_change. exact H.
Defined.

(** ** The record parsers on arbitrary input *)

Lemma advances_short {A B} (m : M A) (k : A -> M B) i s :
  advances m i -> offset s <= len (bytes s) -> len (bytes s) < offset s + i ->
  bind m k s = Err (IndexInvalid (Num (len (bytes s) + 1))).
Proof.
  intros Hm Hs Hn. destruct (Hm s Hs) as [[H _]|[_ E]]; [lia|]. now apply bind_err.
Qed.

Ltac short_step lem :=
  match goal with
  | |- bind _ _ ?s = Err _ =>
      let H := fresh "H" in let v := fresh "v" in let E := fresh "E" in
      destruct (lem s) as [[H [v E]]|[H E]];
      [ cbn [bytes offset]; lia
      | rewrite (bind_ok _ _ _ _ _ E); cbn [bytes offset] in *
      | rewrite (bind_err _ _ _ _ E); cbn [bytes offset]; reflexivity ]
  end.

Ltac short_steps :=
  repeat first [ short_step advances_readAsUint | short_step advances_readAsUshort ];
  try (exfalso; lia).

(** X8. A record parser started with fewer bytes left than the fixed part
    of its record (30 for a local header, 46 for a directory entry, 22 for
    the end record) throws 'Index is invalid: ' followed by the length of
    the array plus one. *)
Theorem truncated_record (s : t) :
  offset s <= len (bytes s) ->
  let left := len (bytes s) - offset s in
  let stop := IndexInvalid (Num (len (bytes s) + 1)) in
  (left < 30 -> LocalFileHeader.from s = Err stop)
  /\ (left < 46 -> CentralDirectoryEntry.from s = Err stop)
  /\ (left < 22 -> EndOfCentralDirectoryRecord.from s = Err stop).
Proof.
  intros Hs. cbv zeta. split; [|split]; intros Hn.
  - unfold LocalFileHeader.from. short_steps.
  - unfold CentralDirectoryEntry.from. short_steps.
  - unfold EndOfCentralDirectoryRecord.from. short_steps.
Qed.

Lemma u32le_ToUint32 x : u32le x = u32le (Num (ToUint32 x)).
Proof.
  unfold u32le. repeat (apply (f_equal2 cons)); try reflexivity; apply byte_to_Z_inj;
    rewrite ?byte_of_band_ushr, ?byte_of_band by lia; rewrite ?ToUint32_idem; reflexivity.
Qed.

Lemma u16le_ToUint32 x : u16le x = u16le (Num (ToUint32 x)).
Proof.
  unfold u16le. repeat (apply (f_equal2 cons)); try reflexivity; apply byte_to_Z_inj;
    rewrite ?byte_of_band_ushr, ?byte_of_band by lia; rewrite ?ToUint32_idem; reflexivity.
Qed.

Lemma u32le_u32_of b0 b1 b2 b3 : u32le (Num (u32_of b0 b1 b2 b3)) = [b0; b1; b2; b3].
Proof.
  pose proof (u32_of_range b0 b1 b2 b3) as Hr.
  pose proof (byte_to_Z_range b0). pose proof (byte_to_Z_range b1).
  pose proof (byte_to_Z_range b2). pose proof (byte_to_Z_range b3).
  unfold u32le. repeat (apply (f_equal2 cons)); try reflexivity; apply byte_to_Z_inj;
    rewrite ?byte_of_band_ushr, ?byte_of_band by lia;
    rewrite (ToUint32_small _ Hr); unfold u32_of;
    change (2 ^ 8) with 256; change (2 ^ 16) with 65536; change (2 ^ 24) with 16777216.
  - symmetry. apply Z.mod_unique_pos
      with (q := byte_to_Z b1 + byte_to_Z b2 * 256 + byte_to_Z b3 * 65536); lia.
  - replace ((byte_to_Z b0 + byte_to_Z b1 * 256 + byte_to_Z b2 * 65536
              + byte_to_Z b3 * 16777216) / 256)
      with (byte_to_Z b1 + byte_to_Z b2 * 256 + byte_to_Z b3 * 65536)
      by (apply Z.div_unique_pos with (r := byte_to_Z b0); lia).
    symmetry. apply Z.mod_unique_pos with (q := byte_to_Z b2 + byte_to_Z b3 * 256); lia.
  - replace ((byte_to_Z b0 + byte_to_Z b1 * 256 + byte_to_Z b2 * 65536
              + byte_to_Z b3 * 16777216) / 65536)
      with (byte_to_Z b2 + byte_to_Z b3 * 256)
      by (apply Z.div_unique_pos with (r := byte_to_Z b0 + byte_to_Z b1 * 256); lia).
    symmetry. apply Z.mod_unique_pos with (q := byte_to_Z b3); lia.
  - replace ((byte_to_Z b0 + byte_to_Z b1 * 256 + byte_to_Z b2 * 65536
              + byte_to_Z b3 * 16777216) / 16777216)
      with (byte_to_Z b3)
      by (apply Z.div_unique_pos
            with (r := byte_to_Z b0 + byte_to_Z b1 * 256 + byte_to_Z b2 * 65536); lia).
    apply Z.mod_small. lia.
Qed.

Lemma u16le_u16_of b0 b1 : u16le (Num (u16_of b0 b1)) = [b0; b1].
Proof.
  pose proof (u16_of_range b0 b1) as Hr.
  pose proof (byte_to_Z_range b0). pose proof (byte_to_Z_range b1).
  assert (Hu : ToUint32 (Num (u16_of b0 b1)) = u16_of b0 b1)
    by (apply ToUint32_small; unfold in_u32; lia).
  unfold u16le. repeat (apply (f_equal2 cons)); try reflexivity; apply byte_to_Z_inj;
    rewrite ?byte_of_band_ushr, ?byte_of_band by lia;
    rewrite Hu; unfold u16_of; change (2 ^ 8) with 256.
  - symmetry. apply Z.mod_unique_pos with (q := byte_to_Z b1); lia.
  - replace ((byte_to_Z b0 + byte_to_Z b1 * 256) / 256) with (byte_to_Z b1)
      by (apply Z.div_unique_pos with (r := byte_to_Z b0); lia).
    apply Z.mod_small. lia.
Qed.

Lemma u32le_repacked i :
  u32le (ZipDateTime.toInt (ZipDateTime.fromInt i)) = u32le i.
Proof.
  rewrite (u32le_ToUint32 (ZipDateTime.toInt _)), (u32le_ToUint32 i).
  now rewrite toInt_fromInt_bits.
Qed.

Lemma from_needs_offset_in {A} (k : number -> M A) s r :
  bind readAsUint k s = Ok r -> offset s < len (bytes s).
Proof.
  intros H. destruct (Z_lt_ge_dec (offset s) (len (bytes s))) as [Hlt|Hge]; [exact Hlt|].
  unfold readAsUint, readAsInt in H. rewrite !bind_assoc in H.
  rewrite (bind_err _ _ _ _ (read_err s ltac:(lia))) in H. discriminate.
Qed.

Lemma len_30 (l : Uint8Array) :
  len l = 30 ->
  exists b0 b1 b2 b3 b4 b5 b6 b7 b8 b9 b10 b11 b12 b13 b14 b15 b16 b17 b18 b19
         b20 b21 b22 b23 b24 b25 b26 b27 b28 b29,
    l = [b0; b1; b2; b3; b4; b5; b6; b7; b8; b9; b10; b11; b12; b13; b14; b15; b16; b17;
         b18; b19; b20; b21; b22; b23; b24; b25; b26; b27; b28; b29].
Proof.
  intros H.
  do 30 (destruct l as [|? l]; [exfalso; unfold len in H; cbn [length] in H; lia|]).
  destruct l; [|exfalso; unfold len in H; cbn [length] in H; lia].
  repeat eexists.
Qed.

Lemma take_drop_after (P rest : Uint8Array) k j :
  0 <= j ->
  take (Z.to_nat k) (drop (Z.to_nat (len P + j)) (P ++ rest))
  = take (Z.to_nat k) (drop (Z.to_nat j) rest).
Proof.
  intros Hj. f_equal. pose proof (len_nonneg P).
  rewrite Z2Nat.inj_add by lia. rewrite to_nat_len.
  rewrite <- drop_drop. now rewrite drop_app_length.
Qed.

Lemma from_local_short s :
  offset s <= len (bytes s) -> len (bytes s) - offset s < 30 ->
  LocalFileHeader.from s = Err (IndexInvalid (Num (len (bytes s) + 1))).
Proof. intros Hs Hn. unfold LocalFileHeader.from. short_steps. Qed.

Lemma from_local_inv s r s' :
  0 <= offset s -> LocalFileHeader.from s = Ok (r, s') ->
  exists pre tail,
    bytes s = pre ++ Layout.localFileHeader r ++ tail
    /\ len pre = offset s
    /\ s' = at_split (pre ++ Layout.localFileHeader r) tail.
Proof.
  intros Ho H.
  assert (Hin : offset s < len (bytes s))
    by (unfold LocalFileHeader.from in H; eapply from_needs_offset_in; exact H).
  assert (H30 : offset s + 30 <= len (bytes s)).
  { destruct (Z_le_gt_dec (offset s + 30) (len (bytes s))) as [Hle|Hgt]; [exact Hle|].
    rewrite from_local_short in H by lia. discriminate. }
  destruct (cursor_split s 30 Ho ltac:(lia) H30) as (Hs & Hpre & Hmid).
  set (pre := take (Z.to_nat (offset s)) (bytes s)) in *.
  set (rest := drop (Z.to_nat (offset s + 30)) (bytes s)) in *.
  apply len_30 in Hmid
    as (b0 & b1 & b2 & b3 & b4 & b5 & b6 & b7 & b8 & b9 & b10 & b11 & b12 & b13 & b14 & b15
        & b16 & b17 & b18 & b19 & b20 & b21 & b22 & b23 & b24 & b25 & b26 & b27 & b28 & b29
        & Hmid).
  rewrite Hmid in Hs. clear Hmid. rewrite Hs in H. cbn [app] in H.
  unfold LocalFileHeader.from in H.
  repeat (erewrite bind_ok in H by first [apply readAsUint_split | apply readAsUshort_split]).
  match type of H with bind _ _ (at_split ?Q _) = _ => set (P := Q) in * end.
  pose proof (u16_of_range b26 b27) as Hfl. pose proof (u16_of_range b28 b29) as Hel.
  pose proof (len_nonneg P) as HP.
  apply bind_inv in H as (name & s1 & H1 & H).
  apply subarray_inv in H1 as (Hle1 & Hname & ->); [|cbn [at_split offset]; lia|lia].
  apply bind_inv in H as (extra & s2 & H2 & H).
  apply subarray_inv in H2 as (Hle2 & Hextra & ->); [|cbn [at_split offset]; lia|lia].
  cbn [at_split bytes offset] in *. rewrite len_app in Hle1, Hle2.
  replace (len P) with (len P + 0) in Hname by lia.
  rewrite take_drop_after in Hname by lia. rewrite drop_0 in Hname.
  rewrite take_drop_after in Hextra by lia.
  assert (Hln : len name = u16_of b26 b27) by (subst name; apply len_take; lia).
  assert (Hle : len extra = u16_of b28 b29).
  { subst extra. unfold len in *. rewrite length_take, length_drop. lia. }
  injection H as <- <-.
  exists pre, (drop (Z.to_nat (u16_of b26 b27 + u16_of b28 b29)) rest).
  assert (HL : Layout.localFileHeader
                 {| LocalFileHeader.signature := Num (u32_of b0 b1 b2 b3);
                    LocalFileHeader.versionNeeded := Num (u16_of b4 b5);
                    LocalFileHeader.flags := Num (u16_of b6 b7);
                    LocalFileHeader.method := Num (u16_of b8 b9);
                    LocalFileHeader.lastModified :=
                      ZipDateTime.fromInt (Num (u32_of b10 b11 b12 b13));
                    LocalFileHeader.crc32 := Num (u32_of b14 b15 b16 b17);
                    LocalFileHeader.compressedSize := Num (u32_of b18 b19 b20 b21);
                    LocalFileHeader.uncompressedSize := Num (u32_of b22 b23 b24 b25);
                    LocalFileHeader.fileNameBytes := name;
                    LocalFileHeader.extraFieldBytes := extra |}
               = [b0; b1; b2; b3; b4; b5; b6; b7; b8; b9; b10; b11; b12; b13; b14; b15;
                  b16; b17; b18; b19; b20; b21; b22; b23; b24; b25; b26; b27; b28; b29]
                 ++ name ++ extra).
  { unfold Layout.localFileHeader.
    cbn [LocalFileHeader.signature LocalFileHeader.versionNeeded LocalFileHeader.flags
         LocalFileHeader.method LocalFileHeader.lastModified LocalFileHeader.crc32
         LocalFileHeader.compressedSize LocalFileHeader.uncompressedSize
         LocalFileHeader.fileNameBytes LocalFileHeader.extraFieldBytes].
    rewrite Hln, Hle, u32le_repacked, !u32le_u32_of, !u16le_u16_of. reflexivity. }
  rewrite HL.
  assert (Hrest : rest = name ++ extra
                         ++ drop (Z.to_nat (u16_of b26 b27 + u16_of b28 b29)) rest).
  { subst name extra. rewrite Z2Nat.inj_add by lia. rewrite <- drop_drop.
    now rewrite !take_drop. }
  split; [|split; [exact Hpre|]].
  - rewrite Hs. cbn [at_split bytes]. rewrite Hrest at 1.
    now rewrite <- !app_assoc.
  - unfold at_split. subst P. f_equal.
    + rewrite Hrest at 1. now rewrite <- !app_assoc.
    + rewrite !len_app, Hln, Hle. unfold len. cbn [length]. lia.
Qed.

Lemma len_46 (l : Uint8Array) :
  len l = 46 ->
  exists b0 b1 b2 b3 b4 b5 b6 b7 b8 b9 b10 b11 b12 b13 b14 b15 b16 b17 b18 b19 b20 b21 b22 b23 b24 b25 b26 b27 b28 b29 b30 b31 b32 b33 b34 b35 b36 b37 b38 b39 b40 b41 b42 b43 b44 b45,
    l = [b0; b1; b2; b3; b4; b5; b6; b7; b8; b9; b10; b11; b12; b13; b14; b15; b16; b17; b18; b19; b20; b21; b22; b23; b24; b25; b26; b27; b28; b29; b30; b31; b32; b33; b34; b35; b36; b37; b38; b39; b40; b41; b42; b43; b44; b45].
Proof.
  intros H.
  do 46 (destruct l as [|? l]; [exfalso; unfold len in H; cbn [length] in H; lia|]).
  destruct l; [|exfalso; unfold len in H; cbn [length] in H; lia].
  repeat eexists.
Qed.

Lemma len_22 (l : Uint8Array) :
  len l = 22 ->
  exists b0 b1 b2 b3 b4 b5 b6 b7 b8 b9 b10 b11 b12 b13 b14 b15 b16 b17 b18 b19 b20 b21,
    l = [b0; b1; b2; b3; b4; b5; b6; b7; b8; b9; b10; b11; b12; b13; b14; b15; b16; b17; b18; b19; b20; b21].
Proof.
  intros H.
  do 22 (destruct l as [|? l]; [exfalso; unfold len in H; cbn [length] in H; lia|]).
  destruct l; [|exfalso; unfold len in H; cbn [length] in H; lia].
  repeat eexists.
Qed.

Lemma from_entry_short s :
  offset s <= len (bytes s) -> len (bytes s) - offset s < 46 ->
  CentralDirectoryEntry.from s = Err (IndexInvalid (Num (len (bytes s) + 1))).
Proof. intros Hs Hn. unfold CentralDirectoryEntry.from. short_steps. Qed.

Lemma from_eocd_short s :
  offset s <= len (bytes s) -> len (bytes s) - offset s < 22 ->
  EndOfCentralDirectoryRecord.from s = Err (IndexInvalid (Num (len (bytes s) + 1))).
Proof. intros Hs Hn. unfold EndOfCentralDirectoryRecord.from. short_steps. Qed.

Lemma from_entry_inv s r s' :
  0 <= offset s -> CentralDirectoryEntry.from s = Ok (r, s') ->
  exists pre tail,
    bytes s = pre ++ Layout.centralDirectoryEntry r ++ tail
    /\ len pre = offset s
    /\ s' = at_split (pre ++ Layout.centralDirectoryEntry r) tail.
Proof.
  intros Ho H.
  assert (Hin : offset s < len (bytes s))
    by (unfold CentralDirectoryEntry.from in H; eapply from_needs_offset_in; exact H).
  assert (H46 : offset s + 46 <= len (bytes s)).
  { destruct (Z_le_gt_dec (offset s + 46) (len (bytes s))) as [Hle|Hgt]; [exact Hle|].
    rewrite from_entry_short in H by lia. discriminate. }
  destruct (cursor_split s 46 Ho ltac:(lia) H46) as (Hs & Hpre & Hmid).
  set (pre := take (Z.to_nat (offset s)) (bytes s)) in *.
  set (rest := drop (Z.to_nat (offset s + 46)) (bytes s)) in *.
  apply len_46 in Hmid
    as (b0 & b1 & b2 & b3 & b4 & b5 & b6 & b7 & b8 & b9 & b10 & b11 & b12 & b13 & b14 & b15 & b16 & b17 & b18 & b19 & b20 & b21 & b22 & b23 & b24 & b25 & b26 & b27 & b28 & b29 & b30 & b31 & b32 & b33 & b34 & b35 & b36 & b37 & b38 & b39 & b40 & b41 & b42 & b43 & b44 & b45 & Hmid).
  rewrite Hmid in Hs. clear Hmid. rewrite Hs in H. cbn [app] in H.
  unfold CentralDirectoryEntry.from in H.
  repeat (erewrite bind_ok in H by first [apply readAsUint_split | apply readAsUshort_split]).
  match type of H with bind _ _ (at_split ?Q _) = _ => set (P := Q) in * end.
  pose proof (u16_of_range b28 b29) as Hfl. pose proof (u16_of_range b30 b31) as Hel.
  pose proof (u16_of_range b32 b33) as Hcl.
  pose proof (len_nonneg P) as HP.
  apply bind_inv in H as (name & s1 & H1 & H).
  apply subarray_inv in H1 as (Hle1 & Hname & ->); [|cbn [at_split offset]; lia|lia].
  apply bind_inv in H as (extra & s2 & H2 & H).
  apply subarray_inv in H2 as (Hle2 & Hextra & ->); [|cbn [at_split offset]; lia|lia].
  apply bind_inv in H as (comment & s3 & H3 & H).
  apply subarray_inv in H3 as (Hle3 & Hcomment & ->); [|cbn [at_split offset]; lia|lia].
  cbn [at_split bytes offset] in *. rewrite len_app in Hle1, Hle2, Hle3.
  replace (len P) with (len P + 0) in Hname by lia.
  rewrite take_drop_after in Hname by lia. rewrite drop_0 in Hname.
  rewrite take_drop_after in Hextra by lia.
  rewrite <- Z.add_assoc in Hcomment. rewrite take_drop_after in Hcomment by lia.
  assert (Hln : len name = u16_of b28 b29) by (subst name; apply len_take; lia).
  assert (Hle : len extra = u16_of b30 b31).
  { subst extra. unfold len in *. rewrite length_take, length_drop. lia. }
  assert (Hlc : len comment = u16_of b32 b33).
  { subst comment. unfold len in *. rewrite length_take, length_drop. lia. }
  injection H as <- <-.
  exists pre, (drop (Z.to_nat (u16_of b28 b29 + u16_of b30 b31 + u16_of b32 b33)) rest).
  assert (HL : Layout.centralDirectoryEntry
                 {| CentralDirectoryEntry.base :=
                      {| LocalFileHeader.signature := Num (u32_of b0 b1 b2 b3);
                         LocalFileHeader.versionNeeded := Num (u16_of b6 b7);
                         LocalFileHeader.flags := Num (u16_of b8 b9);
                         LocalFileHeader.method := Num (u16_of b10 b11);
                         LocalFileHeader.lastModified :=
                           ZipDateTime.fromInt (Num (u32_of b12 b13 b14 b15));
                         LocalFileHeader.crc32 := Num (u32_of b16 b17 b18 b19);
                         LocalFileHeader.compressedSize := Num (u32_of b20 b21 b22 b23);
                         LocalFileHeader.uncompressedSize := Num (u32_of b24 b25 b26 b27);
                         LocalFileHeader.fileNameBytes := name;
                         LocalFileHeader.extraFieldBytes := extra |};
                    CentralDirectoryEntry.versionMadeBy := Num (u16_of b4 b5);
                    CentralDirectoryEntry.diskIdStart := Num (u16_of b34 b35);
                    CentralDirectoryEntry.internalAttributes := Num (u16_of b36 b37);
                    CentralDirectoryEntry.externalAttributes := Num (u32_of b38 b39 b40 b41);
                    CentralDirectoryEntry.headerOffset := Num (u32_of b42 b43 b44 b45);
                    CentralDirectoryEntry.commentBytes := comment |}
               = [b0; b1; b2; b3; b4; b5; b6; b7; b8; b9; b10; b11; b12; b13; b14; b15; b16; b17; b18; b19; b20; b21; b22; b23; b24; b25; b26; b27; b28; b29; b30; b31; b32; b33; b34; b35; b36; b37; b38; b39; b40; b41; b42; b43; b44; b45]
                 ++ name ++ extra ++ comment).
  { unfold Layout.centralDirectoryEntry.
    cbn [CentralDirectoryEntry.base CentralDirectoryEntry.versionMadeBy
         CentralDirectoryEntry.diskIdStart CentralDirectoryEntry.internalAttributes
         CentralDirectoryEntry.externalAttributes CentralDirectoryEntry.headerOffset
         CentralDirectoryEntry.commentBytes
         LocalFileHeader.signature LocalFileHeader.versionNeeded LocalFileHeader.flags
         LocalFileHeader.method LocalFileHeader.lastModified LocalFileHeader.crc32
         LocalFileHeader.compressedSize LocalFileHeader.uncompressedSize
         LocalFileHeader.fileNameBytes LocalFileHeader.extraFieldBytes].
    rewrite Hln, Hle, Hlc, u32le_repacked, !u32le_u32_of, !u16le_u16_of. reflexivity. }
  rewrite HL.
  assert (Hrest : rest = name ++ extra ++ comment
                         ++ drop (Z.to_nat (u16_of b28 b29 + u16_of b30 b31
                                            + u16_of b32 b33)) rest).
  { subst name extra comment. rewrite !Z2Nat.inj_add by lia. rewrite <- !drop_drop.
    now rewrite !take_drop. }
  split; [|split; [exact Hpre|]].
  - rewrite Hs. cbn [at_split bytes]. rewrite Hrest at 1.
    now rewrite <- !app_assoc.
  - unfold at_split. subst P. f_equal.
    + rewrite Hrest at 1. now rewrite <- !app_assoc.
    + rewrite !len_app, Hln, Hle, Hlc. unfold len. cbn [length]. lia.
Qed.

Lemma from_eocd_inv s r s' :
  0 <= offset s -> EndOfCentralDirectoryRecord.from s = Ok (r, s') ->
  exists pre tail,
    bytes s = pre ++ Layout.endOfCentralDirectoryRecord r ++ tail
    /\ len pre = offset s
    /\ s' = at_split (pre ++ Layout.endOfCentralDirectoryRecord r) tail.
Proof.
  intros Ho H.
  assert (Hin : offset s < len (bytes s))
    by (unfold EndOfCentralDirectoryRecord.from in H; eapply from_needs_offset_in; exact H).
  assert (H22 : offset s + 22 <= len (bytes s)).
  { destruct (Z_le_gt_dec (offset s + 22) (len (bytes s))) as [Hle|Hgt]; [exact Hle|].
    rewrite from_eocd_short in H by lia. discriminate. }
  destruct (cursor_split s 22 Ho ltac:(lia) H22) as (Hs & Hpre & Hmid).
  set (pre := take (Z.to_nat (offset s)) (bytes s)) in *.
  set (rest := drop (Z.to_nat (offset s + 22)) (bytes s)) in *.
  apply len_22 in Hmid
    as (b0 & b1 & b2 & b3 & b4 & b5 & b6 & b7 & b8 & b9 & b10 & b11 & b12 & b13 & b14 & b15 & b16 & b17 & b18 & b19 & b20 & b21 & Hmid).
  rewrite Hmid in Hs. clear Hmid. rewrite Hs in H. cbn [app] in H.
  unfold EndOfCentralDirectoryRecord.from in H.
  repeat (erewrite bind_ok in H by first [apply readAsUint_split | apply readAsUshort_split]).
  match type of H with bind _ _ (at_split ?Q _) = _ => set (P := Q) in * end.
  pose proof (u16_of_range b20 b21) as Hcl.
  pose proof (len_nonneg P) as HP.
  apply bind_inv in H as (comment & s1 & H1 & H).
  apply subarray_inv in H1 as (Hle1 & Hcomment & ->); [|cbn [at_split offset]; lia|lia].
  cbn [at_split bytes offset] in *. rewrite len_app in Hle1.
  replace (len P) with (len P + 0) in Hcomment by lia.
  rewrite take_drop_after in Hcomment by lia. rewrite drop_0 in Hcomment.
  assert (Hlc : len comment = u16_of b20 b21) by (subst comment; apply len_take; lia).
  injection H as <- <-.
  exists pre, (drop (Z.to_nat (u16_of b20 b21)) rest).
  assert (HL : Layout.endOfCentralDirectoryRecord
                 {| EndOfCentralDirectoryRecord.signature := Num (u32_of b0 b1 b2 b3);
                    EndOfCentralDirectoryRecord.diskId := Num (u16_of b4 b5);
                    EndOfCentralDirectoryRecord.firstDiskId := Num (u16_of b6 b7);
                    EndOfCentralDirectoryRecord.numOfFiles := Num (u16_of b8 b9);
                    EndOfCentralDirectoryRecord.totalNumOfFiles := Num (u16_of b10 b11);
                    EndOfCentralDirectoryRecord.cdSize := Num (u32_of b12 b13 b14 b15);
                    EndOfCentralDirectoryRecord.cdOffset := Num (u32_of b16 b17 b18 b19);
                    EndOfCentralDirectoryRecord.commentBytes := comment |}
               = [b0; b1; b2; b3; b4; b5; b6; b7; b8; b9; b10; b11; b12; b13; b14; b15; b16; b17; b18; b19; b20; b21] ++ comment).
  { unfold Layout.endOfCentralDirectoryRecord.
    cbn [EndOfCentralDirectoryRecord.signature EndOfCentralDirectoryRecord.diskId
         EndOfCentralDirectoryRecord.firstDiskId EndOfCentralDirectoryRecord.numOfFiles
         EndOfCentralDirectoryRecord.totalNumOfFiles EndOfCentralDirectoryRecord.cdSize
         EndOfCentralDirectoryRecord.cdOffset EndOfCentralDirectoryRecord.commentBytes].
    rewrite Hlc, !u32le_u32_of, !u16le_u16_of. reflexivity. }
  rewrite HL.
  assert (Hrest : rest = comment ++ drop (Z.to_nat (u16_of b20 b21)) rest)
    by (subst comment; now rewrite take_drop).
  split; [|split; [exact Hpre|]].
  - rewrite Hs. cbn [at_split bytes]. rewrite Hrest at 1.
    now rewrite <- !app_assoc.
  - unfold at_split. subst P. f_equal.
    + rewrite Hrest at 1. now rewrite <- !app_assoc.
    + rewrite !len_app, Hlc. unfold len. cbn [length]. lia.
Qed.

Lemma consumed_layout s s' pre (L tail : Uint8Array) :
  bytes s = pre ++ L ++ tail -> len pre = offset s -> s' = at_split (pre ++ L) tail ->
  bytes s' = bytes s /\ offset s' = offset s + len L /\ offset s' <= len (bytes s)
  /\ consumed s s' = L.
Proof.
  intros Hb Hp ->. unfold consumed, at_split. cbn [bytes offset].
  rewrite Hb, <- Hp, !len_app. pose proof (len_nonneg tail).
  split; [now rewrite <- app_assoc|]. split; [reflexivity|]. split; [lia|].
  replace (len pre + len L - len pre) with (len L) by lia.
  rewrite !to_nat_len. apply take_drop_app3.
Qed.

(** X9. Whenever a record parser returns from a non-negative offset, it
    has left the array unchanged and moved the offset by the fixed length
    of the record plus the lengths of its byte ranges, within the array;
    and serializing the record it returned gives back exactly the bytes
    it consumed. *)
Theorem parse_then_serialize (s : t) :
  0 <= offset s ->
  (forall r s', LocalFileHeader.from s = Ok (r, s') ->
     bytes s' = bytes s
     /\ offset s' = offset s + 30 + len (LocalFileHeader.fileNameBytes r)
                    + len (LocalFileHeader.extraFieldBytes r)
     /\ offset s' <= len (bytes s)
     /\ LocalFileHeader.toBytes r = Ok (consumed s s'))
  /\ (forall r s', CentralDirectoryEntry.from s = Ok (r, s') ->
     bytes s' = bytes s
     /\ offset s' = offset s + 46
                    + len (LocalFileHeader.fileNameBytes (CentralDirectoryEntry.base r))
                    + len (LocalFileHeader.extraFieldBytes (CentralDirectoryEntry.base r))
                    + len (CentralDirectoryEntry.commentBytes r)
     /\ offset s' <= len (bytes s)
     /\ CentralDirectoryEntry.toBytes r = Ok (consumed s s'))
  /\ (forall r s', EndOfCentralDirectoryRecord.from s = Ok (r, s') ->
     bytes s' = bytes s
     /\ offset s' = offset s + 22 + len (EndOfCentralDirectoryRecord.commentBytes r)
     /\ offset s' <= len (bytes s)
     /\ EndOfCentralDirectoryRecord.toBytes r = Ok (consumed s s')).
Proof.
  intros Ho. split; [|split]; intros r s' H.
  - apply from_local_inv in H as (pre & tail & Hb & Hp & Hs'); [|exact Ho].
    destruct (consumed_layout _ _ _ _ _ Hb Hp Hs') as (H1 & H2 & H3 & H4).
    rewrite len_layout_localFileHeader in H2.
    rewrite LocalFileHeader_toBytes_layout, H4. repeat split; auto; lia.
  - apply from_entry_inv in H as (pre & tail & Hb & Hp & Hs'); [|exact Ho].
    destruct (consumed_layout _ _ _ _ _ Hb Hp Hs') as (H1 & H2 & H3 & H4).
    rewrite len_layout_centralDirectoryEntry in H2.
    rewrite CentralDirectoryEntry_toBytes_layout, H4. repeat split; auto; lia.
  - apply from_eocd_inv in H as (pre & tail & Hb & Hp & Hs'); [|exact Ho].
    destruct (consumed_layout _ _ _ _ _ Hb Hp Hs') as (H1 & H2 & H3 & H4).
    rewrite len_layout_endOfCentralDirectoryRecord in H2.
    rewrite EndOfCentralDirectoryRecord_toBytes_layout, H4. repeat split; auto; lia.
Qed.

Lemma parse_then_serialize_witness :
  let s := {| bytes := x00 :: Streamed.archive; offset := 1 |} in
  exists r s',
    LocalFileHeader.from s = Ok (r, s')
    /\ offset s' = 32
    /\ LocalFileHeader.toBytes r = Ok (Layout.localFileHeader Streamed.local).
Proof.
  cbv zeta.
  destruct (parse_then_serialize {| bytes := x00 :: Streamed.archive; offset := 1 |})
    as (H & _ & _); [vm_compute; congruence|].
  assert (E : LocalFileHeader.from {| bytes := x00 :: Streamed.archive; offset := 1 |}
              = Ok (Parsed.localFileHeader Streamed.local,
                    {| bytes := x00 :: Streamed.archive; offset := 32 |}))
    by (vm_compute; reflexivity).
  destruct (H _ _ E) as (_ & _ & _ & Ht).
  eexists _, _. split; [exact E|]. split; [reflexivity|exact Ht].
Defined.

Lemma truncated_record_witness :
  LocalFileHeader.from {| bytes := [x50; x4b; x03; x04]; offset := 0 |}
  = Err (IndexInvalid (Num 5))
  /\ EndOfCentralDirectoryRecord.from {| bytes := []; offset := -1 |}
     = Err (IndexInvalid (Num 1)).
Proof.
  destruct (truncated_record {| bytes := [x50; x4b; x03; x04]; offset := 0 |})
    as (H1 & _ & _); [vm_compute; congruence|].
  destruct (truncated_record {| bytes := []; offset := -1 |})
    as (_ & _ & H2); [vm_compute; congruence|].
  split; [apply H1|apply H2]; vm_compute; reflexivity.
Defined.

(** ** The extractor: failures and invariants *)

Lemma findLastIndex_lt a p : findLastIndex a p < len a.
Proof.
  unfold findLastIndex, len.
  destruct (findLastIndex_below_spec (p a) (length a)) as [[-> _]|[H _]]; lia.
Qed.

(** X19. When fewer than 22 bytes follow the position the scan returns
    (-1 when it finds nothing), the constructor throws 'Index is invalid: '
    followed by the length of the buffer plus one; so does every buffer of
    fewer than 21 bytes. *)
Theorem constructor_truncated (buffer : Uint8Array) :
  len buffer < findLastIndex buffer signature_at + 22 \/ len buffer < 21 ->
  Extractor.constructor buffer = Err (IndexInvalid (Num (len buffer + 1))).
Proof.
  intros H.
  assert (Hn : len buffer < findLastIndex buffer signature_at + 22).
  { pose proof (findLastIndex_ge buffer signature_at). destruct H; lia. }
  unfold Extractor.constructor, Extractor.parse.
  unfold bind at 1, get_bytes at 1. cbn [bytes new]. unfold moveTo.
  pose proof (findLastIndex_lt buffer signature_at) as Hlt.
  erewrite bind_ok by (apply set_offset_le; cbn [bytes new]; lia).
  cbn [bytes new]. erewrite bind_err; [reflexivity|].
  rewrite from_eocd_short by (cbn [bytes offset]; lia). reflexivity.
Qed.

Lemma constructor_truncated_witness :
  Extractor.constructor [] = Err (IndexInvalid (Num 1))
  /\ Extractor.constructor [x50; x4b; x05; x06; x00; x00] = Err (IndexInvalid (Num 7)).
Proof.
  split.
  - apply (constructor_truncated []). right. vm_compute. reflexivity.
  - apply (constructor_truncated [x50; x4b; x05; x06; x00; x00]). left.
    vm_compute. reflexivity.
Defined.

Lemma reader_ret {A} (a : A) : reader (ret a).
Proof. split; [intros s a' s' [= _ <-]|intros s e H]; [reflexivity|discriminate]. Qed.

Lemma reader_bind {A B} (m : M A) (k : A -> M B) :
  reader m -> (forall a, reader (k a)) -> reader (bind m k).
Proof.
  intros [Hm1 Hm2] Hk. split.
  - intros s b s' H. apply bind_inv in H as (a & s1 & H1 & H2).
    destruct (Hk a) as [Hk1 _]. rewrite (Hk1 _ _ _ H2). eauto.
  - intros s e H. unfold bind in H. destruct (m s) as [[a s1]|e1] eqn:E.
    + destruct (Hk a) as [_ Hk2]. destruct (Hk2 _ _ H) as (v & -> & Hv).
      exists v. split; [reflexivity|]. now rewrite <- (Hm1 _ _ _ E).
    + injection H as <-. eauto.
Qed.

Lemma reader_get_offset : reader get_offset.
Proof. split; [intros s a s' [= _ <-]|intros s e H]; [reflexivity|discriminate]. Qed.

Lemma reader_get_bytes : reader get_bytes.
Proof. split; [intros s a s' [= _ <-]|intros s e H]; [reflexivity|discriminate]. Qed.

Lemma reader_set_offset v : reader (set_offset v).
Proof.
  split.
  - intros s a s' H. apply set_offset_inv in H as (z & _ & _ & ->). reflexivity.
  - intros s e H. unfold set_offset in H.
    destruct (le v (Num (len (bytes s)))) eqn:E; [discriminate|].
    injection H as <-. eauto.
Qed.

Ltac reader_prims :=
  repeat first
    [ apply reader_ret | apply reader_get_offset | apply reader_get_bytes
    | apply reader_set_offset | apply reader_bind; [|intros ?] ].

Lemma reader_read : reader read.
Proof. unfold read, post_increment. reader_prims. Qed.

Lemma reader_readAsUshort : reader readAsUshort.
Proof. unfold readAsUshort. repeat first [apply reader_read | apply reader_ret | apply reader_bind; [|intros ?]]. Qed.

Lemma reader_readAsInt : reader readAsInt.
Proof. unfold readAsInt. repeat first [apply reader_read | apply reader_ret | apply reader_bind; [|intros ?]]. Qed.

Lemma reader_readAsUint : reader readAsUint.
Proof. unfold readAsUint. repeat first [apply reader_readAsInt | apply reader_ret | apply reader_bind; [|intros ?]]. Qed.

Lemma reader_subarray n : reader (subarray n).
Proof. unfold subarray. reader_prims. Qed.

Lemma reader_moveTo n : reader (moveTo n).
Proof. apply reader_set_offset. Qed.

Ltac reader_steps :=
  repeat first
    [ apply reader_ret | apply reader_readAsUint | apply reader_readAsUshort
    | apply reader_readAsInt | apply reader_subarray | apply reader_moveTo
    | apply reader_get_bytes
    | apply reader_bind; [|intros ?] ].

Lemma reader_from_local : reader LocalFileHeader.from.
Proof. unfold LocalFileHeader.from. reader_steps. Qed.

Lemma reader_from_entry : reader CentralDirectoryEntry.from.
Proof. unfold CentralDirectoryEntry.from. reader_steps. Qed.

Lemma reader_from_eocd : reader EndOfCentralDirectoryRecord.from.
Proof. unfold EndOfCentralDirectoryRecord.from. reader_steps. Qed.

Lemma reader_repeatM {A} n (m : M A) : reader m -> reader (repeatM n m).
Proof.
  intros Hm. induction n as [|n IH]; cbn [repeatM]; [apply reader_ret|].
  apply reader_bind; [exact Hm|intros x]. apply reader_bind; [exact IH|intros xs].
  apply reader_ret.
Qed.

Lemma reader_mapM {A B} (f : A -> M B) l : (forall a, reader (f a)) -> reader (mapM f l).
Proof.
  intros Hf. induction l as [|x l IH]; cbn [mapM]; [apply reader_ret|].
  apply reader_bind; [apply Hf|intros y]. apply reader_bind; [exact IH|intros ys].
  apply reader_ret.
Qed.

Lemma reader_read_content record : reader (Extractor.read_content record).
Proof.
  unfold Extractor.read_content.
  apply reader_bind; [apply reader_moveTo|intros _].
  apply reader_bind; [apply reader_from_local|intros h].
  apply reader_bind; [apply reader_subarray|intros bd].
  destruct (LocalFileHeader.hasDataDescriptor h); [|apply reader_ret].
  apply reader_bind; [apply reader_readAsInt|intros sg].
  apply reader_bind; [destruct (strict_eq sg _); [apply reader_readAsInt|apply reader_ret]|].
  intros crc. reader_steps.
Qed.

Lemma reader_parse : reader Extractor.parse.
Proof.
  unfold Extractor.parse.
  apply reader_bind; [apply reader_get_bytes|intros b].
  apply reader_bind; [apply reader_moveTo|intros _].
  apply reader_bind; [apply reader_from_eocd|intros e].
  apply reader_bind; [apply reader_moveTo|intros _].
  apply reader_bind; [apply reader_repeatM, reader_from_entry|intros cds].
  apply reader_bind; [apply reader_mapM, reader_read_content|intros cs].
  apply reader_ret.
Qed.

(** X20. The constructor fails in one way only: by moving the cursor to a
    value that is not at most the length of the buffer, with the message
    'Index is invalid: ' followed by that value. *)
Theorem constructor_fails_past_end (buffer : Uint8Array) (e : error) :
  Extractor.constructor buffer = Err e ->
  exists v, e = IndexInvalid v /\ le v (Num (len buffer)) = false
            /\ reason e = ("Index is invalid: " ++ to_string v)%string.
Proof.
  unfold Extractor.constructor. intros H.
  destruct (Extractor.parse (new buffer)) as [[ex s]|e'] eqn:E; [discriminate|].
  injection H as ->. destruct reader_parse as [_ Hp].
  destruct (Hp _ _ E) as (v & -> & Hv). exists v. auto.
Qed.

Lemma constructor_fails_past_end_witness :
  exists v, IndexInvalid (Num 1) = IndexInvalid v /\ le v (Num (len (@nil byte))) = false
            /\ reason (IndexInvalid (Num 1)) = ("Index is invalid: " ++ to_string v)%string.
Proof. apply (constructor_fails_past_end [] (IndexInvalid (Num 1))). vm_compute. reflexivity. Defined.

Lemma mapM_length {A B} (f : A -> M B) l s ys s' :
  mapM f l s = Ok (ys, s') -> length ys = length l.
Proof.
  revert s ys s'. induction l as [|x l IH]; intros s ys s' H; cbn [mapM] in H.
  - now injection H as <- _.
  - apply bind_inv in H as (y & s1 & _ & H). apply bind_inv in H as (ys' & s2 & H2 & H).
    injection H as <- _. cbn [length]. f_equal. eauto.
Qed.

(** X21. An extractor that was constructed has as many contents as
    directory entries, that number is the [numOfFiles] of its end record,
    and the body of each content has exactly the [compressedSize] bytes of
    its directory entry, which is at most the length of the buffer. *)
Theorem extractor_is_aligned (buffer : Uint8Array) (ex : Extractor.t) :
  Extractor.constructor buffer = Ok ex ->
  EndOfCentralDirectoryRecord.numOfFiles (Extractor.eocd ex)
  = Num (len (Extractor.centralDirectory ex))
  /\ len (Extractor.contents ex) = len (Extractor.centralDirectory ex)
  /\ Forall2 (fun cd c =>
                LocalFileHeader.compressedSize (CentralDirectoryEntry.base cd)
                = Num (len (body c))
                /\ len (body c) <= len buffer)
       (Extractor.centralDirectory ex) (Extractor.contents ex).
Proof.
  unfold Extractor.constructor. intros H.
  destruct (Extractor.parse (new buffer)) as [[ex' s]|e] eqn:E; [|discriminate].
  injection H as ->. unfold Extractor.parse in E.
  apply bind_inv in E as (b & s0 & H0 & E). injection H0 as <- <-. cbn [bytes new] in E.
  apply bind_inv in E as (u & s1 & H1 & E).
  apply set_offset_inv in H1 as (z & [= <-] & _ & ->). cbn [bytes new] in E.
  apply bind_inv in E as (eocd & s2 & H2 & E).
  apply from_eocd_counts in H2 as (Hb2 & Ho2 & (co & Hco & Hco0) & (nf & Hnf & Hnf0));
    [|cbn [offset]; apply findLastIndex_ge].
  cbn [bytes] in Hb2.
  apply bind_inv in E as (u2 & s3 & H3 & E). rewrite Hco in H3.
  apply set_offset_inv in H3 as (z3 & [= <-] & _ & ->). rewrite Hb2 in E.
  apply bind_inv in E as (cds & s4 & H4 & E).
  pose proof (repeatM_length _ _ _ _ _ H4) as Hlen.
  destruct (reads_repeatM _ _ _ reads_from_entry _ _ _ H4 Hco0) as (Hb4 & Ho4 & Hcds).
  cbn [bytes] in Hb4.
  apply bind_inv in E as (cs & s5 & H5 & E). injection E as <- _.
  cbn [Extractor.centralDirectory Extractor.contents Extractor.eocd].
  split; [|split].
  - rewrite Hnf. f_equal. unfold len. rewrite Hlen, Hnf. cbn [ToInteger]. lia.
  - unfold len. f_equal. eapply mapM_length. exact H5.
  - pose proof (mapM_inv _ _ _ _ _ _ reads_read_content Hcds H5 Ho4) as Hm.
    eapply Forall2_impl; [exact (Forall2_and_Forall_l _ _ _ _ Hcds Hm)|].
    intros x y [[Hx1 Hx2] (sa & sb & Hba & _ & Hf)].
    assert (Hc : content_of buffer x y)
      by (apply (read_content_inv buffer x sa y sb Hx1 Hx2); [congruence|exact Hf]).
    destruct Hc as (off & csize & h & p0 & _ & _ & Hcs & Hcs0 & _ & Hp0 & Hle & Hbd & _).
    assert (Hl : len (body y) = csize).
    { rewrite Hbd. unfold len in *. rewrite length_take, length_drop. lia. }
    rewrite Hl. split; [exact Hcs|lia].
Qed.

Lemma extractor_is_aligned_witness :
  exists ex,
    Extractor.constructor Streamed.archive = Ok ex
    /\ EndOfCentralDirectoryRecord.numOfFiles (Extractor.eocd ex) = Num 1
    /\ len (Extractor.contents ex) = 1.
Proof.
  assert (E : exists ex, Extractor.constructor Streamed.archive = Ok ex
                         /\ len (Extractor.centralDirectory ex) = 1)
    by (eexists; split; vm_compute; reflexivity).
  destruct E as (ex & E & Hn). exists ex. split; [exact E|].
  destruct (extractor_is_aligned _ _ E) as (H1 & H2 & _).
  rewrite Hn in H1, H2. split; [exact H1|exact H2].
Defined.

Section GetPaths.
Variable encode : string -> Uint8Array.
Variable decode : option string -> Uint8Array -> string.
Variable Date_of : number -> Date.
Variable deflate_raw : Uint8Array -> Uint8Array.

(** X22. Under the conditions of the round trip, [getPaths] on the
    extractor of a built archive returns, in order, what the decoder
    makes of the encoded bytes of each appended file path; hence the
    paths themselves when the decoder gives each of them back from its
    encoding. *)
Theorem getPaths_of_built_archive
    (entries : list (Date * Uint8Array * Builder.options)) (comment : option string)
    (encoding : option string) :
  Forall (entry_valid encode deflate_raw) entries ->
  len entries < 2 ^ 16 ->
  len (locals_region (map (entry_content encode Date_of deflate_raw) entries)) < 2 ^ 32 ->
  len (Builder.encode_opt encode comment) < 2 ^ 16 ->
  findLastIndex
    (Layout.endOfCentralDirectoryRecord
       (archive_eocd encode Date_of deflate_raw entries comment)) signature_at = 0 ->
  exists ex,
    extract_built encode Date_of deflate_raw entries comment = Ok ex
    /\ Extractor.getPaths decode ex encoding
       = map (fun e => decode encoding (encode (Builder.filepath (snd e)))) entries
    /\ (Forall (fun e => decode encoding (encode (Builder.filepath (snd e)))
                         = Builder.filepath (snd e)) entries ->
        Extractor.getPaths decode ex encoding
        = map (fun e => Builder.filepath (snd e)) entries).
Proof.
  intros Hv Hn Hl Hc Hsig.
  eexists. split.
  - unfold extract_built. rewrite archive_of_spec by exact Hv.
    apply constructor_canonical.
    + apply Forall2_fmap, Forall_Forall2_diag.
      eapply Forall_impl; [exact Hv|]. apply entry_describes.
    + apply Forall_fmap. eapply Forall_impl; [exact Hv|]. apply entry_ranges_fit.
    + unfold len in *. now rewrite length_map.
    + exact Hl.
    + exact Hc.
    + exact Hsig.
  - match goal with
    | |- ?lhs = _ /\ _ =>
        assert (Hp : lhs = map (fun e => decode encoding (encode (Builder.filepath (snd e))))
                             entries)
    end.
    { unfold Extractor.getPaths. cbn [Extractor.contents]. rewrite !map_map.
      apply map_ext. intros e. reflexivity. }
    split; [exact Hp|]. intros Hid. rewrite Hp. apply map_ext_Forall. exact Hid.
Qed.

End GetPaths.

Lemma getPaths_of_built_archive_witness :
  exists ex,
    extract_built Host.encode Host.Date_of Host.deflate_raw
      [Host.stored "a.txt"; Host.deflated "b.txt"] None = Ok ex
    /\ Extractor.getPaths (fun _ => Host.decode) ex None = ["a.txt"; "b.txt"]%string.
Proof.
  destruct (getPaths_of_built_archive Host.encode (fun _ => Host.decode) Host.Date_of
              Host.deflate_raw [Host.stored "a.txt"; Host.deflated "b.txt"] None None)
    as (ex & E & Hp & _).
  - repeat constructor; vm_compute; congruence.
  - vm_compute. reflexivity.
  - vm_compute. reflexivity.
  - vm_compute. reflexivity.
  - vm_compute. reflexivity.
  - exists ex. split; [exact E|]. rewrite Hp. reflexivity.
Defined.

(** ** The builder: append, remove and build *)

Lemma strict_eq_Num a z : strict_eq a (Num z) = true -> a = Num z.
Proof. destruct a as [x|]; cbn; [|discriminate]. intros H. apply Z.eqb_eq in H. now subst. Qed.

Lemma strict_neq_Num a z : a <> Num z -> strict_eq a (Num z) = false.
Proof.
  intros H. destruct (strict_eq a (Num z)) eqn:E; [|reflexivity].
  now apply strict_eq_Num in E.
Qed.

Section AppendMore.
Variable encode : string -> Uint8Array.
Variable decode : Uint8Array -> string.
Variable Date_of : number -> Date.
Variable deflate_raw : Uint8Array -> Uint8Array.

Local Abbreviation append' := (Builder.append encode Date_of deflate_raw).

Lemma append_inv now b buf opt b' n :
  append' now b buf opt = Ok (b', n) ->
  let e := (now, buf, opt) in
  (entry_method e = Num 0 \/ entry_method e = Num 8)
  /\ b' = {| Builder.centralDirectory :=
               Builder.centralDirectory b ++ [entry_record encode Date_of deflate_raw e];
             Builder.contents :=
               Builder.contents b ++ [entry_content encode Date_of deflate_raw e] |}
  /\ n = Num (len (Builder.contents b) + 1).
Proof.
  intros H e.
  assert (Hm : entry_method e = Num 0 \/ entry_method e = Num 8).
  { unfold Builder.append in H. unfold entry_method, e. cbn [snd].
    destruct (strict_eq _ (Num 0)) eqn:E0; [left; now apply strict_eq_Num|].
    destruct (strict_eq _ (Num 8)) eqn:E8; [right; now apply strict_eq_Num|discriminate]. }
  split; [exact Hm|]. rewrite (append_spec encode Date_of deflate_raw now b buf opt Hm) in H.
  now injection H as <- <-.
Qed.

(** X23. [append] succeeds exactly for the methods 0 and 8 (8 when none
    is given): it then returns the new number of contents, one more than
    the index of the new entry, adds one entry at the end of each list and
    keeps the lists the same length if they were; for any other method it
    throws 'Unsupported compression method: ' followed by the method. *)
Theorem append_returns_count (now : Date) (b : Builder.t) (buf : Uint8Array)
    (opt : Builder.options) :
  let m := match Builder.method opt with Some m => m | None => Num 8 end in
  (m = Num 0 \/ m = Num 8 ->
     exists cd c,
       append' now b buf opt
       = Ok ({| Builder.centralDirectory := Builder.centralDirectory b ++ [cd];
                Builder.contents := Builder.contents b ++ [c] |},
             Num (len (Builder.contents b) + 1))
       /\ at_ (Builder.contents b ++ [c]) (len (Builder.contents b)) = Some c
       /\ (length (Builder.centralDirectory b) = length (Builder.contents b) ->
           length (Builder.centralDirectory b ++ [cd])
           = length (Builder.contents b ++ [c])))
  /\ (m <> Num 0 -> m <> Num 8 ->
      append' now b buf opt = Err (UnsupportedMethod m)
      /\ reason (UnsupportedMethod m)
         = ("Unsupported compression method: " ++ to_string m)%string).
Proof.
  cbv zeta. split.
  - intros Hm. eexists _, _.
    split; [exact (append_spec encode Date_of deflate_raw now b buf opt Hm)|]. split.
    + pose proof (len_nonneg (Builder.contents b)).
      rewrite at_in_range by (unfold len; rewrite length_app; cbn [length]; lia).
      rewrite to_nat_len. now rewrite list_lookup_middle.
    + intros Hl. rewrite !length_app. cbn [length]. lia.
  - intros H0 H8. unfold Builder.append.
    rewrite (strict_neq_Num _ 0 H0), (strict_neq_Num _ 8 H8). split; reflexivity.
Qed.

(** X24. The two records [append] adds agree on every field they share
    but the signature; they record the length of the stored body, the
    length of the input and its CRC-32, the encoded file path, and version
    10 with the input as body for method 0, version 20 with the deflated
    input as body for method 8; the directory entry has no header offset
    yet. *)
Theorem append_records_agree (now : Date) (b : Builder.t) (buf : Uint8Array)
    (opt : Builder.options) (b' : Builder.t) (n : number) :
  append' now b buf opt = Ok (b', n) ->
  exists cd c,
    Builder.centralDirectory b' = Builder.centralDirectory b ++ [cd]
    /\ Builder.contents b' = Builder.contents b ++ [c]
    /\ CentralDirectoryEntry.base cd
       = {| LocalFileHeader.signature := Num 0x02014b50;
            LocalFileHeader.versionNeeded := LocalFileHeader.versionNeeded (header c);
            LocalFileHeader.flags := LocalFileHeader.flags (header c);
            LocalFileHeader.method := LocalFileHeader.method (header c);
            LocalFileHeader.lastModified := LocalFileHeader.lastModified (header c);
            LocalFileHeader.crc32 := LocalFileHeader.crc32 (header c);
            LocalFileHeader.compressedSize := LocalFileHeader.compressedSize (header c);
            LocalFileHeader.uncompressedSize := LocalFileHeader.uncompressedSize (header c);
            LocalFileHeader.fileNameBytes := LocalFileHeader.fileNameBytes (header c);
            LocalFileHeader.extraFieldBytes := LocalFileHeader.extraFieldBytes (header c) |}
    /\ LocalFileHeader.signature (header c) = Num 0x04034b50
    /\ LocalFileHeader.compressedSize (header c) = Num (len (body c))
    /\ LocalFileHeader.uncompressedSize (header c) = Num (len buf)
    /\ LocalFileHeader.crc32 (header c) = Crc32.calc buf
    /\ LocalFileHeader.fileNameBytes (header c) = encode (Builder.filepath opt)
    /\ (LocalFileHeader.method (header c) = Num 0
        /\ LocalFileHeader.versionNeeded (header c) = Num 10 /\ body c = buf
        \/ LocalFileHeader.method (header c) = Num 8
           /\ LocalFileHeader.versionNeeded (header c) = Num 20
           /\ body c = deflate_raw buf)
    /\ CentralDirectoryEntry.versionMadeBy cd = Num 20
    /\ CentralDirectoryEntry.headerOffset cd = NaN.
Proof.
  intros H. apply append_inv in H as (Hm & -> & ->). cbv zeta in Hm.
  eexists _, _. cbn [Builder.centralDirectory Builder.contents].
  split; [reflexivity|]. split; [reflexivity|].
  split; [reflexivity|]. split; [reflexivity|]. split; [reflexivity|].
  split; [reflexivity|]. split; [reflexivity|]. split; [reflexivity|].
  split; [|split; reflexivity].
  cbn [entry_content header body Builder.make_header LocalFileHeader.method
       LocalFileHeader.versionNeeded]. unfold entry_body.
  destruct Hm as [Hm|Hm]; rewrite Hm; cbn [strict_eq Z.eqb Pos.eqb]; auto.
Qed.

End AppendMore.

Lemma append_returns_count_witness :
  (exists b',
     Builder.append Host.encode Host.Date_of Host.deflate_raw Host.now Host.builder3
       Host.hello (Builder.of_filepath "d.txt") = Ok (b', Num 4))
  /\ len (Builder.contents Host.builder3) = 3
  /\ Builder.append Host.encode Host.Date_of Host.deflate_raw Host.now Host.builder3
       Host.hello
       {| Builder.filepath := "d.txt"; Builder.method := Some (Num 9);
          Builder.lastModified := None; Builder.extraField := None;
          Builder.comment := None |}
     = Err (UnsupportedMethod (Num 9)).
Proof.
  split; [|split; [reflexivity|]].
  - destruct (append_returns_count Host.encode Host.Date_of Host.deflate_raw Host.now
                Host.builder3 Host.hello (Builder.of_filepath "d.txt")) as [H _].
    destruct (H (or_intror eq_refl)) as (cd & c & E & _). eexists. exact E.
  - destruct (append_returns_count Host.encode Host.Date_of Host.deflate_raw Host.now
                Host.builder3 Host.hello
                {| Builder.filepath := "d.txt"; Builder.method := Some (Num 9);
                   Builder.lastModified := None; Builder.extraField := None;
                   Builder.comment := None |}) as [_ H'].
    apply H'; discriminate.
Defined.

Lemma append_records_agree_witness :
  exists b' n cd c,
    Builder.append Host.encode Host.Date_of Host.deflate_raw Host.now Builder.new
      Host.hello (Builder.of_filepath "a.txt") = Ok (b', n)
    /\ Builder.centralDirectory b' = [cd]
    /\ Builder.contents b' = [c]
    /\ LocalFileHeader.compressedSize (header c) = Num (len (body c))
    /\ LocalFileHeader.crc32 (CentralDirectoryEntry.base cd) = Crc32.calc Host.hello.
Proof.
  assert (E : exists b' n,
             Builder.append Host.encode Host.Date_of Host.deflate_raw Host.now Builder.new
               Host.hello (Builder.of_filepath "a.txt") = Ok (b', n))
    by (eexists _, _; vm_compute; reflexivity).
  destruct E as (b' & n & E).
  destruct (append_records_agree _ _ _ _ _ _ _ _ _ E)
    as (cd & c & H1 & H2 & H3 & _ & H5 & _ & H7 & _).
  exists b', n, cd, c. split; [exact E|]. split; [exact H1|]. split; [exact H2|].
  split; [exact H5|]. rewrite H3. exact H7.
Defined.

Lemma relative_index_range i n : 0 <= n -> 0 <= relative_index i n <= n.
Proof. intros Hn. unfold relative_index. destruct (Z.ltb_spec i 0); lia. Qed.

Lemma splice_lengths {A} (l : list A) (i c : Z) :
  let s := relative_index i (len l) in
  let d := Z.min (Z.max c 0) (len l - s) in
  len (fst (splice l i c)) = d /\ len (snd (splice l i c)) = len l - d.
Proof.
  cbv zeta. unfold splice. cbv zeta. cbn [fst snd].
  pose proof (relative_index_range i (len l) (len_nonneg l)) as Hs.
  set (s := relative_index i (len l)) in *.
  set (d := Z.min (Z.max c 0) (len l - s)).
  assert (Hd : 0 <= d <= len l - s) by (unfold d; lia).
  split.
  - unfold len in *. rewrite length_take, length_drop. lia.
  - rewrite len_app. unfold len in *. rewrite length_take, length_drop. lia.
Qed.

Lemma splice_beyond {A} (l : list A) (i c : Z) :
  len l <= i -> splice l i c = ([], l).
Proof.
  intros Hi. pose proof (len_nonneg l). unfold splice. cbv zeta.
  assert (Hr : relative_index i (len l) = len l)
    by (unfold relative_index; destruct (Z.ltb_spec i 0); lia).
  rewrite Hr. replace (Z.min (Z.max c 0) (len l - len l)) with 0 by lia.
  rewrite Z.add_0_r, to_nat_len. cbn [Z.to_nat take].
  now rewrite firstn_all, drop_all, app_nil_r.
Qed.

Section RemoveMore.
Variable encode : string -> Uint8Array.
Variable decode : Uint8Array -> string.
Variable Date_of : number -> Date.
Variable deflate_raw : Uint8Array -> Uint8Array.

(** X25. [remove(index)] with the default count keeps the two lists of a
    builder the same length, for every index: an index at or past the end
    removes nothing and returns no path, any other index removes one
    entry of each list and returns one path. *)
Theorem remove_keeps_alignment (b : Builder.t) (index : Z) :
  length (Builder.centralDirectory b) = length (Builder.contents b) ->
  let n := len (Builder.contents b) in
  let b' := fst (Builder.remove decode b index None) in
  let paths := snd (Builder.remove decode b index None) in
  length (Builder.centralDirectory b') = length (Builder.contents b')
  /\ (n <= index -> b' = b /\ paths = [])
  /\ (index < n -> 0 < n -> len (Builder.contents b') = n - 1 /\ len paths = 1).
Proof.
  intros Hal. cbv zeta. unfold Builder.remove.
  destruct (splice (Builder.centralDirectory b) index 1) as [cd rest] eqn:E1.
  destruct (splice (Builder.contents b) index 1) as [cc rest'] eqn:E2.
  cbn [fst snd Builder.centralDirectory Builder.contents].
  pose proof (splice_lengths (Builder.centralDirectory b) index 1) as H1.
  pose proof (splice_lengths (Builder.contents b) index 1) as H2.
  cbv zeta in H1, H2. rewrite E1 in H1. rewrite E2 in H2. cbn [fst snd] in H1, H2.
  assert (Hn : len (Builder.centralDirectory b) = len (Builder.contents b))
    by (unfold len; now rewrite Hal).
  rewrite Hn in H1. destruct H1 as [H1a H1b]. destruct H2 as [H2a H2b].
  pose proof (len_nonneg (Builder.contents b)) as H0.
  split; [unfold len in *; lia|]. split.
  - intros Hi.
    rewrite splice_beyond in E1 by lia. rewrite splice_beyond in E2 by lia.
    injection E1 as <- <-. injection E2 as <- <-. destruct b. split; reflexivity.
  - intros Hi Hpos.
    assert (Hr : 0 <= relative_index index (len (Builder.contents b))
                 < len (Builder.contents b))
      by (unfold relative_index; destruct (Z.ltb_spec index 0); lia).
    split; [rewrite H2b; lia|]. unfold len in *. rewrite length_map. lia.
Qed.

(** X26. On a builder whose lists have the same length, removing the
    entry [append] has just added, by its index or by -1, restores the
    builder and returns the decoded path of that entry. *)
Theorem remove_undoes_append (now : Date) (b : Builder.t) (buf : Uint8Array)
    (opt : Builder.options) (b' : Builder.t) (n : number) :
  length (Builder.centralDirectory b) = length (Builder.contents b) ->
  Builder.append encode Date_of deflate_raw now b buf opt = Ok (b', n) ->
  Builder.remove decode b' (len (Builder.contents b)) None
  = (b, [decode (encode (Builder.filepath opt))])
  /\ Builder.remove decode b' (-1) None = (b, [decode (encode (Builder.filepath opt))]).
Proof.
  intros Hal H. apply append_inv in H as (_ & -> & _).
  assert (Hn : len (Builder.centralDirectory b) = len (Builder.contents b))
    by (unfold len; now rewrite Hal).
  pose proof (len_nonneg (Builder.contents b)) as H0.
  assert (Hs : forall A (l : list A) (x : A) i,
             i = len l \/ i = -1 -> splice (l ++ [x]) i 1 = ([x], l)).
  { intros A l x i Hi. pose proof (len_nonneg l). unfold splice. cbv zeta.
    assert (Hl : len (l ++ [x]) = len l + 1) by (rewrite len_app; reflexivity).
    assert (Hr : relative_index i (len (l ++ [x])) = len l).
    { rewrite Hl. unfold relative_index. destruct Hi as [-> | ->].
      - destruct (Z.ltb_spec (len l) 0); lia.
      - cbn [Z.ltb Z.compare]. lia. }
    rewrite Hr, Hl. replace (Z.min (Z.max 1 0) (len l + 1 - len l)) with 1 by lia.
    rewrite Z2Nat.inj_add by lia. rewrite to_nat_len.
    rewrite drop_app_length, take_app_length.
    rewrite drop_app_ge by lia.
    replace (length l + Z.to_nat 1 - length l)%nat with 1%nat by lia.
    cbn. now rewrite app_nil_r. }
  unfold Builder.remove. cbn [Builder.centralDirectory Builder.contents].
  split.
  - rewrite (Hs _ (Builder.centralDirectory b)) by (left; lia).
    rewrite (Hs _ (Builder.contents b)) by (left; lia).
    destruct b. reflexivity.
  - rewrite (Hs _ (Builder.centralDirectory b)) by (right; lia).
    rewrite (Hs _ (Builder.contents b)) by (right; lia).
    destruct b. reflexivity.
Qed.

End RemoveMore.

Lemma remove_keeps_alignment_witness :
  let b' := fst (Builder.remove Host.decode Host.builder3 (-1) None) in
  length (Builder.centralDirectory b') = length (Builder.contents b')
  /\ len (Builder.contents b') = 2
  /\ snd (Builder.remove Host.decode Host.builder3 (-1) None) = ["c.txt"%string]
  /\ fst (Builder.remove Host.decode Host.builder3 3 None) = Host.builder3.
Proof.
  cbv zeta.
  destruct (remove_keeps_alignment Host.decode Host.builder3 (-1)) as (H1 & _ & H3);
    [reflexivity|].
  destruct (remove_keeps_alignment Host.decode Host.builder3 3) as (_ & H2 & _);
    [reflexivity|].
  split; [exact H1|]. split; [apply H3; reflexivity|]. split; [reflexivity|].
  apply H2. vm_compute. congruence.
Defined.

Lemma remove_undoes_append_witness :
  exists b',
    Builder.append Host.encode Host.Date_of Host.deflate_raw Host.now Host.builder3
      Host.hello (Builder.of_filepath "d.txt") = Ok (b', Num 4)
    /\ Builder.remove Host.decode b' 3 None = (Host.builder3, ["d.txt"%string]).
Proof.
  eexists. split; [vm_compute; reflexivity|].
  apply (remove_undoes_append Host.encode Host.decode Host.Date_of Host.deflate_raw
           Host.now Host.builder3 Host.hello (Builder.of_filepath "d.txt") _ (Num 4)).
  - reflexivity.
  - vm_compute. reflexivity.
Defined.

Lemma build_loop_ge offset cds cs :
  (length cs <= length cds)%nat ->
  Builder.build_loop offset cds cs
  = Ok (with_offsets offset cds cs,
        flat_map (fun c => [Layout.localFileHeader (header c); body c]) cs,
        offset + len (locals_region cs)).
Proof.
  revert offset cds. induction cs as [|c cs IH]; intros offset cds Hl.
  - destruct cds; cbn; now rewrite Z.add_0_r.
  - destruct cds as [|cd cds]; [cbn [length] in Hl; lia|]. cbn [length] in Hl.
    cbn [Builder.build_loop]. rewrite LocalFileHeader_toBytes_layout.
    rewrite <- len_app. fold (local_part c). rewrite IH by lia.
    cbn [with_offsets flat_map app]. unfold locals_region. cbn [map].
    rewrite len_concat_cons. now rewrite Z.add_assoc.
Qed.

Lemma build_loop_short offset cds cs :
  (length cds < length cs)%nat -> Builder.build_loop offset cds cs = Err TypeError.
Proof.
  revert offset cds. induction cs as [|c cs IH]; intros offset cds Hl.
  - cbn [length] in Hl. lia.
  - destruct cds as [|cd cds]; [reflexivity|]. cbn [length] in Hl.
    cbn [Builder.build_loop]. rewrite LocalFileHeader_toBytes_layout.
    now rewrite IH by lia.
Qed.

Lemma with_offsets_idem offset cds cs :
  with_offsets offset (with_offsets offset cds cs) cs = with_offsets offset cds cs.
Proof.
  revert offset cds. induction cs as [|c cs IH]; intros offset [|cd cds]; try reflexivity.
  cbn [with_offsets]. now rewrite IH.
Qed.

Section BuildMore.
Variable encode : string -> Uint8Array.

Lemma build_ge (b : Builder.t) (comment : option string) :
  (length (Builder.contents b) <= length (Builder.centralDirectory b))%nat ->
  let cs := Builder.contents b in
  let cds := with_offsets 0 (Builder.centralDirectory b) cs in
  let eocd := built_eocd (len cs) (len (directory_region cds)) (len (locals_region cs))
                (Builder.encode_opt encode comment) in
  Builder.build encode b comment
  = Ok ({| Builder.centralDirectory := cds; Builder.contents := cs |},
        {| Builder.blob_bytes :=
             locals_region cs ++ directory_region cds ++ Layout.endOfCentralDirectoryRecord eocd;
           Builder.blob_type := "application/zip" |}).
Proof.
  intros Hl cs cds eocd. unfold Builder.build, Builder.build_parts.
  rewrite (build_loop_ge 0 _ _ Hl), map_toBytes_layout.
  fold cs. fold cds. rewrite fold_add_len. cbn [Z.add].
  change (EndOfCentralDirectoryRecord.signature EndOfCentralDirectoryRecord.new) with (Num 0x06054b50).
  change (EndOfCentralDirectoryRecord.diskId EndOfCentralDirectoryRecord.new) with (Num 0).
  change (EndOfCentralDirectoryRecord.firstDiskId EndOfCentralDirectoryRecord.new) with (Num 0).
  fold (directory_region cds). fold (built_eocd (len cs) (len (directory_region cds))
    (len (locals_region cs)) (Builder.encode_opt encode comment)). fold eocd.
  rewrite EndOfCentralDirectoryRecord_toBytes_layout.
  rewrite !concat_app, concat_flat_map_parts. cbn [concat]. now rewrite app_nil_r.
Qed.

Lemma build_short (b : Builder.t) (comment : option string) :
  (length (Builder.centralDirectory b) < length (Builder.contents b))%nat ->
  Builder.build encode b comment = Err TypeError.
Proof.
  intros Hl. unfold Builder.build, Builder.build_parts.
  now rewrite (build_loop_short 0 _ _ Hl).
Qed.

(** X27. [build] throws a [TypeError] when the directory has fewer
    entries than the contents, and succeeds otherwise: it leaves the contents and the length of the
    directory as they were, and the blob, of type 'application/zip', has
    the length of the local parts plus the length of the serialized
    directory plus 22 plus the length of the encoded comment. *)
Theorem build_needs_directory (b : Builder.t) (comment : option string) :
  ((length (Builder.centralDirectory b) < length (Builder.contents b))%nat ->
     Builder.build encode b comment = Err TypeError)
  /\ ((length (Builder.contents b) <= length (Builder.centralDirectory b))%nat ->
      exists b' blob,
        Builder.build encode b comment = Ok (b', blob)
        /\ Builder.contents b' = Builder.contents b
        /\ length (Builder.centralDirectory b') = length (Builder.centralDirectory b)
        /\ Builder.blob_type blob = "application/zip"%string
        /\ len (Builder.blob_bytes blob)
           = len (locals_region (Builder.contents b))
             + len (directory_region (Builder.centralDirectory b))
             + 22 + len (Builder.encode_opt encode comment)).
Proof.
  split; [apply build_short|]. intros Hl.
  eexists _, _. split; [apply (build_ge b comment Hl)|].
  cbn [Builder.contents Builder.centralDirectory Builder.blob_bytes Builder.blob_type].
  split; [reflexivity|]. split; [apply with_offsets_length|]. split; [reflexivity|].
  rewrite !len_app, len_directory_with_offsets, len_layout_endOfCentralDirectoryRecord.
  cbn [built_eocd EndOfCentralDirectoryRecord.commentBytes]. lia.
Qed.

(** X28. [build] can be repeated: on the builder it leaves behind, with
    the same comment, it returns the same blob and leaves the builder as
    it is, and with any comment it succeeds; it never changes the
    contents. *)
Theorem build_is_repeatable (b b' : Builder.t) (comment : option string) (blob : Builder.Blob) :
  Builder.build encode b comment = Ok (b', blob) ->
  Builder.build encode b' comment = Ok (b', blob)
  /\ Builder.contents b' = Builder.contents b
  /\ forall comment', exists blob', Builder.build encode b' comment' = Ok (b', blob').
Proof.
  intros H.
  destruct (Nat.le_gt_cases (length (Builder.contents b))
              (length (Builder.centralDirectory b))) as [Hl|Hl];
    [|rewrite build_short in H by exact Hl; discriminate].
  rewrite (build_ge b comment Hl) in H. injection H as <- <-.
  assert (Hl' : (length (Builder.contents b)
                 <= length (with_offsets 0 (Builder.centralDirectory b) (Builder.contents b)))%nat)
    by (now rewrite with_offsets_length).
  split; [|split; [reflexivity|]].
  - rewrite build_ge by exact Hl'.
    cbn [Builder.contents Builder.centralDirectory]. now rewrite with_offsets_idem.
  - intros comment'. eexists. rewrite build_ge by exact Hl'.
    cbn [Builder.contents Builder.centralDirectory]. now rewrite with_offsets_idem.
Qed.

(** X29. In every built archive the scan finds the end-record signature
    at or after the start of the end record, so the guarded constructor
    of the [DataView] variant does not reject it. *)
Theorem built_archive_has_end_record (b b' : Builder.t) (comment : option string)
    (blob : Builder.Blob) :
  Builder.build encode b comment = Ok (b', blob) ->
  exists k,
    ExtractorView.eocdOffset (Builder.blob_bytes blob) = Ok k
    /\ findLastIndex (Builder.blob_bytes blob) signature_at = k
    /\ len (Builder.blob_bytes blob) - 22 - len (Builder.encode_opt encode comment) <= k
    /\ k < len (Builder.blob_bytes blob).
Proof.
  intros H.
  destruct (Nat.le_gt_cases (length (Builder.contents b))
              (length (Builder.centralDirectory b))) as [Hl|Hl];
    [|rewrite build_short in H by exact Hl; discriminate].
  rewrite (build_ge b comment Hl) in H. injection H as _ <-.
  cbn [Builder.blob_bytes].
  set (cs := Builder.contents b).
  set (cds := with_offsets 0 (Builder.centralDirectory b) cs).
  set (eocd := built_eocd _ _ _ _).
  rewrite app_assoc. set (pre := locals_region cs ++ directory_region cds).
  set (a := pre ++ Layout.endOfCentralDirectoryRecord eocd).
  assert (Hsig : signature_at a (len pre) = true).
  { unfold a. replace (len pre) with (len pre + 0) by lia.
    rewrite signature_at_app_r by lia. reflexivity. }
  assert (Hla : len a = len pre + 22 + len (Builder.encode_opt encode comment)).
  { unfold a. rewrite len_app, len_layout_endOfCentralDirectoryRecord. unfold eocd.
    cbn [built_eocd EndOfCentralDirectoryRecord.commentBytes]. lia. }
  pose proof (len_nonneg pre) as Hp.
  pose proof (len_nonneg (Builder.encode_opt encode comment)) as Hc.
  exists (findLastIndex a signature_at).
  pose proof (findLastIndex_lt a signature_at) as Hlt.
  assert (Hk : len pre <= findLastIndex a signature_at).
  { unfold findLastIndex in *.
    destruct (findLastIndex_below_spec (signature_at a) (length a)) as [[_ Hnone]|(_ & _ & Hlast)].
    - rewrite Hnone in Hsig by (fold (len a); lia). discriminate.
    - destruct (Z_le_gt_dec (len pre) (findLastIndex_below (signature_at a) (length a)))
        as [Hle|Hgt]; [exact Hle|].
      rewrite Hlast in Hsig by (fold (len a); lia). discriminate. }
  unfold ExtractorView.eocdOffset.
  destruct (Z.ltb_spec (findLastIndex a signature_at) 0); [lia|].
  split; [reflexivity|]. split; [reflexivity|]. split; lia.
Qed.

End BuildMore.

Lemma build_is_repeatable_witness :
  exists b' blob,
    Builder.build Host.encode Host.builder3 None = Ok (b', blob)
    /\ Builder.build Host.encode b' None = Ok (b', blob).
Proof.
  assert (E : exists b' blob, Builder.build Host.encode Host.builder3 None = Ok (b', blob))
    by (eexists _, _; vm_compute; reflexivity).
  destruct E as (b' & blob & E). exists b', blob. split; [exact E|].
  apply (build_is_repeatable Host.encode Host.builder3 b' None blob E).
Defined.

Lemma built_archive_has_end_record_witness :
  exists b' blob k,
    Builder.build Host.encode Host.builder3 None = Ok (b', blob)
    /\ ExtractorView.eocdOffset (Builder.blob_bytes blob) = Ok k
    /\ len (Builder.blob_bytes blob) - 22 <= k.
Proof.
  assert (E : exists b' blob, Builder.build Host.encode Host.builder3 None = Ok (b', blob))
    by (eexists _, _; vm_compute; reflexivity).
  destruct E as (b' & blob & E).
  destruct (built_archive_has_end_record Host.encode Host.builder3 b' None blob E)
    as (k & H1 & _ & H3 & _).
  exists b', blob, k. split; [exact E|]. split; [exact H1|].
  cbn [Builder.encode_opt] in H3. change (len (@nil byte)) with 0 in H3. lia.
Defined.

(** ** The cursor stays inside its array *)

Lemma keeps_ret {A} (a : A) : keeps_bounds (ret a).
Proof. intros s a' s' Hs [= _ <-]. auto. Qed.

Lemma keeps_bind {A B} (m : M A) (k : A -> M B) :
  keeps_bounds m -> (forall a, keeps_bounds (k a)) -> keeps_bounds (bind m k).
Proof.
  intros Hm Hk s b s' Hs H. apply bind_inv in H as (a & s1 & H1 & H2).
  destruct (Hm _ _ _ Hs H1) as [Hl1 Ho1].
  destruct (Hk a _ _ _ Ho1 H2) as [Hl2 Ho2]. split; [congruence|exact Ho2].
Qed.

Lemma keeps_get_offset : keeps_bounds get_offset.
Proof. intros s a s' Hs [= _ <-]. auto. Qed.

Lemma keeps_get_bytes : keeps_bounds get_bytes.
Proof. intros s a s' Hs [= _ <-]. auto. Qed.

Lemma keeps_set_offset v : keeps_bounds (set_offset v).
Proof.
  intros s a s' Hs H. apply set_offset_inv in H as (z & _ & Hz & ->). cbn [bytes offset]. auto.
Qed.

Lemma len_put b o v : len (TypedArray.put b o v) = len b.
Proof.
  unfold TypedArray.put. destruct (o <? 0); [reflexivity|].
  unfold len. now rewrite length_insert.
Qed.

Lemma keeps_set_bytes b0 b : len b = len b0 ->
  forall s a s', bytes s = b0 -> offset s <= len (bytes s) -> set_bytes b s = Ok (a, s') ->
    len (bytes s') = len (bytes s) /\ offset s' <= len (bytes s').
Proof.
  intros Hl s a s' Hb Hs [= _ <-]. cbn [bytes offset]. rewrite Hb in *. lia.
Qed.

Lemma keeps_write v : keeps_bounds (write v).
Proof.
  intros s a s' Hs H. unfold write in H.
  apply bind_inv in H as (o & s1 & H1 & H).
  assert (K : keeps_bounds post_increment).
  { unfold post_increment. apply keeps_bind; [apply keeps_get_offset|intros ?].
    apply keeps_bind; [apply keeps_set_offset|intros ?]. apply keeps_ret. }
  destruct (K _ _ _ Hs H1) as [Hl1 Ho1].
  apply bind_inv in H as (b & s2 & H2 & H). injection H2 as <- <-.
  injection H as _ <-. cbn [bytes offset]. rewrite len_put. lia.
Qed.

Lemma keeps_set src : keeps_bounds (set src).
Proof.
  intros s a s' Hs H. unfold set in H.
  apply bind_inv in H as (o & s1 & H1 & H). injection H1 as <- <-.
  apply bind_inv in H as (b & s1 & H1 & H). injection H1 as <- <-.
  destruct (lt _ _); [discriminate|].
  unfold TypedArray.set in H.
  destruct (Z.ltb_spec (offset s) 0) as [Hneg|Hpos]; [discriminate|].
  destruct (Z.ltb_spec (len (bytes s)) (offset s + len src)) as [Hov|Hfit]; [discriminate|].
  cbn [orb] in H.
  apply bind_inv in H as (u & s2 & H2 & H). injection H2 as _ <-.
  apply set_offset_inv in H as (z & _ & Hz & ->). cbn [bytes offset] in *.
  split; [|exact Hz].
  fold (stored_at (bytes s) (offset s) src). apply len_stored_at; lia.
Qed.

Ltac keeps :=
  repeat first
    [ apply keeps_ret | apply keeps_get_offset | apply keeps_get_bytes
    | apply keeps_set_offset | apply keeps_write | apply keeps_set
    | apply keeps_bind; [|intros ?] ].

(** X7. No method of the cursor resizes its array, and every method that
    returns leaves the offset at most the length of the array, as a new
    cursor has it. *)
Theorem cursor_keeps_bounds :
  keeps_bounds read
  /\ (forall v, keeps_bounds (write v))
  /\ keeps_bounds readAsUshort
  /\ (forall v, keeps_bounds (writeUshort v))
  /\ keeps_bounds readAsInt
  /\ (forall v, keeps_bounds (writeInt v))
  /\ keeps_bounds readAsUint
  /\ (forall n, keeps_bounds (subarray n))
  /\ (forall src, keeps_bounds (set src))
  /\ (forall i, keeps_bounds (moveTo i))
  /\ forall b, offset (new b) <= len (bytes (new b)).
Proof.
  assert (Hr : keeps_bounds read) by (unfold read, post_increment; keeps).
  assert (Hi : keeps_bounds readAsInt)
    by (unfold readAsInt; repeat (apply keeps_bind; [exact Hr|intros ?]); apply keeps_ret).
  repeat apply conj.
  - apply Hr.
  - apply keeps_write.
  - unfold readAsUshort. repeat (apply keeps_bind; [exact Hr|intros ?]). apply keeps_ret.
  - intros v. unfold writeUshort. keeps.
  - apply Hi.
  - intros v. unfold writeInt. keeps.
  - unfold readAsUint. apply keeps_bind; [exact Hi|intros ?]. apply keeps_ret.
  - intros n. unfold subarray. keeps.
  - apply keeps_set.
  - intros i. apply keeps_set_offset.
  - intros b. cbn. apply len_nonneg.
Qed.

(** ** The two serializers write the same bytes *)

Lemma ToUint8_ext x y : ToUint32 x mod 256 = ToUint32 y mod 256 -> ToUint8 x = ToUint8 y.
Proof. unfold ToUint8. now intros ->. Qed.

Lemma le32_u32le v : DataView.le32 v = u32le v.
Proof.
  unfold DataView.le32, u32le. cbv zeta.
  pose proof (ToUint32_range v) as Hu. unfold in_u32 in Hu.
  assert (Hs : forall k, 0 <= k -> ToUint32 (Num (ToUint32 v / 2 ^ k)) = ToUint32 v / 2 ^ k).
  { intros k Hk. apply ToUint32_small. unfold in_u32.
    assert (0 < 2 ^ k) by (apply Z.pow_pos_nonneg; lia).
    split; [apply Z.div_pos; lia|]. apply Z.div_lt_upper_bound; [lia|]. nia. }
  repeat (apply (f_equal2 cons)); try reflexivity; apply byte_to_Z_inj;
    rewrite ?byte_of_band_ushr, ?byte_of_band by lia; rewrite byte_to_Z_ToUint8;
    rewrite ?Hs by lia; rewrite ?ToUint32_idem; reflexivity.
Qed.

Lemma le16_u16le v : DataView.le16 v = u16le v.
Proof.
  unfold DataView.le16, u16le. cbv zeta.
  pose proof (ToUint32_range v) as Hu. unfold in_u32 in Hu.
  set (u := ToUint32 v) in *.
  pose proof (Z.mod_pos_bound u (2 ^ 16) ltac:(lia)) as Hm.
  assert (H1 : ToUint32 (Num (u mod 2 ^ 16)) = u mod 2 ^ 16)
    by (apply ToUint32_small; unfold in_u32; lia).
  assert (H2 : ToUint32 (Num (u mod 2 ^ 16 / 2 ^ 8)) = u mod 2 ^ 16 / 2 ^ 8).
  { apply ToUint32_small. unfold in_u32.
    split; [apply Z.div_pos; lia|]. apply Z.div_lt_upper_bound; lia. }
  repeat (apply (f_equal2 cons)); try reflexivity; apply byte_to_Z_inj;
    rewrite ?byte_of_band_ushr, ?byte_of_band by lia; rewrite byte_to_Z_ToUint8;
    fold u; rewrite ?H1, ?H2.
  - apply Z.mod_mod_divide. exists 256. reflexivity.
  - change (2 ^ 16) with 65536 in *. change (2 ^ 8) with 256.
    pose proof (Z.div_mod u 65536 ltac:(lia)).
    pose proof (Z.div_mod (u mod 65536) 256 ltac:(lia)).
    pose proof (Z.mod_pos_bound (u mod 65536) 256 ltac:(lia)).
    assert (0 <= u mod 65536 / 256 < 256)
      by (split; [apply Z.div_pos; lia|apply Z.div_lt_upper_bound; lia]).
    assert (Hd : u / 256 = 256 * (u / 65536) + u mod 65536 / 256)
      by (symmetry; apply Z.div_unique_pos with (r := (u mod 65536) mod 256); lia).
    rewrite Hd. rewrite (Z.mod_small (u mod 65536 / 256)) by lia.
    apply Z.mod_unique_pos with (q := u / 65536); lia.
Qed.

Lemma setUint32_split o pre x0 x1 x2 x3 rest v :
  o = len pre ->
  DataView.setUint32 (pre ++ x0 :: x1 :: x2 :: x3 :: rest) o v
  = Ok ((pre ++ u32le v) ++ rest).
Proof.
  intros ->. unfold DataView.setUint32. pose proof (len_nonneg pre). pose proof (len_nonneg rest).
  rewrite len_app. rewrite !len_cons.
  destruct (Z.ltb_spec (len pre) 0); [lia|].
  destruct (Z.ltb_spec (len pre + (1 + (1 + (1 + (1 + len rest))))) (len pre + 4)); [lia|].
  cbn [orb]. rewrite le32_u32le, to_nat_len, take_app_length.
  rewrite Z2Nat.inj_add by lia. rewrite to_nat_len, <- drop_drop, drop_app_length.
  cbn [Z.to_nat Pos.to_nat Pos.iter_op Nat.add drop]. now rewrite <- app_assoc.
Qed.

Lemma setUint16_split o pre x0 x1 rest v :
  o = len pre ->
  DataView.setUint16 (pre ++ x0 :: x1 :: rest) o v = Ok ((pre ++ u16le v) ++ rest).
Proof.
  intros ->. unfold DataView.setUint16. pose proof (len_nonneg pre). pose proof (len_nonneg rest).
  rewrite len_app. rewrite !len_cons.
  destruct (Z.ltb_spec (len pre) 0); [lia|].
  destruct (Z.ltb_spec (len pre + (1 + (1 + len rest))) (len pre + 2)); [lia|].
  cbn [orb]. rewrite le16_u16le, to_nat_len, take_app_length.
  rewrite Z2Nat.inj_add by lia. rewrite to_nat_len, <- drop_drop, drop_app_length.
  cbn [Z.to_nat Pos.to_nat Pos.iter_op Nat.add drop]. now rewrite <- app_assoc.
Qed.

Ltac store_steps :=
  repeat first
    [ rewrite setUint32_split by reflexivity
    | rewrite setUint16_split by reflexivity ].

Lemma local_toBlobParts r :
  LocalFileHeaderView.toBlobParts r
  = Ok [u32le (LocalFileHeader.signature r)
        ++ u16le (LocalFileHeader.versionNeeded r)
        ++ u16le (LocalFileHeader.flags r)
        ++ u16le (LocalFileHeader.method r)
        ++ u32le (ZipDateTime.toInt (LocalFileHeader.lastModified r))
        ++ u32le (LocalFileHeader.crc32 r)
        ++ u32le (LocalFileHeader.compressedSize r)
        ++ u32le (LocalFileHeader.uncompressedSize r)
        ++ u16le (Num (len (LocalFileHeader.fileNameBytes r)))
        ++ u16le (Num (len (LocalFileHeader.extraFieldBytes r)));
        LocalFileHeader.fileNameBytes r; LocalFileHeader.extraFieldBytes r].
Proof.
  unfold LocalFileHeaderView.toBlobParts, DataView.stores.
  change (TypedArray.new 30) with ([] ++ replicate 30 x00).
  cbn [fold_left replicate]. store_steps.
  rewrite app_nil_r. cbn [app]. reflexivity.
Qed.

Lemma entry_toBlobParts r :
  let h := CentralDirectoryEntry.base r in
  CentralDirectoryEntryView.toBlobParts r
  = Ok [u32le (LocalFileHeader.signature h)
        ++ u16le (CentralDirectoryEntry.versionMadeBy r)
        ++ u16le (LocalFileHeader.versionNeeded h)
        ++ u16le (LocalFileHeader.flags h)
        ++ u16le (LocalFileHeader.method h)
        ++ u32le (ZipDateTime.toInt (LocalFileHeader.lastModified h))
        ++ u32le (LocalFileHeader.crc32 h)
        ++ u32le (LocalFileHeader.compressedSize h)
        ++ u32le (LocalFileHeader.uncompressedSize h)
        ++ u16le (Num (len (LocalFileHeader.fileNameBytes h)))
        ++ u16le (Num (len (LocalFileHeader.extraFieldBytes h)))
        ++ u16le (Num (len (CentralDirectoryEntry.commentBytes r)))
        ++ u16le (CentralDirectoryEntry.diskIdStart r)
        ++ u16le (CentralDirectoryEntry.internalAttributes r)
        ++ u32le (CentralDirectoryEntry.externalAttributes r)
        ++ u32le (CentralDirectoryEntry.headerOffset r);
        LocalFileHeader.fileNameBytes h; LocalFileHeader.extraFieldBytes h;
        CentralDirectoryEntry.commentBytes r].
Proof.
  unfold CentralDirectoryEntryView.toBlobParts, DataView.stores. cbv zeta.
  change (TypedArray.new 46) with ([] ++ replicate 46 x00).
  cbn [fold_left replicate]. store_steps.
  rewrite app_nil_r. cbn [app]. reflexivity.
Qed.

Lemma eocd_toBlobParts r :
  EndOfCentralDirectoryRecordView.toBlobParts r
  = Ok [u32le (EndOfCentralDirectoryRecord.signature r)
        ++ u16le (EndOfCentralDirectoryRecord.diskId r)
        ++ u16le (EndOfCentralDirectoryRecord.firstDiskId r)
        ++ u16le (EndOfCentralDirectoryRecord.numOfFiles r)
        ++ u16le (EndOfCentralDirectoryRecord.totalNumOfFiles r)
        ++ u32le (EndOfCentralDirectoryRecord.cdSize r)
        ++ u32le (EndOfCentralDirectoryRecord.cdOffset r)
        ++ u16le (Num (len (EndOfCentralDirectoryRecord.commentBytes r)));
        EndOfCentralDirectoryRecord.commentBytes r].
Proof.
  unfold EndOfCentralDirectoryRecordView.toBlobParts, DataView.stores.
  change (TypedArray.new 22) with ([] ++ replicate 22 x00).
  cbn [fold_left replicate]. store_steps.
  rewrite app_nil_r. cbn [app]. reflexivity.
Qed.

(** X10. The serializers of the [DataView] variant never fail: each
    returns a view of 30, 46 or 22 bytes followed by the record's byte
    ranges, and the concatenation of these parts is the byte array the
    cursor-based [toBytes] returns for the same record. *)
Theorem variants_serialize_alike :
  (forall r, exists view,
     LocalFileHeaderView.toBlobParts r
     = Ok [view; LocalFileHeader.fileNameBytes r; LocalFileHeader.extraFieldBytes r]
     /\ len view = 30
     /\ LocalFileHeader.toBytes r
        = Ok (concat [view; LocalFileHeader.fileNameBytes r;
                      LocalFileHeader.extraFieldBytes r]))
  /\ (forall r, exists view,
     CentralDirectoryEntryView.toBlobParts r
     = Ok [view; LocalFileHeader.fileNameBytes (CentralDirectoryEntry.base r);
           LocalFileHeader.extraFieldBytes (CentralDirectoryEntry.base r);
           CentralDirectoryEntry.commentBytes r]
     /\ len view = 46
     /\ CentralDirectoryEntry.toBytes r
        = Ok (concat [view; LocalFileHeader.fileNameBytes (CentralDirectoryEntry.base r);
                      LocalFileHeader.extraFieldBytes (CentralDirectoryEntry.base r);
                      CentralDirectoryEntry.commentBytes r]))
  /\ (forall r, exists view,
     EndOfCentralDirectoryRecordView.toBlobParts r
     = Ok [view; EndOfCentralDirectoryRecord.commentBytes r]
     /\ len view = 22
     /\ EndOfCentralDirectoryRecord.toBytes r
        = Ok (concat [view; EndOfCentralDirectoryRecord.commentBytes r])).
Proof.
  split; [|split]; intros r.
  - eexists. split; [apply local_toBlobParts|]. split; [reflexivity|].
    rewrite LocalFileHeader_toBytes_layout. unfold Layout.localFileHeader.
    cbn [concat]. now rewrite app_nil_r, <- !app_assoc.
  - eexists. split; [apply entry_toBlobParts|]. split; [reflexivity|].
    rewrite CentralDirectoryEntry_toBytes_layout. unfold Layout.centralDirectoryEntry.
    cbv zeta. cbn [concat]. now rewrite app_nil_r, <- !app_assoc.
  - eexists. split; [apply eocd_toBlobParts|]. split; [reflexivity|].
    rewrite EndOfCentralDirectoryRecord_toBytes_layout.
    unfold Layout.endOfCentralDirectoryRecord.
    cbn [concat]. now rewrite app_nil_r, <- !app_assoc.
Qed.

(** ** The scan for the end record, and moving the cursor *)

Lemma signature_at_here pre post :
  signature_at (pre ++ eocd_signature_bytes ++ post) (len pre) = true.
Proof.
  replace (len pre) with (len pre + 0) by lia.
  rewrite signature_at_app_r by lia. reflexivity.
Qed.

Lemma signature_at_split a i :
  signature_at a i = true ->
  exists pre post, a = pre ++ eocd_signature_bytes ++ post /\ len pre = i.
Proof.
  unfold signature_at, eocd_signature. cbn [forallb]. rewrite !andb_true_iff.
  intros (H0 & H1 & H2 & H3 & _).
  apply (get_eq_byte a (i + 0) x50) in H0 as [Hi H0].
  apply (get_eq_byte a (i + 1) x4b) in H1 as [_ H1].
  apply (get_eq_byte a (i + 2) x05) in H2 as [_ H2].
  apply (get_eq_byte a (i + 3) x06) in H3 as [_ H3].
  replace (Z.to_nat (i + 0)) with (Z.to_nat i) in H0 by lia.
  replace (Z.to_nat (i + 1)) with (S (Z.to_nat i)) in H1 by lia.
  replace (Z.to_nat (i + 2)) with (S (S (Z.to_nat i))) in H2 by lia.
  replace (Z.to_nat (i + 3)) with (S (S (S (Z.to_nat i)))) in H3 by lia.
  exists (take (Z.to_nat i) a), (drop (S (S (S (S (Z.to_nat i))))) a).
  split.
  - unfold eocd_signature_bytes. cbn [app].
    rewrite <- (drop_S _ _ _ H3), <- (drop_S _ _ _ H2), <- (drop_S _ _ _ H1).
    rewrite <- (drop_S _ _ _ H0). now rewrite take_drop.
  - apply lookup_lt_Some in H0. unfold len. rewrite length_take. lia.
Qed.

(** X18. The scan of the constructor returns -1 exactly when the four
    bytes 50 4B 05 06 occur nowhere in the buffer, and otherwise the
    position of their last occurrence. *)
Theorem scan_finds_last_signature (a : Uint8Array) :
  let k := findLastIndex a signature_at in
  (k = -1 /\ ~ contains_signature a)
  \/ (exists pre post,
        a = pre ++ eocd_signature_bytes ++ post /\ len pre = k
        /\ forall pre' post', a = pre' ++ eocd_signature_bytes ++ post' -> len pre' <= k).
Proof.
  cbv zeta. unfold findLastIndex.
  destruct (findLastIndex_below_spec (signature_at a) (length a))
    as [[Hk Hnone]|(Hk & Hp & Hlast)]; cbv zeta in *.
  - left. split; [exact Hk|]. intros (pre & post & Ha).
    pose proof (signature_at_here pre post) as Hs. rewrite <- Ha in Hs.
    rewrite Hnone in Hs; [discriminate|].
    pose proof (len_nonneg pre). split; [lia|].
    rewrite Ha, !length_app. unfold len, eocd_signature_bytes. cbn [length]. lia.
  - right. apply signature_at_split in Hp as (pre & post & Ha & Hl).
    exists pre, post. split; [exact Ha|]. split; [exact Hl|].
    intros pre' post' Ha'.
    destruct (Z_le_gt_dec (len pre') (findLastIndex_below (signature_at a) (length a)))
      as [Hle|Hgt]; [exact Hle|].
    pose proof (signature_at_here pre' post') as Hs. rewrite <- Ha' in Hs.
    rewrite Hlast in Hs; [discriminate|]. split; [lia|].
    rewrite Ha', !length_app. unfold len, eocd_signature_bytes. cbn [length]. lia.
Qed.

(** X6. The offset setter only has an upper bound: [moveTo(i)] succeeds
    for every integer [i] up to the length of the array, negative ones
    included, and throws for larger ones and for [NaN]; from a negative
    offset [read] returns [undefined], and [readAsUint] over four such
    positions returns 0. *)
Theorem moveTo_has_no_lower_bound (s : t) (i : Z) :
  (i <= len (bytes s) -> moveTo (Num i) s = Ok (tt, {| bytes := bytes s; offset := i |}))
  /\ (len (bytes s) < i -> moveTo (Num i) s = Err (IndexInvalid (Num i)))
  /\ moveTo NaN s = Err (IndexInvalid NaN)
  /\ (i < 0 -> i < len (bytes s) ->
      read {| bytes := bytes s; offset := i |}
      = Ok (NaN, {| bytes := bytes s; offset := i + 1 |}))
  /\ (i <= -4 -> i + 4 <= len (bytes s) ->
      readAsUint {| bytes := bytes s; offset := i |}
      = Ok (Num 0, {| bytes := bytes s; offset := i + 4 |})).
Proof.
  assert (Hread : forall j, j < 0 -> j < len (bytes s) ->
            read {| bytes := bytes s; offset := j |}
            = Ok (NaN, {| bytes := bytes s; offset := j + 1 |})).
  { intros j Hj Hl. rewrite read_ok by (cbn [bytes offset]; lia). cbn [bytes offset].
    unfold TypedArray.get. destruct (Z.ltb_spec j 0); [reflexivity|lia]. }
  split; [apply set_offset_le|]. split; [apply set_offset_gt|]. split; [reflexivity|].
  split; [apply Hread|]. intros Hi Hl.
  unfold readAsUint, readAsInt, bind.
  rewrite (Hread i) by lia. cbv beta iota.
  rewrite (Hread (i + 1)) by lia. cbv beta iota.
  rewrite (Hread (i + 1 + 1)) by lia. cbv beta iota.
  rewrite (Hread (i + 1 + 1 + 1)) by lia. cbv beta iota.
  unfold ret. do 3 f_equal. lia.
Qed.

